(** * Campaign job queue: store, transaction wrapper, mail collaborator

    A shallow embedding of the parts of the backend template that its
    design document makes promises about:

    - [lib/external-apis.ts]: the error classes, the rate limiter with
      its idempotency cache and the mock [sendEmail];
    - the helper functions offered to candidates: the failure classifiers;
    - [setup.ts]: the [job_steps] table and its constraints;
    - [lib/database.ts]: [executeSql] and the [transaction] wrapper;
    - [lib/orm.ts]: the insert issued by [JobStepModel.create];
    - [candidate/solution.ts]: the four entry points of the queue core.

    and of the code around them: the idempotency key and the workflow
    steps of the helper functions, the CRM and sentiment mocks,
    [lib/metrics.ts], and from [lib/orm.ts] the naming conventions, the
    conversion of rows, [delete] and the query builder.

    Conventions.  A JavaScript [Date] and [Date.now()] are integers
    (milliseconds since the epoch).  [Math.random()] and the rates it is
    compared with are rationals.  An [async] function is a state
    transformer returning either a value or the error it threw. *)

From Stdlib Require Import ZArith QArith Lia Lqa Ascii.
From stdpp Require Import base option list gmap strings pretty sorting.

Close Scope Q_scope.
Open Scope string_scope.
Open Scope Z_scope.

(* ===================================================================== *)
(** * JavaScript errors and outcomes *)
(* ===================================================================== *)

Module Js.

(** An [Error] object: the [name] its class sets in the constructor, the
    [message], and the optional [code] property some errors carry. *)
Record Error := mkError {
  name : string;
  message : string;
  code : option string
}.

(** What an awaited call produces. *)
Inductive outcome (A : Type) :=
| Returns (a : A)
| Throws (e : Error).
Arguments Returns {A} a.
Arguments Throws {A} e.

(** [hay.includes(needle)] *)
Fixpoint includes (needle hay : string) : bool :=
  String.prefix needle hay ||
  match hay with
  | EmptyString => false
  | String _ rest => includes needle rest
  end.

(** Truthiness of a string: only the empty string is falsy. *)
Definition truthy (s : string) : bool :=
  match s with EmptyString => false | _ => true end.

End Js.
Export Js.

(* ===================================================================== *)
(** * lib/external-apis.ts: error classes *)
(* ===================================================================== *)

Module ErrorClasses.

Definition PlainError (msg : string) : Error := mkError "Error" msg None.
Definition SendGridError (msg : string) : Error := mkError "SendGridError" msg None.
Definition RateLimitError (msg : string) : Error := mkError "RateLimitError" msg None.
Definition InvalidEmailError (msg : string) : Error := mkError "InvalidEmailError" msg None.
Definition TimeoutError (msg : string) : Error := mkError "TimeoutError" msg None.
Definition SalesforceError (msg : string) : Error := mkError "SalesforceError" msg None.
Definition SentimentAPIError (msg : string) : Error := mkError "SentimentAPIError" msg None.

End ErrorClasses.
Export ErrorClasses.

(* ===================================================================== *)
(** * Helper functions for candidates: failure classification *)
(* ===================================================================== *)

Module Utils.

Definition isTransientError (error : Error) : bool :=
  String.eqb (name error) "RateLimitError" ||
  String.eqb (name error) "TimeoutError".

Definition isPermanentError (error : Error) : bool :=
  String.eqb (name error) "InvalidEmailError".

End Utils.
Export Utils.

(* ===================================================================== *)
(** * lib/external-apis.ts: configuration, rate limiter, mock mail API *)
(* ===================================================================== *)

Module ExternalApis.

Record SendgridConfig := {
  rateLimitPerSecond : Z;
  errorRate : Q;
  latencyMs : Z;
  enabled : bool
}.

(** The [sendgrid] entry of the exported [apiConfig] object. *)
Definition apiConfig : SendgridConfig := {|
  rateLimitPerSecond := 500;
  errorRate := (5 # 100)%Q;
  latencyMs := 200;
  enabled := true
|}.

Record CacheEntry := { messageId : string; timestamp : Z }.

(** [class RateLimiter]: the request times of the last second and the
    idempotency cache, a [Map] from key to entry. *)
Record RateLimiter := {
  requests : list Z;
  idempotencyCache : gmap string CacheEntry
}.

Definition checkRateLimit (now limitPerSecond : Z) (rl : RateLimiter)
  : bool * RateLimiter :=
  let recent := List.filter (fun time => now - time <? 1000) (requests rl) in
  if Z.of_nat (length recent) >=? limitPerSecond
  then (false, {| requests := recent; idempotencyCache := idempotencyCache rl |})
  else (true, {| requests := recent ++ [now];
                 idempotencyCache := idempotencyCache rl |}).

Definition checkIdempotency (now : Z) (key : string) (rl : RateLimiter)
  : option string * RateLimiter :=
  match idempotencyCache rl !! key with
  | Some cached =>
      if now - timestamp cached <? 24 * 60 * 60 * 1000
      then (Some (messageId cached), rl)
      else (None, {| requests := requests rl;
                     idempotencyCache := delete key (idempotencyCache rl) |})
  | None => (None, rl)
  end.

Definition cacheIdempotency (now : Z) (key mid : string) (rl : RateLimiter)
  : RateLimiter :=
  {| requests := requests rl;
     idempotencyCache :=
       <[key := {| messageId := mid; timestamp := now |}]> (idempotencyCache rl) |}.

Definition reset (rl : RateLimiter) : RateLimiter :=
  {| requests := []; idempotencyCache := ∅ |}.

(** One email the mock reported as sent ([Email sent to ...]).  The key
    of the call is kept with it so that deliveries can be counted per
    key. *)
Record Delivery := { sentTo : string; sentKey : string; sentId : string }.

(** Module state: the mutable [apiConfig.sendgrid], the module-level
    [sendgridLimiter], and the deliveries made so far. *)
Record Api := {
  config : SendgridConfig;
  sendgridLimiter : RateLimiter;
  deliveries : list Delivery
}.

Definition with_limiter (rl : RateLimiter) (st : Api) : Api :=
  {| config := config st; sendgridLimiter := rl; deliveries := deliveries st |}.

(** [generateMessageId] builds [msg_<Date.now()>_<random suffix>]; the
    part after the prefix is supplied by the caller of the model. *)
Definition generateMessageId (stamp : string) : string := "msg_" +:+ stamp.

(** ** [sendEmail]

    The body has one suspension point between the idempotency check and
    the validation ([await sleep(latencyMs)]), so it is two atomic
    phases.  [sendEmail_begin] runs up to the first [await]. *)
Inductive Begun :=
| Finished (r : outcome string) (delay : Z)
| Sleeping (delay : Z).

Definition sendEmail_begin (now : Z) (to body idempotencyKey : string) (st : Api)
  : Begun * Api :=
  if negb (enabled (config st))
  then (Finished (Throws (SendGridError "SendGrid API is disabled")) 0, st)
  else
    let '(cachedMessageId, rl) :=
      checkIdempotency now idempotencyKey (sendgridLimiter st) in
    let st := with_limiter rl st in
    match cachedMessageId with
    | Some mid =>
        if truthy mid then (Finished (Returns mid) 50, st)
        else (Sleeping (latencyMs (config st)), st)
    | None => (Sleeping (latencyMs (config st)), st)
    end.

(** [sendEmail_resume] runs from the wake-up to the end.  [rand] is the
    value [Math.random()] yields for the error injection; every
    [Date.now()] of the phase reads the same [now]. *)
Definition sendEmail_resume (now : Z) (rand : Q) (stamp : string)
    (to body idempotencyKey : string) (st : Api) : outcome string * Api :=
  if negb (includes "@" to) || negb (includes "." to)
  then (Throws (InvalidEmailError ("Invalid email format: " +:+ to)), st)
  else
    let '(allowed, rl) :=
      checkRateLimit now (rateLimitPerSecond (config st)) (sendgridLimiter st) in
    let st := with_limiter rl st in
    if negb allowed
    then (Throws (RateLimitError "SendGrid rate limit exceeded (500/sec)"), st)
    else if Qlt_le_dec rand (errorRate (config st) * (3 # 10))%Q
    then (Throws (TimeoutError "SendGrid request timeout"), st)
    else if Qlt_le_dec rand (errorRate (config st) * (6 # 10))%Q
    then (Throws (RateLimitError "SendGrid rate limit exceeded"), st)
    else if Qlt_le_dec rand (errorRate (config st))
    then (Throws (SendGridError "SendGrid internal error"), st)
    else
      let mid := generateMessageId stamp in
      let rl := cacheIdempotency now idempotencyKey mid (sendgridLimiter st) in
      (Returns mid,
       {| config := config st;
          sendgridLimiter := rl;
          deliveries := deliveries st ++
            [{| sentTo := to; sentKey := idempotencyKey; sentId := mid |}] |}).

(** A whole call with nothing interleaved: [now] is the time of the
    call, and the second phase runs [delay] milliseconds later. *)
Definition sendEmail (now : Z) (rand : Q) (stamp : string)
    (to body idempotencyKey : string) (st : Api) : outcome string * Api :=
  match sendEmail_begin now to body idempotencyKey st with
  | (Finished r _, st1) => (r, st1)
  | (Sleeping delay, st1) =>
      sendEmail_resume (now + delay) rand stamp to body idempotencyKey st1
  end.

(** [resetApis] and [setApiConfig] (its [sendgrid] entry). *)
Definition resetApis (st : Api) : Api :=
  with_limiter (reset (sendgridLimiter st)) st.

Definition setApiConfig (cfg : SendgridConfig) (st : Api) : Api :=
  {| config := cfg; sendgridLimiter := sendgridLimiter st;
     deliveries := deliveries st |}.

End ExternalApis.
Export ExternalApis.

(* ===================================================================== *)
(** * lib/orm.ts: enums and entities *)
(* ===================================================================== *)

(** The enums are numeric: a member stands for its position, which is
    what the tables store. *)
Module JobStatus.
Inductive t := Pending | Processing | Failed | Completed.
Definition value (s : t) : Z :=
  match s with Pending => 0 | Processing => 1 | Failed => 2 | Completed => 3 end.
End JobStatus.

Module JobStepName.
Inductive t := SendEmail | Analyze | TakeAction.
Definition value (s : t) : Z :=
  match s with SendEmail => 0 | Analyze => 1 | TakeAction => 2 end.
End JobStepName.

Module JobStepStatus.
Inductive t := Pending | InProgress | Completed | Failed.
Definition value (s : t) : Z :=
  match s with Pending => 0 | InProgress => 1 | Completed => 2 | Failed => 3 end.
End JobStepStatus.

Module CampaignStatus.
Inductive t := Draft | Active | Paused | Completed | Archived.
Definition value (s : t) : Z :=
  match s with Draft => 0 | Active => 1 | Paused => 2 | Completed => 3 | Archived => 4 end.
End CampaignStatus.

Module Entities.

Record Job := {
  id : Z;
  campaignId : Z;
  customerEmail : string;
  currentStep : JobStepName.t;
  status : JobStatus.t;
  workerId : option string;
  retryCount : Z;
  createdAt : Z;
  startedAt : option Z;
  completedAt : option Z;
  errorMessage : option string;
  scheduledFor : option Z;
  lastHeartbeat : option Z
}.

Record Campaign := {
  campaign_id : Z;
  campaign_name : string;
  campaign_userId : Z;
  campaign_status : CampaignStatus.t;
  campaign_createdAt : Z
}.

(** A property of a [Partial<T>] object handed to the ORM: absent,
    [null], or a value. *)
Inductive cell (A : Type) :=
| Omitted
| Null
| Val (a : A).
Arguments Omitted {A}.
Arguments Null {A}.
Arguments Val {A} a.

Definition cell_map {A B} (f : A -> B) (c : cell A) : cell B :=
  match c with Omitted => Omitted | Null => Null | Val a => Val (f a) end.

(** [Partial<JobStep>]; [outputData] is kept as its JSON text. *)
Record JobStepData := {
  d_id : cell Z;
  d_jobId : cell Z;
  d_stepName : cell JobStepName.t;
  d_status : cell JobStepStatus.t;
  d_outputData : cell string;
  d_startedAt : cell Z;
  d_completedAt : cell Z
}.

End Entities.
Export Entities.

(* ===================================================================== *)
(** * setup.ts: the tables and the statements run against them *)
(* ===================================================================== *)

Module Schema.

(** A stored row of [job_steps]; the three [NOT NULL] columns cannot be
    empty, the others can. *)
Record JobStepRow := {
  js_id : Z;
  js_job_id : Z;
  js_step_name : Z;
  js_status : Z;
  js_output_data : option string;
  js_started_at : option Z;
  js_completed_at : option Z
}.

(** The column values of an [INSERT INTO job_steps (...) VALUES (...)]. *)
Record JobStepCols := {
  c_id : cell Z;
  c_job_id : cell Z;
  c_step_name : cell Z;
  c_status : cell Z;
  c_output_data : cell string;
  c_started_at : cell Z;
  c_completed_at : cell Z
}.

(** The assignments of an [UPDATE job_steps SET ...] that leaves the
    primary key alone. *)
Record JobStepAssign := {
  a_job_id : cell Z;
  a_step_name : cell Z;
  a_status : cell Z;
  a_output_data : cell string;
  a_started_at : cell Z;
  a_completed_at : cell Z
}.

(** The database: the three tables and the [sqlite_sequence] entry of
    [job_steps] ([AUTOINCREMENT]).  Rows are listed in the order a scan
    visits them. *)
Record Store := {
  campaigns : list Campaign;
  jobs : list Job;
  job_steps : list JobStepRow;
  job_steps_seq : Z
}.

Definition with_job_steps (rows : list JobStepRow) (seq : Z) (s : Store) : Store :=
  {| campaigns := campaigns s; jobs := jobs s;
     job_steps := rows; job_steps_seq := seq |}.

(** The database right after [setup.ts] created the schema, before the
    sample rows. *)
Definition empty_store : Store :=
  {| campaigns := []; jobs := []; job_steps := []; job_steps_seq := 0 |}.

Definition SqliteError (msg code : string) : Error :=
  mkError "SqliteError" msg (Some code).

Definition not_null (col : string) : Error :=
  SqliteError ("NOT NULL constraint failed: job_steps." +:+ col)
              "SQLITE_CONSTRAINT_NOTNULL".
Definition primary_key_failed : Error :=
  SqliteError "UNIQUE constraint failed: job_steps.id"
              "SQLITE_CONSTRAINT_PRIMARYKEY".
Definition unique_failed : Error :=
  SqliteError "UNIQUE constraint failed: job_steps.job_id, job_steps.step_name"
              "SQLITE_CONSTRAINT_UNIQUE".
Definition foreign_key_failed : Error :=
  SqliteError "FOREIGN KEY constraint failed" "SQLITE_CONSTRAINT_FOREIGNKEY".

(** What [stmt.run()] reports; the row id is kept for inserts only. *)
Record RunInfo := { changes : Z; lastInsertRowid : option Z }.

(** A data-changing statement: it fails with the engine's error and no
    change, or succeeds with a new database. *)
Definition Statement := Store -> Error + (RunInfo * Store).

(** [UNIQUE(job_id, step_name)] *)
Definition same_key (j n : Z) (r : JobStepRow) : bool :=
  (js_job_id r =? j) && (js_step_name r =? n).

Definition key_taken (j n : Z) (rows : list JobStepRow) : bool :=
  existsb (same_key j n) rows.

Definition id_taken (i : Z) (rows : list JobStepRow) : bool :=
  existsb (fun r => js_id r =? i) rows.

(** [FOREIGN KEY (job_id) REFERENCES jobs(id)], enforced because
    [getDatabase] sets [foreign_keys = ON]. *)
Definition job_exists (j : Z) (s : Store) : bool :=
  existsb (fun jb => id jb =? j) (jobs s).

Definition next_rowid (s : Store) : Z :=
  Z.max (job_steps_seq s) (fold_right Z.max 0 (List.map js_id (job_steps s))) + 1.

Definition stored {A} (c : cell A) : option A :=
  match c with Val a => Some a | _ => None end.

(** [INSERT INTO job_steps].  The engine checks [NOT NULL] column by
    column, then the primary key, then the [UNIQUE] index, and the
    foreign key when the statement ends. *)
Definition insert_job_step (now : Z) (c : JobStepCols) : Statement := fun s =>
  match c_job_id c, c_step_name c, c_status c with
  | Val j, Val n, Val st =>
      let i := match c_id c with Val i => i | _ => next_rowid s end in
      if id_taken i (job_steps s) then inl primary_key_failed
      else if key_taken j n (job_steps s) then inl unique_failed
      else if negb (job_exists j s) then inl foreign_key_failed
      else
        let row := {| js_id := i; js_job_id := j; js_step_name := n;
                      js_status := st;
                      js_output_data := stored (c_output_data c);
                      js_started_at :=
                        match c_started_at c with
                        | Omitted => Some now   (* DEFAULT CURRENT_TIMESTAMP *)
                        | other => stored other
                        end;
                      js_completed_at := stored (c_completed_at c) |} in
        inr ({| changes := 1; lastInsertRowid := Some i |},
             with_job_steps (job_steps s ++ [row]) (Z.max (job_steps_seq s) i) s)
  | Val _, Val _, _ => inl (not_null "status")
  | Val _, _, _ => inl (not_null "step_name")
  | _, _, _ => inl (not_null "job_id")
  end.

Definition assign_required (col : string) (c : cell Z) (old : Z) : Error + Z :=
  match c with
  | Omitted => inr old
  | Null => inl (not_null col)
  | Val v => inr v
  end.

Definition assign_nullable {A} (c : cell A) (old : option A) : option A :=
  match c with
  | Omitted => old
  | Null => None
  | Val v => Some v
  end.

Definition assign_row (a : JobStepAssign) (r : JobStepRow) : Error + JobStepRow :=
  match assign_required "job_id" (a_job_id a) (js_job_id r),
        assign_required "step_name" (a_step_name a) (js_step_name r),
        assign_required "status" (a_status a) (js_status r) with
  | inr j, inr n, inr st =>
      inr {| js_id := js_id r; js_job_id := j; js_step_name := n; js_status := st;
             js_output_data := assign_nullable (a_output_data a) (js_output_data r);
             js_started_at := assign_nullable (a_started_at a) (js_started_at r);
             js_completed_at := assign_nullable (a_completed_at a) (js_completed_at r) |}
  | inl e, _, _ => inl e
  | _, inl e, _ => inl e
  | _, _, inl e => inl e
  end.

(** The row-by-row pass of an [UPDATE]: [done] holds the rows already
    visited, [todo] the rest.  A rewritten row is checked against every
    other row as the table stands at that moment. *)
Fixpoint update_rows (cond : JobStepRow -> bool) (a : JobStepAssign)
    (done todo : list JobStepRow) : Error + (list JobStepRow * Z) :=
  match todo with
  | [] => inr (done, 0)
  | r :: rest =>
      if cond r then
        match assign_row a r with
        | inl e => inl e
        | inr r' =>
            if key_taken (js_job_id r') (js_step_name r') (done ++ rest)
            then inl unique_failed
            else
              match update_rows cond a (done ++ [r']) rest with
              | inl e => inl e
              | inr (rows, n) => inr (rows, n + 1)
              end
        end
      else update_rows cond a (done ++ [r]) rest
  end.

(** [UPDATE job_steps SET ... WHERE cond]: any failure aborts the whole
    statement. *)
Definition update_job_steps (cond : JobStepRow -> bool) (a : JobStepAssign)
  : Statement := fun s =>
  match update_rows cond a [] (job_steps s) with
  | inl e => inl e
  | inr (rows, n) =>
      let orphaned :=
        match a_job_id a with
        | Val j => (0 <? n) && negb (job_exists j s)
        | _ => false
        end in
      if orphaned then inl foreign_key_failed
      else inr ({| changes := n; lastInsertRowid := None |},
                with_job_steps rows (job_steps_seq s) s)
  end.

(** [DELETE FROM job_steps WHERE cond] *)
Definition delete_job_steps (cond : JobStepRow -> bool) : Statement := fun s =>
  let kept := List.filter (fun r => negb (cond r)) (job_steps s) in
  inr ({| changes := Z.of_nat (length (job_steps s)) - Z.of_nat (length kept);
          lastInsertRowid := None |},
       with_job_steps kept (job_steps_seq s) s).

End Schema.
Export Schema.

(* ===================================================================== *)
(** * lib/database.ts: the connection, [executeSql], [transaction] *)
(* ===================================================================== *)

Module Database.

(** The single connection [getDatabase] hands out.  Outside a
    transaction every statement commits at once; after [BEGIN] the
    statements work on [open], which [COMMIT] makes the committed
    database and [ROLLBACK] drops. *)
Record Connection := {
  committed : Store;
  open : option Store
}.

(** What a statement on the connection sees. *)
Definition visible (c : Connection) : Store :=
  match open c with
  | Some s => s
  | None => committed c
  end.

Definition put (s : Store) (c : Connection) : Connection :=
  match open c with
  | Some _ => {| committed := committed c; open := Some s |}
  | None => {| committed := s; open := None |}
  end.

(** The module state: the connection and [let transactionDepth = 0]. *)
Record World := {
  db : Connection;
  transactionDepth : Z
}.

Definition with_db (c : Connection) (w : World) : World :=
  {| db := c; transactionDepth := transactionDepth w |}.

Definition with_depth (d : Z) (w : World) : World :=
  {| db := db w; transactionDepth := d |}.

(** An [async] function over the module state. *)
Definition M (A : Type) : Type := World -> outcome A * World.

Definition ret {A} (a : A) : M A := fun w => (Returns a, w).
Definition throw {A} (e : Error) : M A := fun w => (Throws e, w).
Definition bind {A B} (m : M A) (k : A -> M B) : M B := fun w =>
  match m w with
  | (Returns a, w') => k a w'
  | (Throws e, w') => (Throws e, w')
  end.
(** [try { body } catch (error) { handler }] *)
Definition try_catch {A} (body : M A) (handler : Error -> M A) : M A := fun w =>
  match body w with
  | (Returns a, w') => (Returns a, w')
  | (Throws e, w') => handler e w'
  end.

Declare Scope js_scope.
Delimit Scope js_scope with js.
Notation "'await' x <- m ; k" := (bind m (fun x => k))
  (at level 10, x name, m at level 100, k at level 200) : js_scope.
Notation "'run!' m ; k" := (bind m (fun _ => k))
  (at level 10, m at level 100, k at level 200) : js_scope.
Open Scope js_scope.

(** [db.prepare(sql).run()] for a data-changing statement. *)
Definition run (stmt : Statement) : M RunInfo := fun w =>
  match stmt (visible (db w)) with
  | inl e => (Throws e, w)
  | inr (info, s) => (Returns info, with_db (put s (db w)) w)
  end.

Definition BEGIN : M unit := fun w =>
  match open (db w) with
  | Some _ =>
      (Throws (SqliteError "cannot start a transaction within a transaction"
                           "SQLITE_ERROR"), w)
  | None =>
      (Returns tt,
       with_db {| committed := committed (db w); open := Some (committed (db w)) |} w)
  end.

Definition COMMIT : M unit := fun w =>
  match open (db w) with
  | Some s => (Returns tt, with_db {| committed := s; open := None |} w)
  | None =>
      (Throws (SqliteError "cannot commit - no transaction is active"
                           "SQLITE_ERROR"), w)
  end.

Definition ROLLBACK : M unit := fun w =>
  match open (db w) with
  | Some _ =>
      (Returns tt, with_db {| committed := committed (db w); open := None |} w)
  | None =>
      (Throws (SqliteError "cannot rollback - no transaction is active"
                           "SQLITE_ERROR"), w)
  end.

(** The first element of the array [executeSql] returns for a statement
    that is not a [SELECT]. *)
Record SqlResult := { affectedRows : Z; insertId : option Z }.

Definition unique_violation : Error :=
  mkError "Error" "Unique constraint violation" (Some "UNIQUE_VIOLATION").

(** [executeSql] for [INSERT], [UPDATE] and [DELETE]: run the statement
    and rewrite the error of a uniqueness failure. *)
Definition executeSql (stmt : Statement) : M SqlResult :=
  try_catch
    (await info <- run stmt;
     ret {| affectedRows := changes info; insertId := lastInsertRowid info |})
    (fun error =>
       if includes "UNIQUE constraint failed" (message error)
       then throw unique_violation
       else throw error).

Definition get_depth : M Z := fun w => (Returns (transactionDepth w), w).
Definition set_depth (d : Z) : M unit := fun w => (Returns tt, with_depth d w).

Definition when (b : bool) (m : M unit) : M unit := if b then m else ret tt.

(** [transaction(callback)] *)
Definition transaction {T} (callback : M T) : M T :=
  await d <- get_depth;
  run! when (d =? 0) BEGIN;
  await d <- get_depth;
  run! set_depth (d + 1);
  try_catch
    (await result <- callback;
     await d <- get_depth;
     run! set_depth (d - 1);
     await d <- get_depth;
     run! when (d =? 0) COMMIT;
     ret result)
    (fun error =>
       await d <- get_depth;
       run! set_depth (d - 1);
       await d <- get_depth;
       run! when (d =? 0) ROLLBACK;
       throw error).

(** The wrapper between its suspension points, for callers whose
    transactions interleave: [enter] is what runs before the callback is
    called, [leave COMMIT] what runs once it has returned, and
    [leave ROLLBACK] what runs once it has thrown. *)
Definition enter : M unit :=
  await d <- get_depth;
  run! when (d =? 0) BEGIN;
  await d <- get_depth;
  set_depth (d + 1).

Definition leave (finish : M unit) : M unit :=
  await d <- get_depth;
  run! set_depth (d - 1);
  await d <- get_depth;
  when (d =? 0) finish.

(** [resetDatabase] *)
Definition resetDatabase : M unit := fun w =>
  let s := visible (db w) in
  (Returns tt,
   with_db (put {| campaigns := []; jobs := []; job_steps := [];
                   job_steps_seq := job_steps_seq s |} (db w)) w).

End Database.
Export Database.

(* ===================================================================== *)
(** * lib/orm.ts: [JobStepModel.create] *)
(* ===================================================================== *)

Module Orm.

(** [toSnakeCase] on the keys and [serializeValue] on the values of the
    data: the columns and parameters of the statement. *)
Definition columns (data : JobStepData) : JobStepCols :=
  {| c_id := d_id data;
     c_job_id := d_jobId data;
     c_step_name := cell_map JobStepName.value (d_stepName data);
     c_status := cell_map JobStepStatus.value (d_status data);
     c_output_data := d_outputData data;
     c_started_at := d_startedAt data;
     c_completed_at := d_completedAt data |}.

(** The [SET] clauses of the update branch: every key but [id]. *)
Definition assignments (data : JobStepData) : JobStepAssign :=
  {| a_job_id := d_jobId data;
     a_step_name := cell_map JobStepName.value (d_stepName data);
     a_status := cell_map JobStepStatus.value (d_status data);
     a_output_data := d_outputData data;
     a_started_at := d_startedAt data;
     a_completed_at := d_completedAt data |}.

Definition is_omitted {A} (c : cell A) : bool :=
  match c with Omitted => true | _ => false end.

Definition no_assignment (data : JobStepData) : bool :=
  is_omitted (d_jobId data) && is_omitted (d_stepName data) &&
  is_omitted (d_status data) && is_omitted (d_outputData data) &&
  is_omitted (d_startedAt data) && is_omitted (d_completedAt data).

Definition with_id (i : cell Z) (data : JobStepData) : JobStepData :=
  {| d_id := i; d_jobId := d_jobId data; d_stepName := d_stepName data;
     d_status := d_status data; d_outputData := d_outputData data;
     d_startedAt := d_startedAt data; d_completedAt := d_completedAt data |}.

(** The engine's complaint about [INSERT INTO job_steps () VALUES ()],
    the text built from an object without properties. *)
Definition empty_column_list : Error :=
  SqliteError ("near " +:+ String (ascii_of_nat 34) (")" +:+
               String (ascii_of_nat 34) ": syntax error")) "SQLITE_ERROR".

(** [BaseModel.save] on a [job_steps] instance: an update when the data
    carries a truthy [id], an insert otherwise.  The insert lists the
    properties the data has; with none at all the statement does not
    parse, and [executeSql] re-raises the error of [prepare]. *)
Definition save (now : Z) (data : JobStepData) : M JobStepData :=
  let insert :=
    if is_omitted (d_id data) && no_assignment data
    then throw empty_column_list
    else
      await result <- executeSql (insert_job_step now (columns data));
      ret (with_id (match insertId result with Some i => Val i | None => Null end)
                   data) in
  match d_id data with
  | Val i =>
      if i =? 0 then insert
      else if no_assignment data then ret data
      else
        run! executeSql (update_job_steps (fun r => js_id r =? i) (assignments data));
        ret data
  | _ => insert
  end.

(** [JobStepModel.create(data)] *)
Definition JobStepModel_create (now : Z) (data : JobStepData) : M JobStepData :=
  save now data.

End Orm.
Export Orm.

(* ===================================================================== *)
(** * candidate/solution.ts: the entry points of the queue core *)
(* ===================================================================== *)

Module Solution.

(** Everything the entry points can reach: the database module and the
    mail collaborator. *)
Record Runtime := {
  world : World;
  api : Api
}.

Definition Task (A : Type) : Type := Runtime -> outcome A * Runtime.

Definition WORKER_ID : string := "worker-1".

(** The body of each entry point is [throw new Error('Not implemented')]
    under a [TODO]. *)
Definition not_implemented {A} : Task A :=
  fun rt => (Throws (PlainError "Not implemented"), rt).

Definition claimNextJob : Task (option Job) := not_implemented.

Definition createCampaignJobs (campaignId : Z) (customerEmails : list string)
  : Task Z := not_implemented.


Definition recoverStalledJobs (timeoutSeconds : Z) : Task Z := not_implemented.

(** [Promise.all] over [n] calls of one entry point: each call runs to
    its first suspension point before the next one starts, and the
    bodies above have none. *)
Fixpoint invoke_all {A} (n : nat) (task : Task A) (rt : Runtime)
  : list (outcome A) * Runtime :=
  match n with
  | O => ([], rt)
  | S n' =>
      let '(r, rt1) := task rt in
      let '(rs, rt2) := invoke_all n' task rt1 in
      (r :: rs, rt2)
  end.

(** The jobs a batch of claim calls handed out. *)
Fixpoint claimed (rs : list (outcome (option Job))) : list Job :=
  match rs with
  | [] => []
  | Returns (Some job) :: rest => job :: claimed rest
  | _ :: rest => claimed rest
  end.

End Solution.
Export Solution.

(* ===================================================================== *)
(** * What the design document asks of the entry points *)
(* ===================================================================== *)

Module Design.

(** Claim Protocol: a job is eligible when it is Pending and its
    [scheduledFor] is unset or due. *)
Definition eligible (now : Z) (job : Job) : bool :=
  match status job with
  | JobStatus.Pending =>
      match scheduledFor job with
      | None => true
      | Some t => t <=? now
      end
  | _ => false
  end.

Definition eligible_count (now : Z) (s : Store) : nat :=
  length (List.filter (eligible now) (jobs s)).

(** Stall Recovery: a job is stalled when it is Processing and its
    [lastHeartbeat], or [startedAt] when there is none, is older than the
    timeout. *)
Definition stalled (now timeoutSeconds : Z) (job : Job) : bool :=
  match status job with
  | JobStatus.Processing =>
      match lastHeartbeat job, startedAt job with
      | Some t, _ => t <? now - timeoutSeconds * 1000
      | None, Some t => t <? now - timeoutSeconds * 1000
      | None, None => false
      end
  | _ => false
  end.

(** Bulk Enqueue: the rows of a store that belong to a campaign and are
    in the state new jobs start in. *)
Definition fresh_job (campaign : Z) (job : Job) : bool :=
  (campaignId job =? campaign) &&
  match status job, currentStep job with
  | JobStatus.Pending, JobStepName.SendEmail => retryCount job =? 0
  | _, _ => false
  end.


End Design.
Export Design.

(* ===================================================================== *)
(** * The mail collaborator under interleaved callers *)
(* ===================================================================== *)

Module MailTrace.

Record Call := { to : string; body : string; key : string }.

(** What can happen to the mail module: a caller invokes [sendEmail]; a
    call sleeping in [await sleep(latencyMs)] wakes up and runs to its
    end; somebody calls [setApiConfig] or [resetApis]; time passes (the
    clock never runs backwards). *)
Inductive Event :=
| Invoke (c : Call)
| Wake (i : nat) (rand : Q) (stamp : string)
| Configure (cfg : SendgridConfig)
| ResetApis
| Elapse (ms : N).

Record Sys := {
  mail : Api;
  clock : Z;
  sleeping : list Call;
  returned : list (Call * outcome string)
}.

Definition step (e : Event) (s : Sys) : Sys :=
  match e with
  | Invoke c =>
      match sendEmail_begin (clock s) (to c) (body c) (key c) (mail s) with
      | (Finished r _, st) =>
          {| mail := st; clock := clock s; sleeping := sleeping s;
             returned := returned s ++ [(c, r)] |}
      | (Sleeping _, st) =>
          {| mail := st; clock := clock s; sleeping := sleeping s ++ [c];
             returned := returned s |}
      end
  | Wake i rand stamp =>
      match sleeping s !! i with
      | Some c =>
          let '(r, st) :=
            sendEmail_resume (clock s) rand stamp (to c) (body c) (key c) (mail s) in
          {| mail := st; clock := clock s; sleeping := delete i (sleeping s);
             returned := returned s ++ [(c, r)] |}
      | None => s
      end
  | Configure cfg =>
      {| mail := setApiConfig cfg (mail s); clock := clock s;
         sleeping := sleeping s; returned := returned s |}
  | ResetApis =>
      {| mail := resetApis (mail s); clock := clock s;
         sleeping := sleeping s; returned := returned s |}
  | Elapse ms =>
      {| mail := mail s; clock := clock s + Z.of_N ms;
         sleeping := sleeping s; returned := returned s |}
  end.

Definition run_events (evs : list Event) (s : Sys) : Sys :=
  fold_left (fun acc e => step e acc) evs s.

(** A freshly loaded module: nothing cached, nothing sent, nobody
    calling. *)
Definition boot (cfg : SendgridConfig) (now : Z) : Sys :=
  {| mail := {| config := cfg;
                sendgridLimiter := {| requests := []; idempotencyCache := ∅ |};
                deliveries := [] |};
     clock := now; sleeping := []; returned := [] |}.

Definition is_reset (e : Event) : bool :=
  match e with ResetApis => true | _ => false end.

(** The deliveries made for one idempotency key. *)
Definition deliveries_of (k : string) (st : Api) : list Delivery :=
  List.filter (fun d => String.eqb (sentKey d) k) (deliveries st).

End MailTrace.
Export MailTrace.

(* ===================================================================== *)
(** * The properties stated below *)
(* ===================================================================== *)

Module Properties.

(** ** Mail collaborator *)

(** The error names [sendEmail] can fail with. *)
Definition mail_failure (e : Error) : Prop :=
  name e = "RateLimitError" \/ name e = "InvalidEmailError" \/
  name e = "TimeoutError" \/ name e = "SendGridError".

Definition mail_outcome (r : outcome string) : Prop :=
  match r with
  | Returns _ => True
  | Throws e => mail_failure e
  end.

Definition begun_outcome (b : Begun) : Prop :=
  match b with
  | Finished r _ => mail_outcome r
  | Sleeping _ => True
  end.

(** The validity window of an idempotency key, in milliseconds. *)
Definition window : Z := 24 * 60 * 60 * 1000.

Definition cache (st : Api) : gmap string CacheEntry :=
  idempotencyCache (sendgridLimiter st).

(** Every cache entry holds a truthy message id and stems from a
    delivery made under its key. *)
Definition well_cached (st : Api) : Prop :=
  forall k e, cache st !! k = Some e ->
    truthy (messageId e) = true /\
    exists d, In d (deliveries st) /\ sentKey d = k /\ sentId d = messageId e.

Definition mail_reachable (s : Sys) : Prop :=
  exists cfg now evs, s = run_events evs (boot cfg now).

(** No call still asleep carries the key [k]. *)
Definition none_sleeping_with (k : string) (calls : list Call) : Prop :=
  Forall (fun c => key c <> k) calls.

(** The state a successful send leaves for its key: the entry is
    cached, nobody sleeps on the key, and the deliveries under the key
    are [ds]. *)
Definition settled (k : string) (e : CacheEntry) (ds : list Delivery) (s : Sys)
  : Prop :=
  cache (mail s) !! k = Some e /\
  none_sleeping_with k (sleeping s) /\
  deliveries_of k (mail s) = ds.

(** ** The [job_steps] table *)

Definition row_key (r : JobStepRow) : Z * Z := (js_job_id r, js_step_name r).

Definition unique_keys (s : Store) : Prop :=
  NoDup (List.map row_key (job_steps s)).

(** One successful statement.  Statements on the other two tables can
    do anything to those tables. *)
Inductive store_step : Store -> Store -> Prop :=
| step_insert now c info s s' :
    insert_job_step now c s = inr (info, s') -> store_step s s'
| step_update cond a info s s' :
    update_job_steps cond a s = inr (info, s') -> store_step s s'
| step_delete cond info s s' :
    delete_job_steps cond s = inr (info, s') -> store_step s s'
| step_elsewhere s s' :
    job_steps s' = job_steps s -> store_step s s'.

Definition store_reachable (s : Store) : Prop := rtc store_step empty_store s.

(** ** Transactions *)

(** No transaction is in flight. *)
Definition idle (w : World) : Prop :=
  transactionDepth w = 0 /\ open (db w) = None.

(** Some transaction is in flight. *)
Definition in_transaction (w : World) : Prop :=
  1 <= transactionDepth w /\ is_Some (open (db w)).

(** A callback that leaves transaction control to [transaction]: run
    inside a transaction it returns at the depth it started at, with the
    transaction still open and the committed database untouched. *)
Definition scoped {T} (callback : M T) : Prop :=
  forall w, in_transaction w ->
    transactionDepth (callback w).2 = transactionDepth w /\
    is_Some (open (db (callback w).2)) /\
    committed (db (callback w).2) = committed (db w).

(** The module state with [s] committed and nothing in flight. *)
Definition world_of (s : Store) : World :=
  {| db := {| committed := s; open := None |}; transactionDepth := 0 |}.

(** The world a top-level [transaction] hands to its callback. *)
Definition entered (w : World) : World :=
  {| db := {| committed := committed (db w); open := Some (committed (db w)) |};
     transactionDepth := 1 |}.

End Properties.
Export Properties.

(* ===================================================================== *)
(** * Sample data, as the test harness and the examples set it up *)
(* ===================================================================== *)

Module Samples.

Definition campaign1 : Campaign :=
  {| campaign_id := 1; campaign_name := "Test Campaign"; campaign_userId := 1;
     campaign_status := CampaignStatus.Active; campaign_createdAt := 0 |}.

(** A job as [JobModel.create] makes it in [setupTestData]. *)
Definition pending_job (i : Z) (email : string) : Job :=
  {| id := i; campaignId := 1; customerEmail := email;
     currentStep := JobStepName.SendEmail; status := JobStatus.Pending;
     workerId := None; retryCount := 0; createdAt := 0;
     startedAt := None; completedAt := None; errorMessage := None;
     scheduledFor := None; lastHeartbeat := None |}.

Definition job1 : Job := pending_job 1 "test1@example.com".

(** The same job after a worker claimed it at time 0 and went silent. *)
Definition stalled_job1 : Job :=
  {| id := 1; campaignId := 1; customerEmail := "test1@example.com";
     currentStep := JobStepName.SendEmail; status := JobStatus.Processing;
     workerId := Some "worker-1"; retryCount := 0; createdAt := 0;
     startedAt := Some 0; completedAt := None; errorMessage := None;
     scheduledFor := None; lastHeartbeat := Some 0 |}.

Definition store_with (js : list Job) (rows : list JobStepRow) : Store :=
  {| campaigns := [campaign1]; jobs := js; job_steps := rows;
     job_steps_seq := Z.of_nat (length rows) |}.

(** The ledger row of job 1 for its first step, as example 10 records
    it. *)
Definition ledger1 : JobStepRow :=
  {| js_id := 1; js_job_id := 1; js_step_name := 0; js_status := 2;
     js_output_data := Some "{messageId:msg_123}";
     js_started_at := Some 0; js_completed_at := None |}.

(** The row of its second step. *)
Definition ledger2 : JobStepRow :=
  {| js_id := 2; js_job_id := 1; js_step_name := 1; js_status := 2;
     js_output_data := Some "{messageId:msg_123}";
     js_started_at := Some 0; js_completed_at := None |}.

Definition step_record (job : Z) (step : JobStepName.t) : JobStepData :=
  {| d_id := Omitted; d_jobId := Val job; d_stepName := Val step;
     d_status := Val JobStepStatus.Completed;
     d_outputData := Val "{messageId:msg_123}";
     d_startedAt := Val 0; d_completedAt := Omitted |}.

(** The same record without its status. *)
Definition step_record_no_status (job : Z) (step : JobStepName.t) : JobStepData :=
  {| d_id := Omitted; d_jobId := Val job; d_stepName := Val step;
     d_status := Omitted; d_outputData := Omitted;
     d_startedAt := Omitted; d_completedAt := Omitted |}.

Definition runtime_of (s : Store) : Runtime :=
  {| world := world_of s; api := mail (boot apiConfig 0) |}.

End Samples.
Export Samples.

(* ===================================================================== *)
(** * Characters of strings *)
(* ===================================================================== *)

Module Text.

(** The characters of a string. *)
Fixpoint chars (s : string) : list ascii :=
  match s with
  | EmptyString => []
  | String c rest => c :: chars rest
  end.

Definition is_digit (c : ascii) : bool :=
  (48 <=? N_of_ascii c)%N && (N_of_ascii c <=? 57)%N.

End Text.
Export Text.

(* ===================================================================== *)
(** * Helper functions for candidates: keys and workflow steps *)
(* ===================================================================== *)

Module Workflow.

(** [`${jobId}-${step}`], for a [jobId] that is a row id of the [jobs]
    table: a whole number that a JavaScript number holds exactly (at most
    2^53 in size), which the template prints as its decimal digits, with
    a leading minus sign when negative.  A number of 1e21 or more is
    printed in exponent form ([1e+21]), and a number with a fraction with
    its decimal point; the definition does not follow the code there. *)
Definition generateIdempotencyKey (jobId : Z) (step : string) : string :=
  pretty jobId +:+ "-" +:+ step.

Definition WORKFLOW_STEPS : list string := ["send_email"; "analyze"; "take_action"].

(** [array.indexOf(x)]: the first position that holds [x], or -1. *)
Fixpoint indexOf (x : string) (l : list string) : Z :=
  match l with
  | [] => -1
  | y :: rest =>
      if String.eqb y x then 0
      else let i := indexOf x rest in if i <? 0 then -1 else i + 1
  end.

Definition getNextStep (current : string) : option string :=
  let index := indexOf current WORKFLOW_STEPS in
  if (index >=? 0) && (index <? Z.of_nat (length WORKFLOW_STEPS) - 1)
  then WORKFLOW_STEPS !! Z.to_nat (index + 1)
  else None.

End Workflow.
Export Workflow.

(* ===================================================================== *)
(** * lib/external-apis.ts: the rate limiter over a run of requests *)
(* ===================================================================== *)

Module Limiter.



End Limiter.
Export Limiter.

(* ===================================================================== *)
(** * lib/external-apis.ts: the CRM and the sentiment analyzer *)
(* ===================================================================== *)

Module Collaborators.

(** The [salesforce] and [sentiment] entries of [apiConfig]. *)
Record ServiceConfig := {
  svc_errorRate : Q;
  svc_latencyMs : Z;
  svc_enabled : bool
}.

Definition salesforceConfig : ServiceConfig :=
  {| svc_errorRate := (2 # 100)%Q; svc_latencyMs := 500; svc_enabled := true |}.

Definition sentimentConfig : ServiceConfig :=
  {| svc_errorRate := (1 # 100)%Q; svc_latencyMs := 300; svc_enabled := true |}.

Record SalesforceRecord := {
  Id : string;
  Email : string;
  Name : string;
  Company : string
}.

Definition salesforceRecord (i : nat) : SalesforceRecord :=
  {| Id := "SF" +:+ pretty (1000 + i)%nat;
     Email := "customer" +:+ pretty i +:+ "@example.com";
     Name := "Customer " +:+ pretty i;
     Company := "Company " +:+ pretty i |}.

Definition positiveWords : list string :=
  ["great"; "excellent"; "good"; "love"; "perfect"; "thank"; "yes"].
Definition negativeWords : list string :=
  ["bad"; "terrible"; "hate"; "no"; "poor"; "awful"].

Section Lowercase.

(** [String.prototype.toLowerCase], which the two mocks apply to their
    argument. *)
Variable toLowerCase : string -> string.

(** [fetchSalesforceData]; [rand] is the draw of [Math.random()]. *)
Definition fetchSalesforceData (cfg : ServiceConfig) (rand : Q) (query : string)
  : outcome (list SalesforceRecord) :=
  if negb (svc_enabled cfg)
  then Throws (SalesforceError "Salesforce API is disabled")
  else if Qlt_le_dec rand (svc_errorRate cfg)
  then Throws (SalesforceError "Salesforce query failed")
  else
    let count := if includes "limit" (toLowerCase query) then 10%nat else 100%nat in
    Returns (List.map salesforceRecord (seq 0 count)).

(** The words of a list that occur in the text. *)
Definition occurring (words : list string) (lowerText : string) : list string :=
  List.filter (fun word => includes word lowerText) words.

Definition analyzeSentiment (cfg : ServiceConfig) (rand : Q) (text : string)
  : outcome string :=
  if negb (svc_enabled cfg)
  then Throws (SentimentAPIError "Sentiment API is disabled")
  else if Qlt_le_dec rand (svc_errorRate cfg)
  then Throws (SentimentAPIError "Sentiment analysis failed")
  else
    let lowerText := toLowerCase text in
    let positiveCount := length (occurring positiveWords lowerText) in
    let negativeCount := length (occurring negativeWords lowerText) in
    Returns (if (negativeCount <? positiveCount)%nat then "positive"
             else if (positiveCount <? negativeCount)%nat then "negative"
             else "neutral").

End Lowercase.

End Collaborators.
Export Collaborators.

(* ===================================================================== *)
(** * lib/metrics.ts *)
(* ===================================================================== *)

Module Metrics.

Inductive MetricType := counter | gauge | histogram.

(** A recorded value; the values recorded are whole numbers (counts
    and durations in milliseconds) that a double holds. *)
Record MetricValue := {
  mv_value : Z;
  mv_tags : option (list (string * string));
  mv_timestamp : Z
}.

Record Metric := {
  m_type : MetricType;
  m_values : list MetricValue
}.

(** [MetricsCollector]: its private [metrics] map. *)
Abbreviation MetricsCollector := (gmap string Metric).

(** [record]: the first recording under a name creates the metric with
    the type of that call; every recording appends a value. *)
Definition record (now : Z) (name : string) (type : MetricType) (value : Z)
    (tags : option (list (string * string))) (mc : MetricsCollector)
  : MetricsCollector :=
  let mc1 :=
    match mc !! name with
    | Some _ => mc
    | None => <[name := {| m_type := type; m_values := [] |}]> mc
    end in
  match mc1 !! name with
  | Some metric =>
      <[name := {| m_type := m_type metric;
                   m_values := m_values metric ++
                     [{| mv_value := value; mv_tags := tags; mv_timestamp := now |}] |}]>
        mc1
  | None => mc1
  end.

(** [increment], [gauge], [histogram] and [reset]; the last three under
    other names, theirs being taken by the metric types and by the reset
    of the rate limiter.  [increment] is given its value also when the
    caller leaves it to the default of 1. *)
Definition increment (now : Z) (name : string) (value : Z) tags mc :=
  record now name counter value tags mc.
Definition set_gauge (now : Z) (name : string) (value : Z) tags mc :=
  record now name gauge value tags mc.
Definition observe (now : Z) (name : string) (value : Z) tags mc :=
  record now name histogram value tags mc.

Definition getMetric (name : string) (mc : MetricsCollector) : option Metric :=
  mc !! name.

Definition reset_metrics (mc : MetricsCollector) : MetricsCollector := ∅.

(** ** Arithmetic on numbers

    A JavaScript number is a double.  The values recorded are whole
    numbers that a double holds, and the sum of two of them is the double
    nearest to their exact sum (the one with the even mantissa on a tie),
    again a whole number; up to 2^53 in absolute value nothing is
    rounded.  Sums are taken to stay finite (below 2^1024). *)
Definition nearest_double (z : Z) : Z :=
  let m := Z.abs z in
  let bits := Z.log2 m + 1 in
  if bits <=? 53 then z
  else
    let shift := bits - 53 in
    let q := Z.shiftr m shift in
    let r := Z.land m (Z.ones shift) in
    let half := Z.shiftl 1 (shift - 1) in
    let q' := if (half <? r) || ((r =? half) && Z.odd q) then q + 1 else q in
    Z.sgn z * Z.shiftl q' shift.

(** [a + b] *)
Definition plus_number (a b : Z) : Z := nearest_double (a + b).

(** [m / 2^e] as a fraction of whole numbers. *)
Definition numerator_at (m e : Z) : Z := if 0 <=? e then m else m * 2 ^ (- e).
Definition denominator_at (b e : Z) : Z := if 0 <=? e then b * 2 ^ e else b.

(** [a / b] for a whole number [a] and a count [b] of at least 1: the
    double nearest to the exact quotient, with 53 significant bits. *)
Definition divide (a b : Z) : Q :=
  if a =? 0 then 0%Q
  else
    let m := Z.abs a in
    let e0 := Z.log2 m - Z.log2 b in
    let e := if denominator_at b e0 <=? numerator_at m e0 then e0 else e0 - 1 in
    let k := e - 52 in
    let n := numerator_at m k in
    let d := denominator_at b k in
    let q := n / d in
    let r := n mod d in
    let q' := if (d <? 2 * r) || ((2 * r =? d) && Z.odd q) then q + 1 else q in
    if 0 <=? k then inject_Z (Z.sgn a * q' * 2 ^ k)
    else (Z.sgn a * q' # Z.to_pos (2 ^ (- k)))%Q.

(** The sum of the absolute values: a bound on every partial sum. *)
Definition magnitude (vs : list Z) : Z :=
  fold_right (fun v total => Z.abs v + total) 0 vs.

Record Summary := {
  s_count : nat;
  s_sum : Z;
  s_avg : Q;
  s_min : Z;
  s_max : Z;
  s_p50 : Z;
  s_p95 : Z;
  s_p99 : Z
}.

(** [values[i]], for an index within the array. *)
Definition at_index (values : list Z) (i : nat) : Z := nth i values 0.

(** [getSummary].  The comparison function [(a, b) => a - b] sorts by
    value.  The sum is taken over the sorted values, from 0, each addition
    rounded.  The index [Math.floor(n * 0.95)] is the integer part of
    95 n / 100: the rounding of the product cannot carry it across a
    whole number for any length an array can have; likewise for 0.5 and
    0.99. *)
Definition getSummary (name : string) (mc : MetricsCollector) : option Summary :=
  match mc !! name with
  | None => None
  | Some metric =>
      match m_values metric with
      | [] => None
      | _ =>
          let values := merge_sort Z.le (List.map mv_value (m_values metric)) in
          let n := length values in
          let sum := fold_left plus_number values 0 in
          Some {| s_count := n;
                  s_sum := sum;
                  s_avg := divide sum (Z.of_nat n);
                  s_min := at_index values 0;
                  s_max := at_index values (n - 1);
                  s_p50 := at_index values (n * 50 / 100);
                  s_p95 := at_index values (n * 95 / 100);
                  s_p99 := at_index values (n * 99 / 100) |}
      end
  end.

(** What [print] shows for a counter, the values added up in the order
    they were recorded, and for a gauge. *)
Definition counter_total (metric : Metric) : Z :=
  fold_left (fun a b => plus_number a (mv_value b)) (m_values metric) 0.

Definition gauge_latest (metric : Metric) : option Z :=
  mv_value <$> last (m_values metric).

(** How many of [vs] are at most [x], and how many at least [x]. *)
Definition at_most (x : Z) (vs : list Z) : nat :=
  length (List.filter (fun v => v <=? x) vs).
Definition at_least (x : Z) (vs : list Z) : nat :=
  length (List.filter (fun v => x <=? v) vs).

(** The calls a program makes on the collector, each with the reading of
    [Date.now()] at the call. *)
Inductive MetricCall :=
| CallRecord (now : Z) (name : string) (type : MetricType) (value : Z)
             (tags : option (list (string * string)))
| CallReset.

Definition call (c : MetricCall) (mc : MetricsCollector) : MetricsCollector :=
  match c with
  | CallRecord now name counter value tags => increment now name value tags mc
  | CallRecord now name gauge value tags => set_gauge now name value tags mc
  | CallRecord now name histogram value tags => observe now name value tags mc
  | CallReset => reset_metrics mc
  end.

Definition calls (cs : list MetricCall) (mc : MetricsCollector) : MetricsCollector :=
  fold_left (fun m c => call c m) cs mc.

(** The recordings made under [name] since the last reset, oldest first,
    each with the kind of the method that made it; [acc] holds those seen
    so far. *)
Fixpoint recordings (name : string) (acc : list (MetricType * Z))
    (cs : list MetricCall) : list (MetricType * Z) :=
  match cs with
  | [] => acc
  | CallRecord _ n type value _ :: rest =>
      recordings name (if String.eqb n name then acc ++ [(type, value)] else acc) rest
  | CallReset :: rest => recordings name [] rest
  end.

End Metrics.
Export Metrics.

(* ===================================================================== *)
(** * lib/orm.ts: naming conventions and row conversion *)
(* ===================================================================== *)

Module Naming.

Definition is_upper (c : ascii) : bool :=
  (65 <=? N_of_ascii c)%N && (N_of_ascii c <=? 90)%N.
Definition is_lower (c : ascii) : bool :=
  (97 <=? N_of_ascii c)%N && (N_of_ascii c <=? 122)%N.
Definition to_lower (c : ascii) : ascii := ascii_of_N (N_of_ascii c + 32).
Definition to_upper (c : ascii) : ascii := ascii_of_N (N_of_ascii c - 32).

(** [str.replace(/[A-Z]/g, letter => `_${letter.toLowerCase()}`)] *)
Fixpoint toSnakeCase (str : string) : string :=
  match str with
  | EmptyString => EmptyString
  | String c rest =>
      if is_upper c then String "_"%char (String (to_lower c) (toSnakeCase rest))
      else String c (toSnakeCase rest)
  end.

(** [str.replace(/_([a-z])/g, (_, letter) => letter.toUpperCase())] *)
Fixpoint toCamelCase (str : string) : string :=
  match str with
  | EmptyString => EmptyString
  | String c tail =>
      if Ascii.eqb c "_"%char then
        match tail with
        | String letter rest =>
            if is_lower letter then String (to_upper letter) (toCamelCase rest)
            else String c (toCamelCase tail)
        | EmptyString => String c EmptyString
        end
      else String c (toCamelCase tail)
  end.

(** Whether a text holds a capital letter, and whether it holds an
    underscore directly followed by a small letter. *)
Fixpoint has_upper (str : string) : bool :=
  match str with
  | EmptyString => false
  | String c rest => is_upper c || has_upper rest
  end.

Fixpoint count_upper (str : string) : nat :=
  match str with
  | EmptyString => 0
  | String c rest => (if is_upper c then 1 else 0) + count_upper rest
  end.

Fixpoint has_snake_pair (str : string) : bool :=
  match str with
  | EmptyString => false
  | String c tail =>
      match tail with
      | String letter _ => Ascii.eqb c "_"%char && is_lower letter
      | EmptyString => false
      end || has_snake_pair tail
  end.

(** A value as a table stores it, and as the ORM hands it out.  [JsDate]
    stands for [new Date(value)], [JsParsed] for the result of
    [JSON.parse] and [JsBuffer] for the [Buffer] of a blob. *)
Inductive SqlValue :=
| SqlNull
| SqlInteger (n : Z)
| SqlReal (x : Q)
| SqlText (s : string)
| SqlBlob (bytes : list ascii).

Inductive JsValue :=
| JsNull
| JsNumber (n : Z)
| JsFraction (x : Q)
| JsString (s : string)
| JsBuffer (bytes : list ascii)
| JsDate (source : SqlValue)
| JsParsed (json : string)
| JsEmptyObject.

Definition truthy_value (v : SqlValue) : bool :=
  match v with
  | SqlNull => false
  | SqlInteger n => negb (n =? 0)
  | SqlReal x => negb (Qeq_bool x 0)
  | SqlText s => truthy s
  | SqlBlob _ => true
  end.

Definition plain (v : SqlValue) : JsValue :=
  match v with
  | SqlNull => JsNull
  | SqlInteger n => JsNumber n
  | SqlReal x => JsFraction x
  | SqlText s => JsString s
  | SqlBlob bytes => JsBuffer bytes
  end.

Definition is_date (v : JsValue) : bool :=
  match v with JsDate _ => true | _ => false end.

(** [result[key] = value] on an object kept as the list of its
    properties in insertion order (no property name is an array index):
    a property that exists keeps its place and takes the new value. *)
Fixpoint set_property {A} (key : string) (value : A)
    (result : list (string * A)) : list (string * A) :=
  match result with
  | [] => [(key, value)]
  | (k, v) :: rest =>
      if String.eqb k key then (k, value) :: rest
      else (k, v) :: set_property key value rest
  end.

(** [object[key]] *)
Fixpoint get_property {A} (key : string) (object : list (string * A)) : option A :=
  match object with
  | [] => None
  | (k, v) :: rest => if String.eqb k key then Some v else get_property key rest
  end.

Section Json.

(** Whether [JSON.parse] accepts a text. *)
Variable parses : string -> bool.

(** One property of the object [deserializeRow] builds. *)
Definition deserializeCell (key : string) (value : SqlValue) : JsValue :=
  if includes "_at" key || String.eqb key "scheduled_for"
  then (if truthy_value value then JsDate value else JsNull)
  else
    match value with
    | SqlText s =>
        if String.eqb key "output_data"
        then (if parses s then JsParsed s else JsEmptyObject)
        else JsString s
    | other => plain other
    end.

(** [deserializeRow]: the loop over [Object.entries(row)]. *)
Definition deserializeRow (row : list (string * SqlValue)) : list (string * JsValue) :=
  fold_left
    (fun result kv => set_property (toCamelCase kv.1) (deserializeCell kv.1 kv.2) result)
    row [].

End Json.

(** The columns of [jobs], as [setup.ts] declares them. *)
Definition jobs_columns : list string :=
  ["id"; "campaign_id"; "customer_email"; "current_step"; "status"; "worker_id";
   "retry_count"; "created_at"; "started_at"; "completed_at"; "error_message";
   "scheduled_for"; "last_heartbeat"].

(** The fields of the [Job] interface, in the same order. *)
Definition job_fields : list string :=
  ["id"; "campaignId"; "customerEmail"; "currentStep"; "status"; "workerId";
   "retryCount"; "createdAt"; "startedAt"; "completedAt"; "errorMessage";
   "scheduledFor"; "lastHeartbeat"].

End Naming.
Export Naming.


(* ===================================================================== *)
(** * lib/orm.ts: deleting a record *)
(* ===================================================================== *)

Module Removal.

(** [BaseModel.delete] on a [job_steps] instance. *)
Definition BaseModel_delete (data : JobStepData) : M unit :=
  let refuse := throw (PlainError "Cannot delete record without id") in
  match d_id data with
  | Val i =>
      if i =? 0 then refuse
      else
        run! executeSql (delete_job_steps (fun r => js_id r =? i));
        ret tt
  | _ => refuse
  end.

(** SQLite's complaint about a [COMMIT] with no transaction open. *)
Definition commit_refused : Error :=
  SqliteError "cannot commit - no transaction is active" "SQLITE_ERROR".

End Removal.
Export Removal.

(* ===================================================================== *)
(** * lib/orm.ts: the query builder *)
(* ===================================================================== *)

Module Query.

(** A value handed to the builder as a condition or as a new field
    value.  An object is kept as the text [JSON.stringify] gives for it,
    a [Date] as its time in milliseconds. *)
Inductive Value :=
| VUndefined
| VNull
| VNumber (n : Z)
| VString (s : string)
| VDate (ms : Z)
| VObject (json : string).

Inductive Direction := ASC | DESC.

Definition direction_text (d : Direction) : string :=
  match d with ASC => "ASC" | DESC => "DESC" end.

(** The private fields of a [QuerySet]. *)
Record QuerySet := {
  qs_table : string;
  qs_conditions : list (string * Value);
  orderByField : option string;
  orderDirection : Direction;
  limitCount : option Z
}.

(** [new QuerySet(table)] *)
Definition new_QuerySet (table : string) : QuerySet :=
  {| qs_table := table; qs_conditions := []; orderByField := None;
     orderDirection := ASC; limitCount := None |}.

(** [{ ...first, ...second }] *)
Definition spread {A} (first second : list (string * A)) : list (string * A) :=
  fold_left (fun result kv => set_property kv.1 kv.2 result) (first ++ second) [].

(** The builder methods change the query set and return it. *)
Definition filter (conditions : list (string * Value)) (q : QuerySet) : QuerySet :=
  {| qs_table := qs_table q;
     qs_conditions := spread (qs_conditions q) conditions;
     orderByField := orderByField q; orderDirection := orderDirection q;
     limitCount := limitCount q |}.

Definition orderBy (field : string) (direction : Direction) (q : QuerySet) : QuerySet :=
  {| qs_table := qs_table q; qs_conditions := qs_conditions q;
     orderByField := Some field; orderDirection := direction;
     limitCount := limitCount q |}.

Definition limit (n : Z) (q : QuerySet) : QuerySet :=
  {| qs_table := qs_table q; qs_conditions := qs_conditions q;
     orderByField := orderByField q; orderDirection := orderDirection q;
     limitCount := Some n |}.

(** [array.join(separator)] *)
Fixpoint join (separator : string) (parts : list string) : string :=
  match parts with
  | [] => ""
  | [part] => part
  | part :: rest => part +:+ separator +:+ join separator rest
  end.

(** How often a character occurs in a text. *)
Fixpoint count_char (c : ascii) (text : string) : nat :=
  match text with
  | EmptyString => 0
  | String d rest => (if Ascii.eqb d c then 1 else 0) + count_char c rest
  end.

Definition newline : string := String (ascii_of_nat 10) EmptyString.

Section Serialize.

(** [Date.prototype.toISOString] *)
Variable toISOString : Z -> string.

Definition serializeValue (value : Value) : Value :=
  match value with
  | VDate ms => VString (toISOString ms)
  | VObject json => VString json
  | other => other
  end.

(** The loop both [buildWhere] and [update] run over the entries of an
    object: a [column = ?] text and a parameter for each. *)
Definition placeholders (entries : list (string * Value)) : list string :=
  List.map (fun kv => toSnakeCase kv.1 +:+ " = ?") entries.

Definition parameters (entries : list (string * Value)) : list Value :=
  List.map (fun kv => serializeValue kv.2) entries.

(** [buildWhere] *)
Definition buildWhere (q : QuerySet) : string * list Value :=
  let conditions := placeholders (qs_conditions q) in
  ((if (0 <? length conditions)%nat
    then "WHERE " +:+ join " AND " conditions else ""),
   parameters (qs_conditions q)).

(** [all], up to the call of [executeSql]: the query text and its
    parameters. *)
Definition all_query (q : QuerySet) : string * list Value :=
  let whereClause := buildWhere q in
  let query := "SELECT * FROM " +:+ qs_table q +:+ " " +:+ whereClause.1 in
  let query :=
    match orderByField q with
    | Some field =>
        query +:+ " ORDER BY " +:+ toSnakeCase field +:+ " " +:+
        direction_text (orderDirection q)
    | None => query
    end in
  let query :=
    match limitCount q with
    | Some n => if n =? 0 then query else query +:+ " LIMIT " +:+ pretty n
    | None => query
    end in
  (query, whereClause.2).

(** [first] sets the limit of the query set to 1 and runs [all]: the
    query it issues, and the query set it leaves. *)
Definition first_query (q : QuerySet) : (string * list Value) * QuerySet :=
  let q := limit 1 q in
  (all_query q, q).

(** [count], up to the call of [executeSql]. *)
Definition count_query (q : QuerySet) : string * list Value :=
  let whereClause := buildWhere q in
  ("SELECT COUNT(*) as count FROM " +:+ qs_table q +:+ " " +:+ whereClause.1, whereClause.2).

(** [update(values)], up to the call of [executeSql]; [None] when there
    is no field to update and the method returns 0 at once. *)
Definition update_query (values : list (string * Value)) (q : QuerySet)
  : option (string * list Value) :=
  let whereClause := buildWhere q in
  let setClauses := placeholders values in
  let params := parameters values in
  if (length setClauses =? 0)%nat then None
  else
    Some (newline +:+ "      UPDATE " +:+ qs_table q +:+
          newline +:+ "      SET " +:+ join ", " setClauses +:+
          newline +:+ "      " +:+ whereClause.1 +:+
          newline +:+ "    ",
          (params ++ whereClause.2)%list).

End Serialize.

(** The same query set with every condition value replaced. *)
Definition with_values (f : Value -> Value) (q : QuerySet) : QuerySet :=
  {| qs_table := qs_table q;
     qs_conditions := List.map (fun kv => (kv.1, f kv.2)) (qs_conditions q);
     orderByField := orderByField q; orderDirection := orderDirection q;
     limitCount := limitCount q |}.

(** The builder calls a program can chain on a query set. *)
Inductive BuilderCall :=
| CallFilter (conditions : list (string * Value))
| CallOrderBy (field : string) (direction : Direction)
| CallLimit (n : Z)
| CallFirst.

Definition builder_call (c : BuilderCall) (q : QuerySet) : QuerySet :=
  match c with
  | CallFilter conditions => filter conditions q
  | CallOrderBy field direction => orderBy field direction q
  | CallLimit n => limit n q
  | CallFirst => limit 1 q
  end.

Definition chained (cs : list BuilderCall) (q : QuerySet) : QuerySet :=
  fold_left (fun q c => builder_call c q) cs q.

End Query.

(* ===================================================================== *)
(** * examples.ts, example 11: claiming a job inside a transaction *)
(* ===================================================================== *)

Module Claiming.

Definition with_jobs (rows : list Job) (s : Store) : Store :=
  {| campaigns := campaigns s; jobs := rows; job_steps := job_steps s;
     job_steps_seq := job_steps_seq s |}.

(** ** The order of the engine on stored values

    Null comes first, then the numbers by value, then the texts and then
    the blobs, each byte by byte. *)
Definition sql_rank (v : SqlValue) : Z :=
  match v with
  | SqlNull => 0
  | SqlInteger _ | SqlReal _ => 1
  | SqlText _ => 2
  | SqlBlob _ => 3
  end.

Definition sql_number (v : SqlValue) : Q :=
  match v with
  | SqlInteger n => inject_Z n
  | SqlReal x => x
  | _ => 0%Q
  end.

Definition sql_before (a b : SqlValue) : bool :=
  if sql_rank a <? sql_rank b then true
  else if sql_rank b <? sql_rank a then false
  else
    match a, b with
    | SqlNull, _ => false
    | SqlText s, SqlText t => String.ltb s t
    | SqlBlob x, SqlBlob y =>
        String.ltb (String.string_of_list_ascii x) (String.string_of_list_ascii y)
    | _, _ => negb (Qle_bool (sql_number b) (sql_number a))
    end.

Section Column.

(** What the [created_at] column holds for a row.  The [Job] record
    keeps the time alone; the column holds it as text, as
    [CURRENT_TIMESTAMP] writes it ([2024-01-01 10:00:00]) or as the ORM
    serialises a [Date] ([2024-01-01T10:00:00.000Z]), or whatever else a
    statement stored there, and the engine orders by what is stored. *)
Variable created_at_column : Job -> SqlValue.

(** The order of [ORDER BY created_at ASC] on the rows of one status: the
    index on (status, created_at) lists rows of equal value by row id. *)
Definition earlier (a b : Job) : bool :=
  sql_before (created_at_column a) (created_at_column b) ||
  (negb (sql_before (created_at_column b) (created_at_column a)) &&
   (id a <? id b)).

Fixpoint earliest (best : option Job) (rows : list Job) : option Job :=
  match rows with
  | [] => best
  | row :: rest =>
      earliest (match best with
                | Some b => if earlier row b then Some row else Some b
                | None => Some row
                end) rest
  end.

Definition is_pending (j : Job) : bool :=
  JobStatus.value (status j) =? JobStatus.value JobStatus.Pending.

(** [JobModel.filter({ status: JobStatus.Pending }).orderBy('createdAt',
    'ASC').first()]: the row that
    [SELECT * FROM jobs WHERE status = ? ORDER BY created_at ASC LIMIT 1]
    yields, or null. *)
Definition first_pending : M (option Job) := fun w =>
  (Returns (earliest None (List.filter is_pending (jobs (visible (db w))))), w).

(** The row after [SET status = ?, worker_id = ?] with the status
    Processing. *)
Definition claim_row (worker : string) (j : Job) : Job :=
  {| id := id j; campaignId := campaignId j; customerEmail := customerEmail j;
     currentStep := currentStep j; status := JobStatus.Processing;
     workerId := Some worker; retryCount := retryCount j;
     createdAt := createdAt j; startedAt := startedAt j;
     completedAt := completedAt j; errorMessage := errorMessage j;
     scheduledFor := scheduledFor j; lastHeartbeat := lastHeartbeat j |}.

(** [UPDATE jobs SET status = ?, worker_id = ? WHERE id = ?] *)
Definition update_claim (jobId : Z) (worker : string) : Statement := fun s =>
  let hit := fun j => id j =? jobId in
  inr ({| changes := Z.of_nat (length (List.filter hit (jobs s)));
          lastInsertRowid := None |},
       with_jobs (List.map (fun j => if hit j then claim_row worker j else j) (jobs s))
                 s).

(** The callback of [claimJob] from the answer of [first()] on. *)
Definition claim_found (worker : string) (job : option Job) : M (option Job) :=
  match job with
  | Some j =>
      run! executeSql (update_claim (id j) worker);
      ret (Some j)
  | None => ret None
  end.

(** [claimJob(workerId)] *)
Definition claimJob (worker : string) : M (option Job) :=
  transaction
    (await job <- first_pending;
     claim_found worker job).

(** ** Callers that start together

    [Promise.all([claimJob('worker-1'), claimJob('worker-2'), ...])]
    starts every call in turn, and each runs up to its first suspension:
    through the entry of [transaction] and the [SELECT] of [first()].
    The calls then go on in steps between which the others may run: the
    update of the job found, and the exit of [transaction]. *)
Inductive Progress :=
| Found (job : option Job)
| Updated (r : outcome (option Job))
| Settled (r : outcome (option Job)).

Record Race := {
  race_world : World;
  race_calls : list (string * Progress)
}.

Inductive RaceEvent :=
| Start (worker : string)
| Update (worker : string)
| Finish (worker : string).

Definition is_start (e : RaceEvent) : bool :=
  match e with Start _ => true | _ => false end.

(** What [transaction] does once its callback has settled. *)
Definition settle {T} (r : outcome T) : M T :=
  try_catch
    (match r with
     | Returns result => run! leave COMMIT; ret result
     | Throws error => throw error
     end)
    (fun error => run! leave ROLLBACK; throw error).

Definition race_step (e : RaceEvent) (st : Race) : Race :=
  match e with
  | Start worker =>
      match get_property worker (race_calls st) with
      | Some _ => st
      | None =>
          match (run! enter; first_pending) (race_world st) with
          | (Returns job, w) =>
              {| race_world := w;
                 race_calls := set_property worker (Found job) (race_calls st) |}
          | (Throws error, w) =>
              {| race_world := w;
                 race_calls :=
                   set_property worker (Settled (Throws error)) (race_calls st) |}
          end
      end
  | Update worker =>
      match get_property worker (race_calls st) with
      | Some (Found job) =>
          let '(r, w) := claim_found worker job (race_world st) in
          {| race_world := w;
             race_calls := set_property worker (Updated r) (race_calls st) |}
      | _ => st
      end
  | Finish worker =>
      match get_property worker (race_calls st) with
      | Some (Updated r) =>
          let '(r', w) := settle r (race_world st) in
          {| race_world := w;
             race_calls := set_property worker (Settled r') (race_calls st) |}
      | _ => st
      end
  end.

Definition race (events : list RaceEvent) (st : Race) : Race :=
  fold_left (fun st e => race_step e st) events st.

Definition race_from (w : World) : Race :=
  {| race_world := w; race_calls := [] |}.

(** The database with the rows of id [jobId] claimed by [worker]. *)
Definition claimed_by (worker : string) (jobId : Z) (s : Store) : Store :=
  with_jobs
    (List.map (fun j => if id j =? jobId then claim_row worker j else j) (jobs s)) s.

(** ** What holds while callers race *)

Definition is_settled (p : Progress) : bool :=
  match p with Settled _ => true | _ => false end.

(** The calls that have not left [transaction] yet. *)
Definition in_flight (calls : list (string * Progress)) : nat :=
  length (List.filter (fun kv => negb (is_settled kv.2)) calls).

(** The row the callers find in the database [s0]. *)
Definition found_in (s0 : Store) : option Job :=
  earliest None (List.filter is_pending (jobs s0)).

(** [s] is [s0], or [s0] with the job found claimed by some caller. *)
Definition touched (s0 s : Store) : Prop :=
  s = s0 \/
  exists worker j, found_in s0 = Some j /\ s = claimed_by worker (id j) s0.

(** A call has got, or will return, the job found in [s0]. *)
Definition agreeing (s0 : Store) (p : Progress) : Prop :=
  p = Found (found_in s0) \/ p = Updated (Returns (found_in s0)) \/
  p = Settled (Returns (found_in s0)).

Definition race_inv (s0 : Store) (workers : list string) (st : Race) : Prop :=
  List.map fst (race_calls st) = workers /\
  (forall worker p, get_property worker (race_calls st) = Some p -> agreeing s0 p) /\
  transactionDepth (race_world st) = Z.of_nat (in_flight (race_calls st)) /\
  (if (in_flight (race_calls st) =? 0)%nat
   then open (db (race_world st)) = None /\
        touched s0 (committed (db (race_world st)))
   else committed (db (race_world st)) = s0 /\
        exists s, open (db (race_world st)) = Some s /\ touched s0 s).

(** The race once the callers [workers] have started, in this order, on
    an idle connection over [s0]. *)
Definition started (s0 : Store) (workers : list string) : Race :=
  {| race_world :=
       match workers with
       | [] => world_of s0
       | _ => {| db := {| committed := s0; open := Some s0 |};
                 transactionDepth := Z.of_nat (length workers) |}
       end;
     race_calls := List.map (fun worker => (worker, Found (found_in s0))) workers |}.

End Column.

End Claiming.
Export Claiming.
(* ===================================================================== *)
(** * Failure classification *)
(* ===================================================================== *)

Section Classification.

Lemma isTransientError_spec (e : Error) :
  isTransientError e = true <->
  name e = "RateLimitError" \/ name e = "TimeoutError".
Proof.
  unfold isTransientError.
  rewrite orb_true_iff, !String.eqb_eq. reflexivity.
Qed.

Lemma isPermanentError_spec (e : Error) :
  isPermanentError e = true <-> name e = "InvalidEmailError".
Proof. unfold isPermanentError. apply String.eqb_eq. Qed.

Lemma classes_disjoint (e : Error) :
  isTransientError e = true -> isPermanentError e = true -> False.
Proof.
  rewrite isTransientError_spec, isPermanentError_spec.
  intros [H | H] H'; rewrite H in H'; discriminate.
Qed.

End Classification.

(** C6, as stated, fails: the collaborators raise errors that are in
    neither class.  With the shipped configuration and a draw of 0.04 the
    mail mock ends in the base [SendGridError], which [isTransientError]
    and [isPermanentError] both reject; so they do the errors of the CRM
    and of the sentiment analyzer. *)
Lemma internal_error_is_unclassified :
  (exists e st,
     sendEmail 0 (4 # 100) "1_abc" "customer@example.com" "Hello" "7-send_email"
               (mail (boot apiConfig 0)) = (Throws e, st) /\
     isTransientError e = false /\ isPermanentError e = false) /\
  isTransientError (SalesforceError "Salesforce query failed") = false /\
  isPermanentError (SalesforceError "Salesforce query failed") = false /\
  isTransientError (SentimentAPIError "Sentiment analysis failed") = false /\
  isPermanentError (SentimentAPIError "Sentiment analysis failed") = false.
Proof.
  split; [| by repeat split].
  eexists _, _. split; [vm_compute; reflexivity |].
  split; reflexivity.
Qed.

(** C6, amended: [isTransientError e] holds exactly when the name of [e]
    is RateLimitError or TimeoutError, [isPermanentError e] exactly when
    it is InvalidEmailError; no error is in both classes, and an error is
    in neither exactly when its name is none of the three. *)
Theorem classification_by_name (e : Error) :
  (isTransientError e = true <->
     name e = "RateLimitError" \/ name e = "TimeoutError") /\
  (isPermanentError e = true <-> name e = "InvalidEmailError") /\
  ~ (isTransientError e = true /\ isPermanentError e = true) /\
  (isTransientError e = false /\ isPermanentError e = false <->
     name e <> "RateLimitError" /\ name e <> "TimeoutError" /\
     name e <> "InvalidEmailError").
Proof.
  split; [apply isTransientError_spec |].
  split; [apply isPermanentError_spec |].
  split; [intros [Ht Hp]; exact (classes_disjoint e Ht Hp) |].
  unfold isTransientError, isPermanentError.
  rewrite orb_false_iff, !String.eqb_neq. tauto.
Qed.

(* ===================================================================== *)
(** * The mail collaborator *)
(* ===================================================================== *)

Section Mail.

Implicit Types (st : Api) (rl : RateLimiter) (k : string).

Lemma with_limiter_same st : with_limiter (sendgridLimiter st) st = st.
Proof. by destruct st. Qed.

Lemma generateMessageId_truthy stamp : truthy (generateMessageId stamp) = true.
Proof. reflexivity. Qed.

Lemma checkIdempotency_hit now k rl e :
  idempotencyCache rl !! k = Some e ->
  now - timestamp e < window ->
  checkIdempotency now k rl = (Some (messageId e), rl).
Proof.
  intros Hk Hw. unfold checkIdempotency. rewrite Hk.
  unfold window in Hw.
  destruct (Z.ltb_spec (now - timestamp e) (24 * 60 * 60 * 1000)); [done | lia].
Qed.

Lemma checkIdempotency_frame now k rl :
  requests (checkIdempotency now k rl).2 = requests rl /\
  (idempotencyCache (checkIdempotency now k rl).2 = idempotencyCache rl \/
   idempotencyCache (checkIdempotency now k rl).2 = delete k (idempotencyCache rl)).
Proof.
  unfold checkIdempotency.
  destruct (idempotencyCache rl !! k) as [e|]; [| by auto].
  destruct (now - timestamp e <? 24 * 60 * 60 * 1000); simpl; auto.
Qed.

Lemma sendEmail_begin_frame now to body k st :
  config (sendEmail_begin now to body k st).2 = config st /\
  deliveries (sendEmail_begin now to body k st).2 = deliveries st /\
  (cache (sendEmail_begin now to body k st).2 = cache st \/
   cache (sendEmail_begin now to body k st).2 = delete k (cache st)).
Proof.
  unfold sendEmail_begin, cache.
  destruct (enabled (config st)); simpl; [| by auto].
  pose proof (checkIdempotency_frame now k (sendgridLimiter st)) as [_ Hc].
  destruct (checkIdempotency now k (sendgridLimiter st)) as [[mid|] rl];
    simpl in *; [destruct (truthy mid) |]; simpl; auto.
Qed.

(** A fresh cache entry answers the call before anything else is looked
    at, and nothing in the module changes. *)
Lemma sendEmail_begin_cached now to body k st e :
  enabled (config st) = true ->
  cache st !! k = Some e ->
  now - timestamp e < window ->
  truthy (messageId e) = true ->
  sendEmail_begin now to body k st = (Finished (Returns (messageId e)) 50, st).
Proof.
  intros Hen Hk Hw Ht. unfold sendEmail_begin. rewrite Hen. simpl.
  rewrite (checkIdempotency_hit _ _ _ _ Hk Hw), Ht.
  by rewrite with_limiter_same.
Qed.

Lemma sendEmail_begin_outcome now to body k st r d st' :
  sendEmail_begin now to body k st = (Finished r d, st') -> mail_outcome r.
Proof.
  unfold sendEmail_begin.
  destruct (enabled (config st)); simpl.
  - destruct (checkIdempotency now k (sendgridLimiter st)) as [[mid|] rl];
      [destruct (truthy mid) |]; intros H; inversion H; exact I.
  - intros H; inversion H. simpl. unfold mail_failure. simpl. tauto.
Qed.

Lemma checkRateLimit_cache now limit rl :
  idempotencyCache (checkRateLimit now limit rl).2 = idempotencyCache rl.
Proof.
  unfold checkRateLimit.
  by destruct (_ >=? limit).
Qed.

(** The second phase either fails and leaves cache and deliveries alone,
    or succeeds: then it returns a fresh id, caches it under the key with
    the current time, and records one delivery. *)
Lemma sendEmail_resume_cases now rand stamp to body k st :
  let r := sendEmail_resume now rand stamp to body k st in
  config r.2 = config st /\
  ((exists e, r.1 = Throws e /\ mail_failure e /\
              cache r.2 = cache st /\ deliveries r.2 = deliveries st) \/
   (r.1 = Returns (generateMessageId stamp) /\
    cache r.2 = <[k := {| messageId := generateMessageId stamp;
                          timestamp := now |}]> (cache st) /\
    deliveries r.2 =
      (deliveries st ++
       [{| sentTo := to; sentKey := k; sentId := generateMessageId stamp |}])%list)).
Proof.
  unfold sendEmail_resume, cache, mail_failure.
  destruct (negb (includes "@" to) || negb (includes "." to)).
  { simpl. split; [done |]. left. eexists. simpl. split; [done |]. tauto. }
  pose proof (checkRateLimit_cache now (rateLimitPerSecond (config st))
                (sendgridLimiter st)) as Hc.
  destruct (checkRateLimit now (rateLimitPerSecond (config st)) (sendgridLimiter st))
    as [allowed rl]. simpl in Hc.
  destruct allowed; simpl.
  2: { split; [done |]. left. eexists. simpl. split; [done |]. tauto. }
  repeat (destruct (Qlt_le_dec _ _);
          [ simpl; split; [done |]; left; eexists; simpl;
            split; [done |]; tauto | ]).
  simpl. split; [done |]. right. by rewrite Hc.
Qed.

Lemma sendEmail_resume_outcome now rand stamp to body k st :
  mail_outcome (sendEmail_resume now rand stamp to body k st).1.
Proof.
  destruct (sendEmail_resume_cases now rand stamp to body k st) as [_ [H | H]].
  - destruct H as (e & -> & He & _). exact He.
  - destruct H as [-> _]. exact I.
Qed.

End Mail.

(** C8, as stated, fails: with the shipped configuration, a valid
    address, an unused key and a draw of 0.04, [sendEmail] raises the base
    [SendGridError] (its internal error), which is none of RateLimit,
    InvalidAddress and Timeout. *)
Lemma sendEmail_raises_internal_error :
  exists e st,
    sendEmail 0 (4 # 100) "1_abc" "customer@example.com" "Hello" "idempotency-key-123"
              (mail (boot apiConfig 0)) = (Throws e, st) /\
    name e = "SendGridError" /\
    name e <> "RateLimitError" /\ name e <> "InvalidEmailError" /\
    name e <> "TimeoutError".
Proof.
  eexists _, _. split; [vm_compute; reflexivity |].
  simpl. repeat split; discriminate.
Qed.

(** C8, amended: every call of [sendEmail] either returns a message id or
    fails with one of four error kinds: RateLimit, InvalidAddress, Timeout
    or the base SendGridError (API disabled, internal error).  This holds
    for a call run on its own and for each phase of a call interleaved
    with others. *)
Theorem sendEmail_failure_kinds now rand stamp to body k st :
  mail_outcome (sendEmail now rand stamp to body k st).1 /\
  begun_outcome (sendEmail_begin now to body k st).1 /\
  mail_outcome (sendEmail_resume now rand stamp to body k st).1.
Proof.
  assert (begun_outcome (sendEmail_begin now to body k st).1) as Hbegin.
  { destruct (sendEmail_begin now to body k st) as [[r d | d] st1] eqn:Hb; simpl.
    - eapply sendEmail_begin_outcome, Hb.
    - exact I. }
  split; [| split].
  - unfold sendEmail.
    destruct (sendEmail_begin now to body k st) as [[r d | d] st1]; simpl in *.
    + exact Hbegin.
    + apply sendEmail_resume_outcome.
  - exact Hbegin.
  - apply sendEmail_resume_outcome.
Qed.

(* ===================================================================== *)
(** * Idempotency keys across interleaved calls *)
(* ===================================================================== *)

Section MailInvariants.

Implicit Types (s : Sys) (st : Api) (k : string) (e : CacheEntry).

Lemma run_events_cons ev evs s :
  run_events (ev :: evs) s = run_events evs (step ev s).
Proof. reflexivity. Qed.

Lemma run_events_invariant (P : Sys -> Prop) :
  (forall ev s, P s -> P (step ev s)) ->
  forall evs s, P s -> P (run_events evs s).
Proof.
  intros Hstep evs. induction evs as [| ev evs IH]; intros s Hs; [exact Hs |].
  rewrite run_events_cons. apply IH, Hstep, Hs.
Qed.

Lemma step_clock ev s : clock s <= clock (step ev s).
Proof.
  destruct ev as [c | i rand stamp | cfg | | ms]; simpl; try lia.
  - by destruct (sendEmail_begin _ _ _ _ _) as [[r d | d] st'].
  - destruct (sleeping s !! i) as [c|]; [| lia].
    by destruct (sendEmail_resume _ _ _ _ _ _ _).
Qed.

Lemma run_events_clock evs s : clock s <= clock (run_events evs s).
Proof.
  revert s. induction evs as [| ev evs IH]; intros s; [simpl; lia |].
  rewrite run_events_cons. pose proof (step_clock ev s). specialize (IH (step ev s)). lia.
Qed.

Lemma well_cached_step ev s : well_cached (mail s) -> well_cached (mail (step ev s)).
Proof.
  intros Hwc. destruct ev as [c | i rand stamp | cfg | | ms]; simpl; try exact Hwc.
  - pose proof (sendEmail_begin_frame (clock s) (to c) (body c) (key c) (mail s))
      as (_ & Hd & Hc).
    destruct (sendEmail_begin _ _ _ _ _) as [[r d | d] st']; simpl in *;
      intros k e Hk; unfold well_cached in Hwc; rewrite Hd;
      (destruct Hc as [Hc | Hc]; rewrite Hc in Hk;
       [ exact (Hwc k e Hk)
       | apply lookup_delete_Some in Hk as [_ Hk]; exact (Hwc k e Hk) ]).
  - destruct (sleeping s !! i) as [c|]; [| exact Hwc].
    pose proof (sendEmail_resume_cases (clock s) rand stamp (to c) (body c) (key c)
                  (mail s)) as [_ Hcases].
    destruct (sendEmail_resume _ _ _ _ _ _ _) as [r st']. simpl in *.
    intros k e Hk. destruct Hcases as [(err & _ & _ & Hc & Hd) | (_ & Hc & Hd)].
    + rewrite Hd. rewrite Hc in Hk. exact (Hwc k e Hk).
    + rewrite Hc in Hk. rewrite Hd.
      destruct (decide (key c = k)) as [<- | Hne].
      * rewrite lookup_insert_eq in Hk. inversion Hk; subst e. simpl.
        split; [reflexivity |]. eexists. split; [apply in_or_app; right; left; reflexivity |].
        by simpl.
      * rewrite lookup_insert_ne in Hk by exact Hne.
        destruct (Hwc k e Hk) as [Ht (d & Hin & Hdk & Hdi)].
        split; [exact Ht |]. exists d. split; [apply in_or_app; by left | by split].
  - intros k e Hk. unfold cache in Hk. simpl in Hk. by rewrite lookup_empty in Hk.
Qed.

Lemma well_cached_reachable s : mail_reachable s -> well_cached (mail s).
Proof.
  intros (cfg & now & evs & ->).
  apply (run_events_invariant (fun s => well_cached (mail s))).
  - apply well_cached_step.
  - intros k e Hk. unfold cache in Hk. simpl in Hk. by rewrite lookup_empty in Hk.
Qed.

(** One event keeps a settled key settled, as long as it is no reset and
    the window is still open afterwards. *)
Lemma settled_step k e ds ev s :
  truthy (messageId e) = true ->
  is_reset ev = false ->
  clock (step ev s) - timestamp e < window ->
  settled k e ds s -> settled k e ds (step ev s).
Proof.
  intros Ht Hev Hw (Hk & Hsl & Hds).
  pose proof (step_clock ev s) as Hmono.
  destruct ev as [c | i rand stamp | cfg | | ms]; simpl in *; try discriminate.
  - (* a caller invokes sendEmail *)
    destruct (decide (key c = k)) as [Heq | Hne].
    + (* with the settled key: answered from the cache or refused *)
      destruct (enabled (config (mail s))) eqn:Hen.
      * rewrite Heq.
        rewrite (sendEmail_begin_cached _ _ _ _ _ e Hen Hk) by (done || lia).
        by repeat split.
      * unfold sendEmail_begin. rewrite Hen. simpl. by repeat split.
    + pose proof (sendEmail_begin_frame (clock s) (to c) (body c) (key c) (mail s))
        as (_ & Hd & Hc).
      assert (cache (sendEmail_begin (clock s) (to c) (body c) (key c) (mail s)).2
                !! k = Some e) as Hk'.
      { destruct Hc as [-> | ->]; [done |]. by rewrite lookup_delete_ne. }
      assert (deliveries_of k
                (sendEmail_begin (clock s) (to c) (body c) (key c) (mail s)).2 = ds)
        as Hds'.
      { unfold deliveries_of in *. by rewrite Hd. }
      destruct (sendEmail_begin _ _ _ _ _) as [[r d | d] st']; simpl in *;
        repeat split; try done.
      apply Forall_app. split; [done |]. by apply Forall_singleton.
  - (* a sleeping call wakes up *)
    destruct (sleeping s !! i) as [c|] eqn:Hi; [| by repeat split].
    assert (key c <> k) as Hne.
    { eapply (Forall_lookup_1 _ _ _ _ Hsl Hi). }
    pose proof (sendEmail_resume_cases (clock s) rand stamp (to c) (body c) (key c)
                  (mail s)) as [_ Hcases].
    destruct (sendEmail_resume _ _ _ _ _ _ _) as [r st']. simpl in *.
    unfold settled. simpl. split; [| split].
    + destruct Hcases as [(err & _ & _ & -> & _) | (_ & -> & _)]; [done |].
      by rewrite lookup_insert_ne.
    + by apply Forall_delete.
    + unfold deliveries_of in *.
      destruct Hcases as [(err & _ & _ & _ & ->) | (_ & _ & ->)]; [done |].
      rewrite List.filter_app. simpl.
      destruct (String.eqb_spec (key c) k) as [Heq | _]; [done |].
      by rewrite app_nil_r.
  - by repeat split.
  - by repeat split.
Qed.

Lemma settled_run k e ds evs s :
  truthy (messageId e) = true ->
  Forall (fun ev => is_reset ev = false) evs ->
  clock (run_events evs s) - timestamp e < window ->
  settled k e ds s -> settled k e ds (run_events evs s).
Proof.
  intros Ht Hevs. revert s.
  induction Hevs as [| ev evs Hev Hevs IH]; intros s Hw Hs; [exact Hs |].
  rewrite run_events_cons in *.
  apply IH; [exact Hw |].
  apply settled_step; try done.
  pose proof (run_events_clock evs (step ev s)). lia.
Qed.

End MailInvariants.

(** C10, as stated, fails: the switch [apiConfig.sendgrid.enabled] is
    read before the cache.  Here a send succeeds and caches its id at time
    200; the API is then disabled; a second later the same key, well
    inside its window, is refused with a [SendGridError] instead of being
    answered from the cache. *)
Lemma cached_key_refused_when_disabled :
  let c := {| to := "customer@example.com"; body := "Hello"; key := "7-send_email" |} in
  let off := {| rateLimitPerSecond := 500; errorRate := 5 # 100;
                latencyMs := 200; enabled := false |} in
  let s := run_events [Invoke c; Elapse 200; Wake 0 (1 # 2) "200_abc";
                       Configure off; Elapse 1000] (boot apiConfig 0) in
  returned s = [(c, Returns "msg_200_abc")] /\
  cache (mail s) !! "7-send_email" =
    Some {| messageId := "msg_200_abc"; timestamp := 200 |} /\
  clock s - 200 < window /\
  sendEmail (clock s) (1 # 2) "1200_xyz" (to c) (body c) (key c) (mail s) =
    (Throws (SendGridError "SendGrid API is disabled"), mail s).
Proof. vm_compute. repeat split. Qed.

(** C10, amended: while the API is enabled, a key cached by a successful
    send less than 24 hours ago short-circuits [sendEmail] before address
    validation, rate limiting and error injection: for every address and
    body the call returns the cached message id after the 50 ms delay and
    changes nothing, whatever the address, the request history and the
    random draw are. *)
Theorem cached_key_short_circuits s k e toAddr bodyText :
  mail_reachable s ->
  enabled (config (mail s)) = true ->
  cache (mail s) !! k = Some e ->
  clock s - timestamp e < window ->
  (exists d, In d (deliveries (mail s)) /\ sentKey d = k /\ sentId d = messageId e) /\
  sendEmail_begin (clock s) toAddr bodyText k (mail s) =
    (Finished (Returns (messageId e)) 50, mail s) /\
  (forall rand stamp,
     sendEmail (clock s) rand stamp toAddr bodyText k (mail s) =
       (Returns (messageId e), mail s)).
Proof.
  intros Hreach Hen Hk Hw.
  destruct (well_cached_reachable s Hreach k e Hk) as [Ht Hd].
  pose proof (sendEmail_begin_cached (clock s) toAddr bodyText k (mail s) e
                Hen Hk Hw Ht) as Hb.
  split; [exact Hd |]. split; [exact Hb |].
  intros rand stamp. unfold sendEmail. by rewrite Hb.
Qed.

(** The theorem at work: one request per second is allowed and has just
    been used, the address is malformed, and the cached key is answered
    all the same. *)
Lemma cached_key_short_circuits_witness :
  let c := {| to := "customer@example.com"; body := "Hello"; key := "7-send_email" |} in
  let tight := {| rateLimitPerSecond := 1; errorRate := 5 # 100;
                  latencyMs := 200; enabled := true |} in
  let s := run_events [Invoke c; Elapse 200; Wake 0 (1 # 2) "200_abc"; Elapse 10]
                      (boot tight 0) in
  sendEmail_begin (clock s) "not-an-email" "Hello again" "7-send_email" (mail s) =
    (Finished (Returns "msg_200_abc") 50, mail s).
Proof.
  intros c tight s.
  refine (proj1 (proj2 (cached_key_short_circuits s "7-send_email"
            {| messageId := "msg_200_abc"; timestamp := 200 |}
            "not-an-email" "Hello again" _ _ _ _))).
  - exists tight, 0, [Invoke c; Elapse 200; Wake 0 (1 # 2) "200_abc"; Elapse 10].
    reflexivity.
  - vm_compute. reflexivity.
  - vm_compute. reflexivity.
  - vm_compute. reflexivity.
Defined.

(** C7, as stated, fails in three ways.
    (1) The API is disabled after the first send: the later call with the
        same key is refused instead of returning the first id.
    (2) [resetApis] empties the cache: the later call delivers again under
        a new id.
    (3) Two calls with the same key overlap: both miss the cache before
        either fills it, both deliver, and a later call returns the second
        id, not the first. *)
Lemma same_key_not_always_one_delivery :
  let c := {| to := "customer@example.com"; body := "Hello"; key := "7-send_email" |} in
  let off := {| rateLimitPerSecond := 500; errorRate := 5 # 100;
                latencyMs := 200; enabled := false |} in
  let first := [Invoke c; Elapse 200; Wake 0 (1 # 2) "200_abc"; Elapse 1000] in
  let s1 := run_events (first ++ [Configure off; Invoke c]) (boot apiConfig 0) in
  let s2 := run_events (first ++ [ResetApis; Invoke c; Elapse 200;
                                  Wake 0 (1 # 2) "1400_def"]) (boot apiConfig 0) in
  let s3 := run_events [Invoke c; Invoke c; Elapse 200; Wake 0 (1 # 2) "200_abc";
                        Wake 0 (1 # 2) "200_def"; Elapse 1000; Invoke c]
                       (boot apiConfig 0) in
  List.map snd (returned s1) =
    [Returns "msg_200_abc"; Throws (SendGridError "SendGrid API is disabled")] /\
  List.map snd (returned s2) = [Returns "msg_200_abc"; Returns "msg_1400_def"] /\
  List.map sentId (deliveries_of "7-send_email" (mail s2)) =
    ["msg_200_abc"; "msg_1400_def"] /\
  List.map snd (returned s3) =
    [Returns "msg_200_abc"; Returns "msg_200_def"; Returns "msg_200_def"] /\
  List.map sentId (deliveries_of "7-send_email" (mail s3)) =
    ["msg_200_abc"; "msg_200_def"] /\
  clock s1 < window /\ clock s2 < window /\ clock s3 < window.
Proof. vm_compute. repeat split. Qed.

(** C7, amended: let a [sendEmail] call with key [k] succeed and return
    [m] while no other call with [k] is still asleep.  Then, whatever calls
    start or finish, whatever configuration is set and however time passes
    afterwards (short of [resetApis]), as long as less than 24 hours have
    gone by: no further delivery is made under [k], and every call with [k]
    made while the API is enabled returns the same [m] and changes
    nothing. *)
Theorem same_key_same_message s i c rand stamp m evs :
  sleeping s !! i = Some c ->
  (sendEmail_resume (clock s) rand stamp (to c) (body c) (key c) (mail s)).1
    = Returns m ->
  none_sleeping_with (key c) (delete i (sleeping s)) ->
  Forall (fun ev => is_reset ev = false) evs ->
  clock (run_events evs (step (Wake i rand stamp) s)) - clock s < window ->
  let s1 := step (Wake i rand stamp) s in
  let s2 := run_events evs s1 in
  deliveries_of (key c) (mail s2) = deliveries_of (key c) (mail s1) /\
  (enabled (config (mail s2)) = true ->
   forall toAddr bodyText,
     sendEmail_begin (clock s2) toAddr bodyText (key c) (mail s2) =
       (Finished (Returns m) 50, mail s2) /\
     forall rand' stamp',
       sendEmail (clock s2) rand' stamp' toAddr bodyText (key c) (mail s2) =
         (Returns m, mail s2)).
Proof.
  intros Hi Hok Hsl Hevs Hw s1 s2.
  set (e := {| messageId := m; timestamp := clock s |}).
  assert (truthy m = true /\ cache (mail s1) !! key c = Some e /\
          sleeping s1 = delete i (sleeping s)) as (Ht & Hk & Hs1).
  { subst s1. simpl. rewrite Hi.
    pose proof (sendEmail_resume_cases (clock s) rand stamp (to c) (body c) (key c)
                  (mail s)) as [_ Hcases].
    destruct (sendEmail_resume _ _ _ _ _ _ _) as [r st']. simpl in *. subst r.
    destruct Hcases as [(err & Herr & _) | (Hm & Hc & _)]; [discriminate |].
    inversion Hm; subst m. split; [reflexivity |]. split; [| reflexivity].
    rewrite Hc. apply lookup_insert_eq. }
  assert (settled (key c) e (deliveries_of (key c) (mail s1)) s2) as (Hk2 & _ & Hd2).
  { apply settled_run; try done.
    repeat split; [exact Hk | by rewrite Hs1]. }
  split; [exact Hd2 |].
  intros Hen toAddr bodyText.
  pose proof (sendEmail_begin_cached (clock s2) toAddr bodyText (key c) (mail s2) e
                Hen Hk2 Hw Ht) as Hb.
  split; [exact Hb |].
  intros rand' stamp'. unfold sendEmail. by rewrite Hb.
Qed.

(** The theorem at work: a send under the key succeeds at time 200; other
    callers come and go, the configuration is replaced, two hours pass;
    the key still answers with the first id, even for a malformed
    address. *)
Lemma same_key_same_message_witness :
  let c := {| to := "customer@example.com"; body := "Hello"; key := "7-send_email" |} in
  let other := {| to := "other@example.com"; body := "Hi"; key := "8-send_email" |} in
  let tight := {| rateLimitPerSecond := 1; errorRate := 5 # 100;
                  latencyMs := 10; enabled := true |} in
  let s := run_events [Invoke c; Elapse 200] (boot apiConfig 0) in
  let evs := [Invoke other; Invoke c; Elapse 200; Wake 0 (1 # 2) "400_def";
              Configure tight; Elapse 7200000] in
  let s2 := run_events evs (step (Wake 0 (1 # 2) "200_abc") s) in
  deliveries_of "7-send_email" (mail s2) =
    [{| sentTo := "customer@example.com"; sentKey := "7-send_email";
        sentId := "msg_200_abc" |}] /\
  sendEmail_begin (clock s2) "not-an-email" "Hello again" "7-send_email" (mail s2) =
    (Finished (Returns "msg_200_abc") 50, mail s2).
Proof.
  intros c other tight s evs s2.
  assert (sleeping s !! 0%nat = Some c) as Hi by (vm_compute; reflexivity).
  assert ((sendEmail_resume (clock s) (1 # 2) "200_abc" (to c) (body c) (key c)
             (mail s)).1 = Returns "msg_200_abc") as Hok by (vm_compute; reflexivity).
  assert (none_sleeping_with (key c) (delete 0%nat (sleeping s))) as Hsl
    by (vm_compute; constructor).
  assert (Forall (fun ev => is_reset ev = false) evs) as Hevs
    by (repeat constructor).
  assert (clock (run_events evs (step (Wake 0 (1 # 2) "200_abc") s)) - clock s < window)
    as Hw by (vm_compute; reflexivity).
  destruct (same_key_same_message s 0 c (1 # 2) "200_abc" "msg_200_abc" evs
              Hi Hok Hsl Hevs Hw) as [Hd Hcall].
  split.
  - etransitivity; [exact Hd |]. vm_compute. reflexivity.
  - refine (proj1 (Hcall _ "not-an-email" "Hello again")). vm_compute. reflexivity.
Defined.

(* ===================================================================== *)
(** * The uniqueness constraint of [job_steps] *)
(* ===================================================================== *)

Section JobSteps.

Implicit Types (s : Store) (r : JobStepRow) (rows : list JobStepRow).

Lemma key_taken_false j n rows :
  key_taken j n rows = false <-> (j, n) ∉ List.map row_key rows.
Proof.
  induction rows as [| r rows IH]; simpl.
  - split; [intros _; apply not_elem_of_nil | done].
  - rewrite orb_false_iff, IH, not_elem_of_cons. unfold same_key, row_key.
    rewrite andb_false_iff, !Z.eqb_neq. split.
    + intros [Hne Hnot]. split; [| exact Hnot].
      intros Heq. inversion Heq. destruct Hne; congruence.
    + intros [Hne Hnot]. split; [| exact Hnot].
      destruct (decide (js_job_id r = j)) as [Hj |]; [| tauto].
      right. intros Hn. apply Hne. congruence.
Qed.

Lemma map_row_key_app rows rows' :
  List.map row_key (rows ++ rows') =
  (List.map row_key rows ++ List.map row_key rows')%list.
Proof. apply List.map_app. Qed.

(** A successful insert appends one row whose key was free. *)
Lemma insert_job_step_ok now c info s s' :
  insert_job_step now c s = inr (info, s') ->
  exists r, job_steps s' = (job_steps s ++ [r])%list /\
            key_taken (js_job_id r) (js_step_name r) (job_steps s) = false.
Proof.
  unfold insert_job_step.
  destruct (c_job_id c) as [| | j]; try discriminate.
  destruct (c_step_name c) as [| | n]; try discriminate.
  destruct (c_status c) as [| | st]; try discriminate.
  destruct (id_taken _ _); [discriminate |].
  destruct (key_taken j n (job_steps s)) eqn:Hkey; [discriminate |].
  destruct (negb (job_exists j s)); [discriminate |].
  intros [= <- <-]. eexists. split; [reflexivity | exact Hkey].
Qed.

Lemma unique_keys_insert now c info s s' :
  insert_job_step now c s = inr (info, s') -> unique_keys s -> unique_keys s'.
Proof.
  intros Hins Hs. destruct (insert_job_step_ok _ _ _ _ _ Hins) as (r & Hrows & Hfree).
  unfold unique_keys in *. rewrite Hrows, map_row_key_app. simpl.
  apply NoDup_app. split; [exact Hs |]. split; [| apply NoDup_singleton].
  intros x Hx Hx'. apply list_elem_of_singleton in Hx'. subst x.
  by apply key_taken_false in Hfree.
Qed.

(** The pass of an update keeps the keys of the whole table distinct. *)
Lemma update_rows_unique cond a todo :
  forall done rows n,
    update_rows cond a done todo = inr (rows, n) ->
    NoDup (List.map row_key (done ++ todo)) ->
    NoDup (List.map row_key rows).
Proof.
  induction todo as [| r rest IH]; intros done rows n; simpl.
  - intros [= <- _]. by rewrite app_nil_r.
  - intros Hup Hnd.
    assert (NoDup (List.map row_key (done ++ rest))) as Hrest.
    { rewrite map_row_key_app in *. simpl in Hnd.
      apply NoDup_app in Hnd as (Hd & Hx & Hr). apply NoDup_cons in Hr as [_ Hr].
      apply NoDup_app. split; [exact Hd |]. split; [| exact Hr].
      intros x Hin Hin'. apply (Hx x Hin). by right. }
    destruct (cond r).
    + destruct (assign_row a r) as [e | r']; [discriminate |].
      destruct (key_taken (js_job_id r') (js_step_name r') (done ++ rest)) eqn:Hkey;
        [discriminate |].
      destruct (update_rows cond a (done ++ [r']) rest) as [e | [rows' n']] eqn:Hrec;
        [discriminate |].
      injection Hup as <- _. eapply IH; [exact Hrec |].
      apply key_taken_false in Hkey.
      rewrite <- app_assoc. simpl. rewrite map_row_key_app in *. simpl.
      apply NoDup_app in Hrest as (Hd & Hx & Hr).
      rewrite not_elem_of_app in Hkey. destruct Hkey as [Hk1 Hk2].
      apply NoDup_app. split; [exact Hd |]. split.
      * intros x Hin Hin'. apply elem_of_cons in Hin' as [-> | Hin'];
          [by apply Hk1 | by apply (Hx x)].
      * apply NoDup_cons. by split.
    + eapply IH; [exact Hup |]. by rewrite <- app_assoc.
Qed.

Lemma unique_keys_update cond a info s s' :
  update_job_steps cond a s = inr (info, s') -> unique_keys s -> unique_keys s'.
Proof.
  unfold update_job_steps, unique_keys. intros Hup Hs.
  destruct (update_rows cond a [] (job_steps s)) as [e | [rows n]] eqn:Hrows;
    [discriminate |].
  destruct (match a_job_id a with Val j => _ | _ => false end); [discriminate |].
  injection Hup as _ <-. simpl.
  eapply update_rows_unique; [exact Hrows | exact Hs].
Qed.

Lemma unique_keys_filter (keep : JobStepRow -> bool) rows :
  NoDup (List.map row_key rows) ->
  NoDup (List.map row_key (List.filter keep rows)).
Proof.
  induction rows as [| r rows IH]; simpl; [done |].
  intros Hnd. apply NoDup_cons in Hnd as [Hr Hnd].
  destruct (keep r); simpl; [| by apply IH].
  apply NoDup_cons. split; [| by apply IH].
  intros Hin. apply Hr. clear -Hin.
  induction rows as [| r' rows IH]; simpl in *; [done |].
  destruct (keep r'); simpl in *.
  - apply elem_of_cons in Hin as [-> | Hin]; [by left | right; by apply IH].
  - right. by apply IH.
Qed.

Lemma unique_keys_delete cond info s s' :
  delete_job_steps cond s = inr (info, s') -> unique_keys s -> unique_keys s'.
Proof.
  unfold delete_job_steps, unique_keys. intros [= _ <-] Hs. simpl.
  by apply unique_keys_filter.
Qed.

Lemma unique_keys_step s s' : store_step s s' -> unique_keys s -> unique_keys s'.
Proof.
  intros [now c info s1 s2 H | cond a info s1 s2 H | cond info s1 s2 H | s1 s2 H].
  - eapply unique_keys_insert, H.
  - eapply unique_keys_update, H.
  - eapply unique_keys_delete, H.
  - unfold unique_keys. by rewrite H.
Qed.

Lemma unique_keys_reachable s : store_reachable s -> unique_keys s.
Proof.
  unfold store_reachable. intros Hr.
  remember empty_store as s0 eqn:E.
  assert (unique_keys s0) as H0 by (subst s0; apply NoDup_nil_2).
  clear E. induction Hr as [s1 | s1 s2 s3 Hstep _ IH]; [exact H0 |].
  apply IH. eapply unique_keys_step; [exact Hstep | exact H0].
Qed.

(** An insert whose key is taken fails; the message names a uniqueness
    failure as soon as the row supplies its status. *)
Lemma insert_job_step_clash now c j n s :
  c_job_id c = Val j -> c_step_name c = Val n ->
  key_taken j n (job_steps s) = true ->
  exists e, insert_job_step now c s = inl e /\
    (forall st, c_status c = Val st ->
                includes "UNIQUE constraint failed" (message e) = true).
Proof.
  intros Hj Hn Hkey. unfold insert_job_step. rewrite Hj, Hn, Hkey.
  destruct (c_status c) as [| | st].
  - eexists. split; [reflexivity |]. intros st' [=].
  - eexists. split; [reflexivity |]. intros st' [=].
  - destruct (id_taken _ _); eexists; (split; [reflexivity |]); intros _ _; reflexivity.
Qed.

Lemma executeSql_failure stmt w e :
  stmt (visible (db w)) = inl e ->
  executeSql stmt w =
    (Throws (if includes "UNIQUE constraint failed" (message e)
             then unique_violation else e), w).
Proof.
  intros H. unfold executeSql, try_catch, bind, run. rewrite H.
  by destruct (includes _ _).
Qed.

Lemma executeSql_success stmt w info s :
  stmt (visible (db w)) = inr (info, s) ->
  executeSql stmt w =
    (Returns {| affectedRows := changes info; insertId := lastInsertRowid info |},
     with_db (put s (db w)) w).
Proof. intros H. unfold executeSql, try_catch, bind, run. by rewrite H. Qed.

End JobSteps.

(** C5, as stated, fails: job 1 already has its ledger row for the first
    step, and [JobStepModel.create] is handed a second record for the same
    (job, step) that lacks a status.  The engine checks [NOT NULL] before
    the [UNIQUE] index, so the error is a NOT NULL failure, and
    [executeSql] re-raises it as it is: its code is not
    [UNIQUE_VIOLATION]. *)
Lemma duplicate_step_without_status :
  let w := world_of (store_with [job1] [ledger1]) in
  key_taken 1 0 (job_steps (visible (db w))) = true /\
  exists e,
    JobStepModel_create 5 (step_record_no_status 1 JobStepName.SendEmail) w
      = (Throws e, w) /\
    message e = "NOT NULL constraint failed: job_steps.status" /\
    code e = Some "SQLITE_CONSTRAINT_NOTNULL" /\
    code e <> Some "UNIQUE_VIOLATION".
Proof.
  split; [reflexivity |]. eexists. split; [vm_compute; reflexivity |].
  simpl. repeat split. discriminate.
Qed.

(** C5, amended: in every reachable state of the store there is at most
    one [job_steps] row per (job_id, step_name) pair; an insert of a second
    row with the same pair fails and leaves the database as it was; and
    when that row supplies its status (the remaining [NOT NULL] column),
    the failure is a uniqueness violation, which [executeSql] surfaces as
    the error with code [UNIQUE_VIOLATION]. *)
Theorem job_steps_one_row_per_step :
  (forall s, store_reachable s -> unique_keys s) /\
  (forall w now c j n,
     c_job_id c = Val j -> c_step_name c = Val n ->
     key_taken j n (job_steps (visible (db w))) = true ->
     exists e,
       executeSql (insert_job_step now c) w = (Throws e, w) /\
       (forall st, c_status c = Val st ->
          e = unique_violation /\ code e = Some "UNIQUE_VIOLATION")).
Proof.
  split; [exact unique_keys_reachable |].
  intros w now c j n Hj Hn Hkey.
  destruct (insert_job_step_clash now c j n _ Hj Hn Hkey) as (e & Hfail & Hmsg).
  eexists. split; [exact (executeSql_failure _ _ _ Hfail) |].
  intros st Hst. by rewrite (Hmsg st Hst).
Qed.

(** The theorem at work: a store built by the statements of the model has
    distinct keys, and the complete ledger record of job 1, inserted a
    second time, is refused with [UNIQUE_VIOLATION]. *)
Lemma job_steps_one_row_per_step_witness :
  let s := store_with [job1] [ledger1] in
  unique_keys s /\
  executeSql (insert_job_step 5 (columns (step_record 1 JobStepName.SendEmail)))
             (world_of s) = (Throws unique_violation, world_of s).
Proof.
  intros s. destruct job_steps_one_row_per_step as [Hinv Hclash]. split.
  - apply Hinv.
    eapply rtc_l; [apply (step_elsewhere empty_store (store_with [job1] [])); reflexivity |].
    eapply rtc_l; [| apply rtc_refl].
    eapply (step_insert 0 (columns (step_record 1 JobStepName.SendEmail))).
    vm_compute. reflexivity.
  - destruct (Hclash (world_of s) 5 (columns (step_record 1 JobStepName.SendEmail)) 1 0
                eq_refl eq_refl eq_refl) as (e & Hrun & He).
    destruct (He 2 eq_refl) as [-> _]. exact Hrun.
Defined.

(* ===================================================================== *)
(** * The transaction wrapper *)
(* ===================================================================== *)

Section Transactions.

Context {T : Type}.
Implicit Types (w : World) (callback : M T).

Lemma idle_world_of w : idle w -> w = world_of (committed (db w)).
Proof. destruct w as [[cm op] d]. intros [Hd Ho]. simpl in *. by subst. Qed.

Lemma in_transaction_entered w : in_transaction (entered w).
Proof. split; simpl; [lia | by eexists]. Qed.

Lemma in_transaction_deeper w :
  in_transaction w -> in_transaction (with_depth (transactionDepth w + 1) w).
Proof. intros [Hd Ho]. split; simpl; [lia | exact Ho]. Qed.

(** Entered with nothing in flight, [transaction] begins, runs the
    callback at depth 1, and then commits what the callback left or
    rolls back to what was committed before. *)
Lemma transaction_outermost callback w :
  scoped callback -> idle w ->
  transaction callback w =
    match callback (entered w) with
    | (Returns result, w') => (Returns result, world_of (visible (db w')))
    | (Throws error, w') => (Throws error, w)
    end.
Proof.
  intros Hsc Hidle.
  destruct (Hsc (entered w) (in_transaction_entered w)) as (Hd & [s' Ho] & Hc).
  destruct w as [[cm op] d]. destruct Hidle as [Hd0 Ho0]. simpl in Hd0, Ho0. subst d op.
  unfold transaction, bind, try_catch, get_depth, set_depth, when, BEGIN, COMMIT,
    ROLLBACK, ret, throw, with_depth, with_db. simpl.
  unfold entered in *. simpl in *.
  destruct (callback _) as [[result | error] [[cm' op'] d']]; simpl in *; subst.
  - replace (1 - 1 =? 0) with true by reflexivity. reflexivity.
  - replace (1 - 1 =? 0) with true by reflexivity. reflexivity.
Qed.

(** Entered while a transaction is in flight, [transaction] issues no
    statement of its own: it runs the callback one level deeper and
    hands its outcome on. *)
Lemma transaction_inner callback w :
  scoped callback -> in_transaction w ->
  transaction callback w =
    ((callback (with_depth (transactionDepth w + 1) w)).1,
     with_depth (transactionDepth w)
                (callback (with_depth (transactionDepth w + 1) w)).2).
Proof.
  intros Hsc Hin.
  destruct (Hsc _ (in_transaction_deeper w Hin)) as (Hd & _ & _).
  destruct Hin as [Hge _].
  unfold transaction, bind, try_catch, get_depth, set_depth, when, ret, throw.
  simpl.
  destruct (Z.eqb_spec (transactionDepth w) 0) as [? | _]; [lia |]. simpl.
  destruct (callback _) as [[result | error] w']; simpl in *; rewrite Hd;
    replace (transactionDepth w + 1 - 1) with (transactionDepth w) by lia;
    (destruct (Z.eqb_spec (transactionDepth w) 0) as [? | _]; [lia |]);
    reflexivity.
Qed.

(** [transaction] is its three phases around the callback. *)
Lemma transaction_phases callback w :
  transaction callback w =
    (run! enter;
     try_catch
       (await result <- callback; run! leave COMMIT; ret result)
       (fun error => run! leave ROLLBACK; throw error))%js w.
Proof.
  unfold transaction, enter, leave, bind, try_catch, get_depth, set_depth, when.
  destruct (transactionDepth w =? 0); [| reflexivity].
  by destruct (BEGIN w) as [[[] | e] w'].
Qed.

End Transactions.

Section Scoped.

Lemma scoped_ret {A} (a : A) : scoped (ret a).
Proof. intros w [Hd Ho]. by repeat split. Qed.

Lemma scoped_throw {A} (e : Error) : scoped (@throw A e).
Proof. intros w [Hd Ho]. by repeat split. Qed.

Lemma scoped_next {A} (m : M A) w :
  scoped m -> in_transaction w -> in_transaction (m w).2.
Proof.
  intros Hm Hin. destruct (Hm w Hin) as (Hd & Ho & _).
  destruct Hin as [Hge _]. split; [lia | exact Ho].
Qed.

Lemma scoped_bind {A B} (m : M A) (k : A -> M B) :
  scoped m -> (forall a, scoped (k a)) -> scoped (bind m k).
Proof.
  intros Hm Hk w Hin. unfold bind.
  pose proof (Hm w Hin) as (Hd & Ho & Hc).
  pose proof (scoped_next m w Hm Hin) as Hin'.
  destruct (m w) as [[a | e] w']; simpl in *; [| by repeat split].
  destruct (Hk a w' Hin') as (Hd' & Ho' & Hc').
  repeat split; [lia | exact Ho' | congruence].
Qed.

Lemma scoped_try_catch {A} (body : M A) (handler : Error -> M A) :
  scoped body -> (forall e, scoped (handler e)) -> scoped (try_catch body handler).
Proof.
  intros Hm Hk w Hin. unfold try_catch.
  pose proof (Hm w Hin) as (Hd & Ho & Hc).
  pose proof (scoped_next body w Hm Hin) as Hin'.
  destruct (body w) as [[a | e] w']; simpl in *; [by repeat split |].
  destruct (Hk e w' Hin') as (Hd' & Ho' & Hc').
  repeat split; [lia | exact Ho' | congruence].
Qed.

Lemma scoped_run (stmt : Statement) : scoped (run stmt).
Proof.
  intros w [Hd [s Ho]]. unfold run.
  destruct (stmt _) as [e | [info s']]; simpl; [by repeat split; [eexists] |].
  unfold put. rewrite Ho. simpl. by repeat split; [eexists].
Qed.

Lemma scoped_executeSql (stmt : Statement) : scoped (executeSql stmt).
Proof.
  unfold executeSql. apply scoped_try_catch.
  - apply scoped_bind; [apply scoped_run | intros; apply scoped_ret].
  - intros e. destruct (includes _ _); apply scoped_throw.
Qed.

Lemma scoped_save now data : scoped (save now data).
Proof.
  unfold save.
  assert (scoped (bind (executeSql (insert_job_step now (columns data)))
                    (fun result =>
                       ret (with_id (match insertId result with
                                     | Some i => Val i
                                     | None => Null
                                     end) data)))) as Hins.
  { apply scoped_bind; [apply scoped_executeSql | intros; apply scoped_ret]. }
  destruct (d_id data) as [| | i]; simpl.
  - destruct (no_assignment data); [apply scoped_throw | exact Hins].
  - exact Hins.
  - destruct (i =? 0); [exact Hins |].
    destruct (no_assignment data); [apply scoped_ret |].
    apply scoped_bind; [apply scoped_executeSql | intros; apply scoped_ret].
Qed.

Lemma scoped_transaction {A} (callback : M A) :
  scoped callback -> scoped (transaction callback).
Proof.
  intros Hsc w Hin. rewrite (transaction_inner callback w Hsc Hin). simpl.
  destruct (Hsc _ (in_transaction_deeper w Hin)) as (_ & Ho & Hc).
  by repeat split.
Qed.

End Scoped.

(** C9, as stated, fails for nested transactions.  The inner callback
    records the ledger row of job 1 and then throws.  Run inside an outer
    transaction, [transaction] re-raises the error but issues no
    [ROLLBACK], so the row stays visible; when the outer callback swallows
    the error and returns, the row is committed.

    It fails for interleaved callers too.  Caller 1 enters and records
    the first ledger row, caller 2 enters and records the second.  If
    caller 1 then returns and caller 2 throws, the rollback of caller 2
    also undoes the row of caller 1, which had returned normally; if
    caller 2 throws first and caller 1 returns after it, the row of
    caller 2 is committed.

    And it fails for a callback that ends the SQL transaction itself.
    One that records the row, rolls back by hand and returns 7 does not
    get its result returned: the wrapper's [COMMIT] fails and that error
    is raised.  One that records the row, commits by hand and then throws
    has its row committed for good, and the caller gets the error of the
    wrapper's failed [ROLLBACK] in place of the one thrown. *)
Lemma throwing_transaction_keeps_its_write :
  let w0 := world_of (store_with [job1] []) in
  let record step := JobStepModel_create 5 (step_record 1 step) in
  let inner : M unit :=
    (await _ <- record JobStepName.SendEmail; throw (PlainError "boom"))%js in
  let outer : M Z :=
    try_catch (await _ <- transaction inner; ret 1)%js (fun _ => ret 0) in
  let both : M unit :=
    (run! enter; await _ <- record JobStepName.SendEmail;
     run! enter; await _ <- record JobStepName.Analyze; ret tt)%js in
  let undone : M Z :=
    (await _ <- record JobStepName.SendEmail; run! ROLLBACK; ret 7)%js in
  let kept : M Z :=
    (await _ <- record JobStepName.SendEmail; run! COMMIT;
     throw (PlainError "boom"))%js in
  (exists w', transaction inner (entered w0) = (Throws (PlainError "boom"), w') /\
              job_steps (visible (db w')) = [ledger1]) /\
  (exists w', transaction outer w0 = (Returns 0, w') /\
              job_steps (committed (db w')) = [ledger1] /\ idle w') /\
  (run! both; run! leave COMMIT; leave ROLLBACK)%js w0 = (Returns tt, w0) /\
  (run! both; run! leave ROLLBACK; leave COMMIT)%js w0 =
    (Returns tt, world_of (store_with [job1] [ledger1; ledger2])) /\
  transaction undone w0 =
    (Throws (SqliteError "cannot commit - no transaction is active" "SQLITE_ERROR"),
     with_depth (-1) w0) /\
  (exists w', transaction kept w0 =
                (Throws (SqliteError "cannot rollback - no transaction is active"
                                     "SQLITE_ERROR"), w') /\
              job_steps (committed (db w')) = [ledger1]).
Proof.
  split; [| split; [| split; [| split; [| split]]]].
  - eexists. split; [vm_compute; reflexivity | reflexivity].
  - eexists. split; [vm_compute; reflexivity |]. by repeat split.
  - vm_compute. reflexivity.
  - vm_compute. reflexivity.
  - vm_compute. reflexivity.
  - eexists. split; [vm_compute; reflexivity | reflexivity].
Qed.

(** C9, amended: the wrapper guarantees commit-or-rollback for the
    outermost transaction of one caller at a time, around a callback that
    leaves transaction control to the wrapper.  The callback is [scoped]:
    run inside an open transaction it comes back with the depth counter
    where it found it, the transaction still open and the committed
    database untouched, as statements, ORM saves, their sequencing,
    [try]/[catch] and nested [transaction] calls do, and as a [BEGIN],
    [COMMIT] or [ROLLBACK] issued by the callback does not.  The callback
    runs from the entry of the wrapper to its exit with no other caller
    of [transaction] in between: [transaction callback] is one step on
    the module state.  Then, entered with no transaction in flight, a
    callback that returns has everything it wrote (nested transactions
    included) committed and its result returned, and a callback that
    throws has its error re-raised and the database and the module left
    exactly as they were.  Entered while a transaction is in flight, the
    wrapper neither commits nor rolls back: it hands on the result or the
    error of the callback, and what the callback wrote stays in the
    enclosing transaction, whose end decides. *)
Theorem transaction_commit_or_rollback {T} (callback : M T) (w : World) :
  scoped callback ->
  (idle w ->
     transaction callback w =
       match callback (entered w) with
       | (Returns result, w') => (Returns result, world_of (visible (db w')))
       | (Throws error, w') => (Throws error, w)
       end) /\
  (in_transaction w ->
     transaction callback w =
       ((callback (with_depth (transactionDepth w + 1) w)).1,
        with_depth (transactionDepth w)
                   (callback (with_depth (transactionDepth w + 1) w)).2)).
Proof.
  intros Hsc. split; intros Hw.
  - by apply transaction_outermost.
  - by apply transaction_inner.
Qed.

(** The theorem at work on the store of one pending job: a callback that
    records the ledger row and returns 7 has the row committed; one that
    records the row and then throws leaves the store as it was; and a
    callback returning inside an open transaction is not committed yet. *)
Lemma transaction_commit_or_rollback_witness :
  let w0 := world_of (store_with [job1] []) in
  let record := JobStepModel_create 5 (step_record 1 JobStepName.SendEmail) in
  let good : M Z := (await _ <- record; ret 7)%js in
  let bad : M Z := (await _ <- record; throw (PlainError "boom"))%js in
  transaction good w0 = (Returns 7, world_of (store_with [job1] [ledger1])) /\
  transaction bad w0 = (Throws (PlainError "boom"), w0) /\
  committed (db (transaction good (entered w0)).2) = store_with [job1] [].
Proof.
  intros w0 record good bad.
  assert (scoped record) as Hrec by apply scoped_save.
  assert (scoped good) as Hgood
    by (apply scoped_bind; [exact Hrec | intros; apply scoped_ret]).
  assert (scoped bad) as Hbad
    by (apply scoped_bind; [exact Hrec | intros; apply scoped_throw]).
  assert (idle w0) as Hidle by (split; reflexivity).
  split; [| split].
  - rewrite (proj1 (transaction_commit_or_rollback good w0 Hgood) Hidle).
    vm_compute. reflexivity.
  - rewrite (proj1 (transaction_commit_or_rollback bad w0 Hbad) Hidle).
    vm_compute. reflexivity.
  - rewrite (proj2 (transaction_commit_or_rollback good (entered w0) Hgood)
               (in_transaction_entered w0)).
    vm_compute. reflexivity.
Defined.

(* ===================================================================== *)
(** * The entry points of the queue core *)
(* ===================================================================== *)

Section EntryPoints.


Lemma invoke_all_not_implemented {A} (n : nat) (rt : Runtime) :
  invoke_all n (@not_implemented A) rt =
    (repeat (Throws (PlainError "Not implemented")) n, rt).
Proof. induction n as [| n IH]; simpl; [done |]. by rewrite IH. Qed.

Lemma claimed_none (n : nat) :
  claimed (repeat (Throws (PlainError "Not implemented")) n) = [].
Proof. induction n as [| n IH]; simpl; done. Qed.

(** However many workers call [claimNextJob] together, none is handed a
    job and the store is not touched. *)
Lemma claimNextJob_never_claims (n : nat) (rt : Runtime) :
  claimed (invoke_all n claimNextJob rt).1 = [] /\
  (invoke_all n claimNextJob rt).2 = rt.
Proof.
  unfold claimNextJob. rewrite invoke_all_not_implemented. simpl.
  split; [apply claimed_none | reflexivity].
Qed.

End EntryPoints.

(** C1 against the code: the store holds the ten Pending jobs of the test
    harness, all eligible, and twenty workers call [claimNextJob] together.
    The design asks for min(20, 10) = 10 distinct jobs handed out; every
    call raises [Not implemented], no job is handed out, and the ten jobs
    are still Pending. *)
Theorem claimNextJob_twenty_workers_ten_jobs :
  let js := List.map (fun i => pending_job (Z.of_nat i) "test@example.com")
                     (seq 1 10) in
  let rt := runtime_of (store_with js []) in
  let now := 1000 in
  Nat.min 20 (eligible_count now (visible (db (world rt)))) = 10%nat /\
  (invoke_all 20 claimNextJob rt).1 =
    repeat (Throws (PlainError "Not implemented")) 20 /\
  length (claimed (invoke_all 20 claimNextJob rt).1) = 0%nat /\
  eligible_count now (visible (db (world (invoke_all 20 claimNextJob rt).2)))
    = 10%nat.
Proof. vm_compute. repeat split. Qed.


(** C3 against the code: for the empty address list the design asks for
    the result 0, and for three addresses for the result 3 and three new
    Pending rows at step SendEmail; both calls raise [Not implemented] and
    the campaign has as many such rows afterwards as before. *)
Theorem createCampaignJobs_creates_nothing :
  let rt := runtime_of (store_with [] []) in
  let emails := ["user1@example.com"; "user2@example.com"; "user3@example.com"] in
  createCampaignJobs 1 [] rt = (Throws (PlainError "Not implemented"), rt) /\
  createCampaignJobs 1 emails rt = (Throws (PlainError "Not implemented"), rt) /\
  length (List.filter (fresh_job 1)
            (jobs (visible (db (world (createCampaignJobs 1 emails rt).2)))))
    = 0%nat.
Proof. vm_compute. repeat split. Qed.

(** C4 against the code: job 1 is Processing with a heartbeat at time 0;
    at time 1000000 ms and a timeout of 300 s it is stalled, and the design
    asks for it to be reset to Pending with its lease cleared.
    [recoverStalledJobs] raises [Not implemented] and the job stays
    Processing under its dead worker. *)
Theorem recoverStalledJobs_recovers_nothing :
  let rt := runtime_of (store_with [stalled_job1] []) in
  stalled 1000000 300 stalled_job1 = true /\
  recoverStalledJobs 300 rt = (Throws (PlainError "Not implemented"), rt) /\
  List.map (fun j => (status j, workerId j))
           (jobs (visible (db (world (recoverStalledJobs 300 rt).2))))
    = [(JobStatus.Processing, Some "worker-1")].
Proof. vm_compute. repeat split. Qed.

(* ===================================================================== *)
(** * Strings and printed numbers *)
(* ===================================================================== *)

Section TextFacts.

Lemma chars_app (s t : string) : chars (s +:+ t) = (chars s ++ chars t)%list.
Proof. induction s as [| c s IH]; simpl; [done | by rewrite IH]. Qed.

Lemma chars_inj (s t : string) : chars s = chars t -> s = t.
Proof.
  revert t. induction s as [| c s IH]; intros [| d t]; simpl; try done.
  intros [= -> H]. by rewrite (IH t H).
Qed.

Lemma pretty_N_char_digit (x : N) : is_digit (pretty_N_char x) = true.
Proof. unfold pretty_N_char. by repeat case_match. Qed.

Lemma pretty_N_go_shape (x : N) :
  forall s, exists d,
    chars (pretty_N_go x s) = (d ++ chars s)%list /\
    Forall (fun c => is_digit c = true) d /\
    ((0 < x)%N -> d <> []).
Proof.
  induction (N.lt_wf_0 x) as [x _ IH]. intros s.
  assert (x = 0 \/ 0 < x)%N as [-> | Hpos] by lia.
  - exists []. rewrite pretty_N_go_0. repeat split; [constructor | lia].
  - rewrite pretty_N_go_step by done.
    destruct (IH (x `div` 10)%N (N.div_lt x 10 Hpos eq_refl)
                (String (pretty_N_char (x `mod` 10)) s)) as (d & Hd & Hdig & _).
    exists (d ++ [pretty_N_char (x `mod` 10)])%list. split; [| split].
    + rewrite Hd. simpl. by rewrite <- app_assoc.
    + apply Forall_app. split; [done |].
      apply Forall_singleton, pretty_N_char_digit.
    + intros _ Hnil. by apply app_eq_nil in Hnil as [_ ?].
Qed.

(** A natural number prints as a non-empty run of digits. *)
Lemma pretty_N_digits (x : N) :
  Forall (fun c => is_digit c = true) (chars (pretty x)) /\ chars (pretty x) <> [].
Proof.
  unfold pretty, pretty_N. case_decide as Hx.
  - split; [by repeat constructor | done].
  - destruct (pretty_N_go_shape x "") as (d & Hd & Hdig & Hne).
    rewrite Hd. simpl. rewrite app_nil_r. split; [done |]. apply Hne. lia.
Qed.

(** Two texts that each start with digits followed by a dash agree only
    if the digits and the remainders agree. *)
Lemma digits_dash_split (d1 d2 r1 r2 : list ascii) :
  Forall (fun c => is_digit c = true) d1 ->
  Forall (fun c => is_digit c = true) d2 ->
  (d1 ++ "-"%char :: r1 = d2 ++ "-"%char :: r2)%list ->
  d1 = d2 /\ r1 = r2.
Proof.
  intros H1. revert d2. induction H1 as [| c d1 Hc _ IH]; intros d2 H2 Heq.
  - destruct H2 as [| c d2 Hc _]; simpl in Heq.
    + by injection Heq as ->.
    + injection Heq as <- _. discriminate.
  - destruct H2 as [| c' d2 Hc' H2]; simpl in Heq.
    + injection Heq as -> _. discriminate.
    + injection Heq as -> Heq. destruct (IH d2 H2 Heq) as [-> ->]. done.
Qed.

(** A whole number prints as an optional minus sign and a non-empty run
    of digits. *)
Lemma pretty_Z_shape (j : Z) :
  exists sign d,
    chars (pretty j) = (sign ++ d)%list /\
    (sign = [] \/ sign = ["-"%char]) /\
    Forall (fun c => is_digit c = true) d /\ d <> [].
Proof.
  destruct j as [| p | p]; unfold pretty, pretty_Z, pretty_positive.
  - exists [], ["0"%char]. repeat split; [by left | by repeat constructor | done].
  - destruct (pretty_N_digits (Npos p)) as [Hd Hne].
    exists [], (chars (pretty (Npos p))). repeat split; [by left | done | done].
  - destruct (pretty_N_digits (Npos p)) as [Hd Hne].
    exists ["-"%char], (chars (pretty (Npos p))). rewrite chars_app.
    repeat split; [by right | done | done].
Qed.

End TextFacts.

(* ===================================================================== *)
(** * Idempotency keys and workflow steps *)
(* ===================================================================== *)

(** X1: [generateIdempotencyKey] is injective: two (job id, step) pairs
    get the same key only if they are the same pair, whatever the step
    names contain (dashes included). *)
Theorem generateIdempotencyKey_inj (j1 j2 : Z) (s1 s2 : string) :
  generateIdempotencyKey j1 s1 = generateIdempotencyKey j2 s2 <->
  j1 = j2 /\ s1 = s2.
Proof.
  split; [| by intros [-> ->]].
  unfold generateIdempotencyKey. intros Heq. apply (f_equal chars) in Heq.
  rewrite !chars_app in Heq. simpl in Heq.
  destruct (pretty_Z_shape j1) as (g1 & d1 & E1 & Hg1 & Hd1 & Hne1).
  destruct (pretty_Z_shape j2) as (g2 & d2 & E2 & Hg2 & Hd2 & Hne2).
  assert (chars (pretty j1) = chars (pretty j2) /\ chars s1 = chars s2) as [Hj Hs].
  { rewrite E1, E2 in *. rewrite <- !app_assoc in Heq.
    destruct Hg1 as [-> | ->], Hg2 as [-> | ->]; simpl in *.
    - by destruct (digits_dash_split _ _ _ _ Hd1 Hd2 Heq) as [-> ->].
    - destruct Hd1 as [| c d1 Hc _]; [done |]. simpl in Heq.
      injection Heq as -> _. discriminate.
    - destruct Hd2 as [| c d2 Hc _]; [done |]. simpl in Heq.
      injection Heq as <- _. discriminate.
    - injection Heq as Heq.
      by destruct (digits_dash_split _ _ _ _ Hd1 Hd2 Heq) as [-> ->]. }
  apply chars_inj in Hj, Hs. apply (inj pretty) in Hj. done.
Qed.

Lemma getNextStep_cases (current : string) :
  getNextStep current =
    if String.eqb "send_email" current then Some "analyze"
    else if String.eqb "analyze" current then Some "take_action"
    else None.
Proof.
  unfold getNextStep, WORKFLOW_STEPS. cbn [indexOf].
  destruct (String.eqb "send_email" current); [reflexivity |].
  destruct (String.eqb "analyze" current); [reflexivity |].
  destruct (String.eqb "take_action" current); reflexivity.
Qed.

(** X2: [getNextStep] follows the workflow and nothing else: it yields a
    step exactly for send_email (then analyze) and analyze (then
    take_action); for take_action and for every other string it yields
    null, so three applications in a row always end in null. *)
Theorem getNextStep_follows_workflow (current : string) :
  (forall next,
     getNextStep current = Some next <->
     (current = "send_email" /\ next = "analyze") \/
     (current = "analyze" /\ next = "take_action")) /\
  (getNextStep current ≫= getNextStep) ≫= getNextStep = None.
Proof.
  rewrite getNextStep_cases.
  destruct (String.eqb_spec "send_email" current) as [E1 | H1].
  { subst current. split; [| reflexivity]. intros next. split.
    - intros [= <-]. by left.
    - intros [[_ ->] | [[=] _]]. done. }
  destruct (String.eqb_spec "analyze" current) as [E2 | H2].
  { subst current. split; [| reflexivity]. intros next. split.
    - intros [= <-]. by right.
    - intros [[[=] _] | [_ ->]]. done. }
  split; [| reflexivity]. intros next. split; [done |].
  intros [[E _] | [E _]]; by subst current.
Qed.

(* ===================================================================== *)
(** * The rate limiter *)
(* ===================================================================== *)

Section LimiterFacts.





End LimiterFacts.



(** X4: the idempotency cache round trip.  A key cached at [now] is
    answered with its message id at every time less than 24 hours later;
    from 24 hours on the check answers null and deletes the entry.  The
    check of any other key sees the same result as without the entry. *)
Theorem cache_round_trip (now later : Z) (key mid : string) (rl : RateLimiter) :
  checkIdempotency later key (cacheIdempotency now key mid rl) =
    (if later - now <? 24 * 60 * 60 * 1000
     then (Some mid, cacheIdempotency now key mid rl)
     else (None, {| requests := requests rl;
                    idempotencyCache := delete key (idempotencyCache rl) |})) /\
  (forall other, other <> key ->
     (checkIdempotency later other (cacheIdempotency now key mid rl)).1 =
     (checkIdempotency later other rl).1).
Proof.
  split.
  - unfold checkIdempotency, cacheIdempotency. simpl.
    rewrite lookup_insert_eq. simpl.
    destruct (later - now <? 24 * 60 * 60 * 1000); [done |].
    by rewrite delete_insert_eq.
  - intros other Hne. unfold checkIdempotency, cacheIdempotency. simpl.
    rewrite lookup_insert_ne by done.
    destruct (idempotencyCache rl !! other) as [e |]; [| done].
    by destruct (later - timestamp e <? 24 * 60 * 60 * 1000).
Qed.

(* ===================================================================== *)
(** * More on the mail collaborator *)
(* ===================================================================== *)

Section MailMore.

Lemma sendEmail_uncached now rand stamp toAddr bodyText k st :
  enabled (config st) = true ->
  cache st !! k = None ->
  sendEmail now rand stamp toAddr bodyText k st =
    sendEmail_resume (now + latencyMs (config st)) rand stamp toAddr bodyText k st.
Proof.
  intros Hen Hmiss. unfold sendEmail, sendEmail_begin, checkIdempotency.
  unfold cache in Hmiss. rewrite Hen, Hmiss. simpl.
  by rewrite with_limiter_same.
Qed.

Lemma deliveries_grow ev s d :
  In d (deliveries (mail s)) -> In d (deliveries (mail (step ev s))).
Proof.
  intros Hd. destruct ev as [c | i rand stamp | cfg | | ms]; simpl; try done.
  - pose proof (sendEmail_begin_frame (clock s) (to c) (body c) (key c) (mail s))
      as (_ & Hdel & _).
    destruct (sendEmail_begin _ _ _ _ _) as [[r d' | d'] st']; simpl in *;
      by rewrite Hdel.
  - destruct (sleeping s !! i) as [c |]; [| done].
    pose proof (sendEmail_resume_cases (clock s) rand stamp (to c) (body c) (key c)
                  (mail s)) as [_ Hcases].
    destruct (sendEmail_resume _ _ _ _ _ _ _) as [r st']. simpl in *.
    destruct Hcases as [(e & _ & _ & _ & ->) | (_ & _ & ->)]; [done |].
    apply in_or_app. by left.
Qed.

Lemma sendEmail_begin_returns now toAddr bodyText k st m d st' :
  well_cached st ->
  sendEmail_begin now toAddr bodyText k st = (Finished (Returns m) d, st') ->
  exists x, In x (deliveries st) /\ sentKey x = k /\ sentId x = m.
Proof.
  intros Hwc. unfold sendEmail_begin, checkIdempotency.
  destruct (enabled (config st)); simpl; [| discriminate].
  destruct (idempotencyCache (sendgridLimiter st) !! k) as [e |] eqn:Hk;
    [| discriminate].
  destruct (now - timestamp e <? 24 * 60 * 60 * 1000); simpl; [| discriminate].
  destruct (truthy (messageId e)); [| discriminate].
  intros [= <- _ _]. exact (proj2 (Hwc k e Hk)).
Qed.

End MailMore.

(** X5: when [sendEmail] succeeds.  With a non-negative error rate and a
    key that is not cached, a call made on its own returns a message id
    exactly when the API is enabled, the address contains an at-sign and
    a dot, the rate limiter admits the request when the call wakes up,
    and the random draw is at least the error rate; the id is then the
    freshly generated one.  Nothing else about the address or the body
    matters. *)
Theorem sendEmail_succeeds_iff now rand stamp toAddr bodyText k st :
  (0 <= errorRate (config st))%Q ->
  cache st !! k = None ->
  ((exists m, (sendEmail now rand stamp toAddr bodyText k st).1 = Returns m) <->
   enabled (config st) = true /\
   includes "@" toAddr = true /\ includes "." toAddr = true /\
   (checkRateLimit (now + latencyMs (config st)) (rateLimitPerSecond (config st))
                   (sendgridLimiter st)).1 = true /\
   (errorRate (config st) <= rand)%Q) /\
  (forall m, (sendEmail now rand stamp toAddr bodyText k st).1 = Returns m ->
             m = generateMessageId stamp).
Proof.
  intros Hrate Hmiss.
  destruct (enabled (config st)) eqn:Hen.
  2: { unfold sendEmail, sendEmail_begin. rewrite Hen. simpl.
       split; [| intros m [=]]. split; [intros [m [=]] | intros [[=] _]]. }
  rewrite (sendEmail_uncached _ _ _ _ _ _ _ Hen Hmiss).
  unfold sendEmail_resume.
  destruct (includes "@" toAddr); simpl.
  2: { split; [| intros m [=]]. split; [intros [m [=]] | intros (_ & [=] & _)]. }
  destruct (includes "." toAddr); simpl.
  2: { split; [| intros m [=]]. split; [intros [m [=]] | intros (_ & _ & [=] & _)]. }
  destruct (checkRateLimit _ _ _) as [allowed rl]. simpl.
  destruct allowed; simpl.
  2: { split; [| intros m [=]].
       split; [intros [m [=]] | intros (_ & _ & _ & [=] & _)]. }
  destruct (Qlt_le_dec rand (errorRate (config st) * (3 # 10))) as [H3 | H3]; simpl.
  { split; [| intros m [=]]. split; [intros [m [=]] |].
    intros (_ & _ & _ & _ & Hle). exfalso. lra. }
  destruct (Qlt_le_dec rand (errorRate (config st) * (6 # 10))) as [H6 | H6]; simpl.
  { split; [| intros m [=]]. split; [intros [m [=]] |].
    intros (_ & _ & _ & _ & Hle). exfalso. lra. }
  destruct (Qlt_le_dec rand (errorRate (config st))) as [H1 | H1]; simpl.
  { split; [| intros m [=]]. split; [intros [m [=]] |].
    intros (_ & _ & _ & _ & Hle). exfalso. lra. }
  split; [| by intros m [= <-]].
  split; [intros _; by repeat split | intros _; by eexists].
Qed.

(** The theorem at work: the shipped configuration, a fresh module, a
    draw of one half. *)
Lemma sendEmail_succeeds_iff_witness :
  (sendEmail 0 (1 # 2) "200_abc" "customer@example.com" "Hello" "7-send_email"
             (mail (boot apiConfig 0))).1 = Returns "msg_200_abc".
Proof.
  destruct (sendEmail_succeeds_iff 0 (1 # 2) "200_abc" "customer@example.com"
              "Hello" "7-send_email" (mail (boot apiConfig 0)))
    as [[_ Hif] Hid].
  - vm_compute. discriminate.
  - reflexivity.
  - destruct Hif as [m Hm].
    + repeat split; vm_compute; (reflexivity || discriminate).
    + rewrite Hm. f_equal. exact (Hid m Hm).
Defined.

(** X6: which failures use up rate-limit quota.  Take a whole call of
    [sendEmail] with the API enabled and a key for which the cache holds
    no fresh id.  The check at the start of the call drops the expired
    entry of the key, if there is one, and touches nothing else.  If the
    address is then refused, that is all the call has changed: the request
    times, the deliveries and the configuration are as before.  A call
    that the limiter admits when it wakes up and that then fails by an
    injected error (a draw below the error rate) has still been counted:
    its wake-up time stays among the recorded requests, while the cache
    stays as the check left it and nothing is delivered. *)
Theorem injected_failure_uses_quota now rand stamp toAddr bodyText k st :
  enabled (config st) = true ->
  (checkIdempotency now k (sendgridLimiter st)).1 = None ->
  let swept := (checkIdempotency now k (sendgridLimiter st)).2 in
  let later := now + latencyMs (config st) in
  (requests swept = requests (sendgridLimiter st) /\
   idempotencyCache swept !! k = None /\
   forall other, other <> k -> idempotencyCache swept !! other = cache st !! other) /\
  (includes "@" toAddr = false \/ includes "." toAddr = false ->
   exists e,
     sendEmail now rand stamp toAddr bodyText k st =
       (Throws e, with_limiter swept st) /\
     name e = "InvalidEmailError") /\
  (includes "@" toAddr = true -> includes "." toAddr = true ->
   (checkRateLimit later (rateLimitPerSecond (config st)) swept).1 = true ->
   (rand < errorRate (config st))%Q ->
   exists e st',
     sendEmail now rand stamp toAddr bodyText k st = (Throws e, st') /\
     requests (sendgridLimiter st') =
       (List.filter (fun time => later - time <? 1000) (requests (sendgridLimiter st))
        ++ [later])%list /\
     cache st' = idempotencyCache swept /\
     deliveries st' = deliveries st /\ config st' = config st).
Proof.
  intros Hen Hmiss swept later.
  assert (requests swept = requests (sendgridLimiter st) /\
          idempotencyCache swept !! k = None /\
          forall other, other <> k ->
            idempotencyCache swept !! other = cache st !! other) as Hswept.
  { unfold swept, cache, checkIdempotency in *.
    destruct (idempotencyCache (sendgridLimiter st) !! k) as [e |] eqn:Hk;
      [| by repeat split].
    destruct (now - timestamp e <? 24 * 60 * 60 * 1000); [discriminate |].
    simpl. split; [done |]. split; [apply lookup_delete_eq |].
    intros other Hne. by apply lookup_delete_ne. }
  assert (sendEmail now rand stamp toAddr bodyText k st =
          sendEmail_resume later rand stamp toAddr bodyText k (with_limiter swept st))
    as Hcall.
  { unfold sendEmail, sendEmail_begin, swept, later. rewrite Hen. simpl.
    destruct (checkIdempotency now k (sendgridLimiter st)) as [answer rl].
    simpl in Hmiss. by subst answer. }
  split; [exact Hswept |]. destruct Hswept as (Hreq & _ & _).
  rewrite Hcall. split.
  - intros Hbad. unfold sendEmail_resume.
    replace (negb (includes "@" toAddr) || negb (includes "." toAddr)) with true
      by (destruct Hbad as [-> | ->]; [done | by rewrite orb_true_r]).
    by eexists.
  - intros Hat Hdot Hok Hrand. unfold sendEmail_resume, cache.
    rewrite Hat, Hdot. simpl. rewrite <- Hreq.
    unfold checkRateLimit in *.
    destruct (_ >=? _); [discriminate |]. simpl.
    destruct (Qlt_le_dec rand (errorRate (config st) * (3 # 10)));
      [by eexists _, _ |].
    destruct (Qlt_le_dec rand (errorRate (config st) * (6 # 10)));
      [by eexists _, _ |].
    destruct (Qlt_le_dec rand (errorRate (config st))) as [| Hge];
      [by eexists _, _ |].
    exfalso. lra.
Qed.

(** The theorem at work, twice.  A key was cached at time 0; a day later
    a call with that key and an address without an at-sign is refused, and
    the expired entry is gone from the cache.  And with one request per
    second and an error rate of 1, a call fails by injection and its slot
    is used up: the limiter refuses a second request in the same second. *)
Lemma injected_failure_uses_quota_witness :
  let day := 24 * 60 * 60 * 1000 in
  let cached :=
    {| config := apiConfig;
       sendgridLimiter :=
         cacheIdempotency 0 "7-send_email" "msg_200_abc"
                          {| requests := []; idempotencyCache := ∅ |};
       deliveries := [{| sentTo := "customer@example.com";
                         sentKey := "7-send_email"; sentId := "msg_200_abc" |}] |} in
  let always := {| rateLimitPerSecond := 1; errorRate := 1; latencyMs := 50;
                   enabled := true |} in
  (exists e st',
     sendEmail day (1 # 2) "x" "nobody" "Hello" "7-send_email" cached =
       (Throws e, st') /\
     name e = "InvalidEmailError" /\
     is_Some (cache cached !! "7-send_email") /\
     cache st' !! "7-send_email" = None) /\
  (exists e st',
     sendEmail 0 (1 # 2) "50_abc" "a@b.c" "Hello" "k" (mail (boot always 0)) =
       (Throws e, st') /\
     requests (sendgridLimiter st') = [50] /\
     (checkRateLimit 60 1 (sendgridLimiter st')).1 = false).
Proof.
  intros day cached always. split.
  - destruct (injected_failure_uses_quota day (1 # 2) "x" "nobody" "Hello"
                "7-send_email" cached)
      as ((_ & Hgone & _) & Hrefused & _); [reflexivity | reflexivity |].
    destruct Hrefused as (e & Hrun & Hname); [by left |].
    exists e, (with_limiter (checkIdempotency day "7-send_email"
                               (sendgridLimiter cached)).2 cached).
    split; [exact Hrun |]. split; [exact Hname |].
    split; [eexists; reflexivity | exact Hgone].
  - destruct (injected_failure_uses_quota 0 (1 # 2) "50_abc" "a@b.c" "Hello" "k"
                (mail (boot always 0)))
      as (_ & _ & Hinjected); [reflexivity | reflexivity |].
    destruct Hinjected as (e & st' & Hrun & Hreq & _);
      [reflexivity | reflexivity | reflexivity | vm_compute; reflexivity |].
    exists e, st'. split; [exact Hrun |]. split; [exact Hreq |].
    unfold checkRateLimit. rewrite Hreq. reflexivity.
Defined.

(** X7: [sendEmail] never returns an id it did not deliver.  In every
    state the module can reach, whatever callers, wake-ups, configuration
    changes and resets came before, every message id a call has returned
    belongs to a delivery made under the key of that call. *)
Theorem returned_ids_were_delivered (s : Sys) :
  mail_reachable s ->
  forall c m, In (c, Returns m) (returned s) ->
    exists d, In d (deliveries (mail s)) /\ sentKey d = key c /\ sentId d = m.
Proof.
  intros (cfg & now & evs & ->).
  assert (forall s0,
            (well_cached (mail s0) /\
             forall c m, In (c, Returns m) (returned s0) ->
               exists d, In d (deliveries (mail s0)) /\ sentKey d = key c /\
                         sentId d = m) ->
            well_cached (mail (run_events evs s0)) /\
            forall c m, In (c, Returns m) (returned (run_events evs s0)) ->
              exists d, In d (deliveries (mail (run_events evs s0))) /\
                        sentKey d = key c /\ sentId d = m) as Hrun.
  { apply (run_events_invariant
             (fun s0 => well_cached (mail s0) /\
                forall c m, In (c, Returns m) (returned s0) ->
                  exists d, In d (deliveries (mail s0)) /\ sentKey d = key c /\
                            sentId d = m)).
    intros ev s0 [Hwc Hret]. split; [by apply well_cached_step |].
    assert (forall c m, In (c, Returns m) (returned s0) ->
              exists d, In d (deliveries (mail (step ev s0))) /\
                        sentKey d = key c /\ sentId d = m) as Hold.
    { intros c m Hin. destruct (Hret c m Hin) as (d & Hd & Hk & Hi).
      exists d. split; [by apply deliveries_grow | done]. }
    destruct ev as [c0 | i rand stamp | cfg0 | | ms]; simpl in *; try exact Hold.
    - (* a call answered at once: from the cache, or refused *)
      pose proof (sendEmail_begin_frame (clock s0) (to c0) (body c0) (key c0) (mail s0))
        as (_ & Hdel & _).
      destruct (sendEmail_begin _ _ _ _ _) as [[r d | d] st'] eqn:Hb; simpl in *;
        [| exact Hold].
      intros c m Hin. apply in_app_or in Hin as [Hin | [[= <- ->] | []]].
      + exact (Hold c m Hin).
      + rewrite Hdel. exact (sendEmail_begin_returns _ _ _ _ _ _ _ _ Hwc Hb).
    - (* a call wakes up and runs to its end *)
      destruct (sleeping s0 !! i) as [c0 |]; [| exact Hret].
      pose proof (sendEmail_resume_cases (clock s0) rand stamp (to c0) (body c0)
                    (key c0) (mail s0)) as [_ Hcases].
      destruct (sendEmail_resume _ _ _ _ _ _ _) as [r st']. simpl in *.
      intros c m Hin. apply in_app_or in Hin as [Hin | [[= <- ->] | []]].
      + exact (Hold c m Hin).
      + destruct Hcases as [(e & [=] & _) | ([= ->] & _ & ->)].
        eexists. split; [apply in_or_app; right; left; reflexivity | done]. }
  apply Hrun. split.
  - intros k e Hk. unfold cache in Hk. simpl in Hk. by rewrite lookup_empty in Hk.
  - intros c m [].
Qed.

(** The theorem at work on a run with a cached answer and a reset. *)
Lemma returned_ids_were_delivered_witness :
  let c := {| to := "customer@example.com"; body := "Hello"; key := "7-send_email" |} in
  let s := run_events [Invoke c; Elapse 200; Wake 0 (1 # 2) "200_abc"; Invoke c;
                       ResetApis] (boot apiConfig 0) in
  exists d, In d (deliveries (mail s)) /\ sentKey d = "7-send_email" /\
            sentId d = "msg_200_abc".
Proof.
  intros c s.
  refine (returned_ids_were_delivered s _ c "msg_200_abc" _).
  - by exists apiConfig, 0,
      [Invoke c; Elapse 200; Wake 0 (1 # 2) "200_abc"; Invoke c; ResetApis].
  - vm_compute. right. left. reflexivity.
Defined.

(* ===================================================================== *)
(** * lib/metrics.ts: summaries *)
(* ===================================================================== *)

Section MetricsFacts.

Lemma sorted_nth_le (l : list Z) :
  StronglySorted Z.le l ->
  forall i j, (i <= j)%nat -> (j < length l)%nat -> nth i l 0 <= nth j l 0.
Proof.
  induction 1 as [| x l Hs IH Hall]; intros i j Hij Hj; simpl in *; [lia |].
  destruct i as [| i], j as [| j]; try lia.
  - rewrite List.Forall_forall in Hall. apply Hall, nth_In. lia.
  - apply IH; lia.
Qed.

Lemma sum_permutation (l1 l2 : list Z) :
  l1 ≡ₚ l2 -> forall a, fold_left Z.add l1 a = fold_left Z.add l2 a.
Proof.
  induction 1 as [| x l1 l2 _ IH | x y l | l1 l2 l3 _ IH1 _ IH2]; intros a; simpl.
  - done.
  - apply IH.
  - f_equal. lia.
  - by rewrite IH1.
Qed.

Lemma filter_length_permutation (f : Z -> bool) (l1 l2 : list Z) :
  l1 ≡ₚ l2 -> length (List.filter f l1) = length (List.filter f l2).
Proof.
  induction 1 as [| x l1 l2 _ IH | x y l | l1 l2 l3 _ IH1 _ IH2]; simpl.
  - done.
  - destruct (f x); simpl; by rewrite IH.
  - by destruct (f x), (f y).
  - by rewrite IH1.
Qed.

(** In a sorted list the first [i + 1] entries are at most the entry at
    [i], and the entries from [i] on are at least it. *)
Lemma sorted_rank (l : list Z) :
  StronglySorted Z.le l ->
  forall i, (i < length l)%nat ->
    (i + 1 <= at_most (nth i l 0%Z) l)%nat /\
    (length l - i <= at_least (nth i l 0%Z) l)%nat.
Proof.
  unfold at_most, at_least.
  induction 1 as [| x l Hs IH Hall]; intros i Hi; simpl in *; [lia |].
  destruct i as [| i].
  - rewrite Z.leb_refl. simpl. split; [lia |].
    assert (List.filter (fun v => x <=? v) l = l) as ->; [| lia].
    clear IH Hs Hi. induction l as [| y l IHl]; [done |].
    apply Forall_cons in Hall as [Hy Hall]. simpl.
    destruct (Z.leb_spec x y); [| lia]. f_equal. by apply IHl.
  - destruct (IH i ltac:(lia)) as [IH1 IH2].
    assert (x <= nth i l 0) as Hx.
    { rewrite List.Forall_forall in Hall. apply Hall, nth_In. lia. }
    destruct (Z.leb_spec x (nth i l 0)); [| lia]. simpl.
    split; [lia |]. destruct (nth i l 0 <=? x); simpl; lia.
Qed.

Lemma percentile_index (n k : nat) :
  (1 <= n)%nat -> (k < 100)%nat -> (n * k / 100 < n)%nat.
Proof.
  intros Hn Hk. apply Nat.Div0.div_lt_upper_bound. nia.
Qed.

Lemma record_lookup now name type value tags mc :
  record now name type value tags mc !! name =
    Some {| m_type := default type (m_type <$> mc !! name);
            m_values := default [] (m_values <$> mc !! name) ++
              [{| mv_value := value; mv_tags := tags; mv_timestamp := now |}] |}.
Proof.
  unfold record. destruct (mc !! name) as [metric |] eqn:E; simpl.
  - rewrite E. by rewrite lookup_insert_eq.
  - rewrite lookup_insert_eq. by rewrite lookup_insert_eq.
Qed.

Lemma record_lookup_ne now name type value tags mc other :
  other <> name ->
  record now name type value tags mc !! other = mc !! other.
Proof.
  intros Hne. unfold record. destruct (mc !! name) as [metric |] eqn:E; simpl.
  - rewrite E. by rewrite lookup_insert_ne.
  - rewrite lookup_insert_eq. rewrite !lookup_insert_ne; done.
Qed.

(** Up to 2^53 in absolute value a whole number is a double. *)
Lemma nearest_double_exact (z : Z) :
  Z.abs z <= 2 ^ 53 -> nearest_double z = z.
Proof.
  intros Hz. destruct (Z.eq_dec (Z.abs z) (2 ^ 53)) as [Htop | Hbelow].
  - assert (z = 2 ^ 53 \/ z = - (2 ^ 53)) as [-> | ->] by lia; reflexivity.
  - unfold nearest_double. cbv zeta.
    assert ((Z.log2 (Z.abs z) + 1 <=? 53) = true) as ->; [| reflexivity].
    apply Z.leb_le. destruct (Z.eq_dec (Z.abs z) 0) as [-> | Hpos]; [done |].
    assert (Z.log2 (Z.abs z) < 53); [| lia].
    apply Z.log2_lt_pow2; lia.
Qed.

Lemma magnitude_nonneg (vs : list Z) : 0 <= magnitude vs.
Proof. induction vs as [| v vs IH]; simpl; lia. Qed.

Lemma magnitude_permutation (l1 l2 : list Z) :
  l1 ≡ₚ l2 -> magnitude l1 = magnitude l2.
Proof.
  induction 1 as [| x l1 l2 _ IH | x y l | l1 l2 l3 _ IH1 _ IH2]; simpl; lia.
Qed.

(** While the partial sums stay within 2^53, no addition rounds. *)
Lemma sum_exact (vs : list Z) :
  forall a, Z.abs a + magnitude vs <= 2 ^ 53 ->
            fold_left plus_number vs a = fold_left Z.add vs a.
Proof.
  induction vs as [| v vs IH]; intros a Hbound; simpl in *; [done |].
  pose proof (magnitude_nonneg vs) as Hpos.
  unfold plus_number at 2. rewrite nearest_double_exact by lia.
  apply IH. lia.
Qed.

Lemma getSummary_shape name mc s :
  getSummary name mc = Some s ->
  exists metric,
    mc !! name = Some metric /\ m_values metric <> [] /\
    s_count s = length (m_values metric) /\
    s_sum s =
      fold_left plus_number
                (merge_sort Z.le (List.map mv_value (m_values metric))) 0.
Proof.
  intros H. unfold getSummary in H.
  destruct (mc !! name) as [metric |]; [| done].
  exists metric. split; [done |].
  destruct (m_values metric) as [| v0 rest] eqn:E; [done |]. rewrite <- E in H |- *.
  split; [by rewrite E |].
  apply (inj Some) in H. subst s. cbn [s_count s_sum].
  pose proof (merge_sort_Permutation Z.le (List.map mv_value (m_values metric)))
    as Hperm.
  split; [| done].
  by rewrite (Permutation_length Hperm), length_map.
Qed.

(** The sum of a summary is exact while the values are small enough. *)
Lemma sorted_sum_exact (vs : list Z) :
  magnitude vs <= 2 ^ 53 ->
  fold_left plus_number (merge_sort Z.le vs) 0 = fold_left Z.add vs 0.
Proof.
  intros Hbound. pose proof (merge_sort_Permutation Z.le vs) as Hperm.
  rewrite sum_exact by (rewrite (magnitude_permutation _ _ Hperm); simpl; lia).
  by apply sum_permutation.
Qed.

End MetricsFacts.

(** X8: what [getSummary] reports.  Whenever it returns a summary, at
    least one value was recorded under the name and [count] is their
    number; the five statistics are recorded values with
    min <= p50 <= p95 <= p99 <= max, every recorded value lies between
    [min] and [max], and more than 50, 95 and 99 percent of the recorded
    values (at least floor(n q) + 1 of n) are at most [p50], [p95] and
    [p99].  [sum] is the exact sum of the recorded values whenever their
    absolute values add up to 2^53 at most; beyond that the additions
    round.  The recorded values are whole numbers that a double holds. *)
Theorem getSummary_order_statistics (name : string) (mc : MetricsCollector)
    (s : Summary) :
  getSummary name mc = Some s ->
  exists metric,
    getMetric name mc = Some metric /\
    let vs := List.map mv_value (m_values metric) in
    let n := length vs in
    (1 <= n)%nat /\ s_count s = n /\
    (magnitude vs <= 2 ^ 53 -> s_sum s = fold_left Z.add vs 0) /\
    (s_min s <= s_p50 s /\ s_p50 s <= s_p95 s /\ s_p95 s <= s_p99 s /\
     s_p99 s <= s_max s) /\
    (forall v, In v vs -> s_min s <= v <= s_max s) /\
    List.Forall (fun q => In q vs) [s_min s; s_p50 s; s_p95 s; s_p99 s; s_max s] /\
    (n * 50 / 100 + 1 <= at_most (s_p50 s) vs)%nat /\
    (n * 95 / 100 + 1 <= at_most (s_p95 s) vs)%nat /\
    (n * 99 / 100 + 1 <= at_most (s_p99 s) vs)%nat.
Proof.
  intros H. unfold getSummary in H. unfold getMetric.
  destruct (mc !! name) as [metric |]; [| done].
  exists metric. split; [done |].
  destruct (m_values metric) as [| v0 rest] eqn:E; [done |]. rewrite <- E in H |- *.
  assert (1 <= length (List.map mv_value (m_values metric)))%nat as Hn
    by (rewrite E; simpl; lia).
  clear E v0 rest.
  set (vs := List.map mv_value (m_values metric)) in *.
  pose proof (merge_sort_Permutation Z.le vs) as Hperm.
  pose proof (StronglySorted_merge_sort Z.le vs) as Hsorted.
  pose proof (Permutation_length Hperm) as Hlen.
  set (sorted := merge_sort Z.le vs) in *.
  set (n := length vs) in *.
  assert (forall k, (k < 100)%nat -> (length sorted * k / 100 < length sorted)%nat)
    as Hidx by (intros k Hk; apply percentile_index; lia).
  pose proof (Hidx 50%nat ltac:(lia)) as H50.
  pose proof (Hidx 95%nat ltac:(lia)) as H95.
  pose proof (Hidx 99%nat ltac:(lia)) as H99.
  assert (forall i, (i < length sorted)%nat -> In (at_index sorted i) vs) as Hin.
  { intros i Hi. apply (Permutation_in _ Hperm). by apply nth_In. }
  assert (forall i j, (i <= j)%nat -> (j < length sorted)%nat ->
            at_index sorted i <= at_index sorted j) as Hle
    by (intros; by apply sorted_nth_le).
  assert (forall i, (i < length sorted)%nat ->
            (i + 1 <= at_most (at_index sorted i) vs)%nat) as Hrank.
  { intros i Hi. destruct (sorted_rank sorted Hsorted i Hi) as [Hr _].
    unfold at_most in *.
    by rewrite <- (filter_length_permutation _ _ _ Hperm). }
  assert (length sorted * 50 / 100 <= length sorted * 95 / 100)%nat as H5095
    by (apply Nat.Div0.div_le_mono; lia).
  assert (length sorted * 95 / 100 <= length sorted * 99 / 100)%nat as H9599
    by (apply Nat.Div0.div_le_mono; lia).
  apply (inj Some) in H. subst s.
  cbn [s_count s_sum s_avg s_min s_max s_p50 s_p95 s_p99].
  split; [exact Hn |]. split; [exact Hlen |].
  split; [exact (sorted_sum_exact vs) |].
  split.
  { repeat split; apply Hle; try assumption; lia. }
  split.
  { intros v Hv. apply (Permutation_in _ (Permutation_sym Hperm)) in Hv.
    apply (In_nth _ _ 0) in Hv as (i & Hi & <-).
    split; apply (sorted_nth_le sorted Hsorted); lia. }
  split.
  { repeat constructor; apply Hin; lia. }
  rewrite <- Hlen. repeat split; by apply Hrank.
Qed.

(** The theorem at work on a histogram of five durations. *)
Lemma getSummary_order_statistics_witness :
  let mc := observe 5 "job.duration" 40 None
              (observe 4 "job.duration" 10 None
                 (observe 3 "job.duration" 30 None
                    (observe 2 "job.duration" 20 None
                       (observe 1 "job.duration" 50 None ∅)))) in
  exists s, getSummary "job.duration" mc = Some s /\
            s_min s <= s_p50 s /\ s_p99 s <= s_max s.
Proof.
  intros mc.
  destruct (getSummary "job.duration" mc) as [s |] eqn:E;
    [| vm_compute in E; discriminate].
  exists s. split; [reflexivity |].
  destruct (getSummary_order_statistics "job.duration" mc s E)
    as (metric & _ & _ & _ & _ & (H1 & _ & _ & H4) & _).
  split; [exact H1 | exact H4].
Defined.

Section MetricsHistory.

Lemma calls_snoc cs c mc : calls (cs ++ [c]) mc = call c (calls cs mc).
Proof. unfold calls. by rewrite fold_left_app. Qed.

Lemma recordings_snoc name cs c acc :
  recordings name acc (cs ++ [c]) =
    match c with
    | CallRecord _ n type value _ =>
        if String.eqb n name
        then (recordings name acc cs ++ [(type, value)])%list
        else recordings name acc cs
    | CallReset => []
    end.
Proof.
  revert acc. induction cs as [| c0 cs IH]; intros acc; simpl.
  - by destruct c.
  - destruct c0; apply IH.
Qed.

Lemma call_record now name type value tags mc :
  call (CallRecord now name type value tags) mc = record now name type value tags mc.
Proof. by destruct type. Qed.

(** What the collector holds under a name after a run of calls: nothing
    when nothing was recorded under it since the last reset; otherwise
    the recorded values in order, under the kind of the first one. *)
Lemma calls_lookup name cs :
  match calls cs ∅ !! name with
  | None => recordings name [] cs = []
  | Some metric =>
      m_values metric <> [] /\
      List.map mv_value (m_values metric) = List.map snd (recordings name [] cs) /\
      Some (m_type metric) = fst <$> head (recordings name [] cs)
  end.
Proof.
  induction cs as [| c cs IH] using rev_ind; [done |].
  rewrite calls_snoc, recordings_snoc.
  destruct c as [now n type value tags |]; [| done].
  rewrite call_record.
  destruct (String.eqb_spec n name) as [-> | Hne];
    [| by rewrite record_lookup_ne].
  rewrite record_lookup.
  destruct (calls cs ∅ !! name) as [metric |]; simpl.
  - destruct IH as (Hne & Hv & Ht).
    split; [by destruct (m_values metric) |].
    split; [by rewrite !map_app, Hv |].
    destruct (recordings name [] cs) as [| r rs]; [| done].
    by destruct (m_values metric).
  - rewrite IH. done.
Qed.

End MetricsHistory.

Lemma counter_total_sum (metric : Metric) :
  counter_total metric =
    fold_left plus_number (List.map mv_value (m_values metric)) 0.
Proof.
  unfold counter_total. generalize 0.
  induction (m_values metric) as [| v vs IH]; intros a; simpl; [done | apply IH].
Qed.

Lemma last_map {A B} (f : A -> B) (l : list A) :
  last (List.map f l) = f <$> last l.
Proof.
  induction l as [| x l IH]; [done |].
  destruct l as [| y l]; [done |]. exact IH.
Qed.

(** X9: the collector over a run of calls.  Start from an empty collector
    and make any calls of [increment], [gauge], [histogram] and [reset].
    Then [getSummary(name)] is null exactly when nothing was recorded
    under the name since the last reset; otherwise its [count] is the
    number of values recorded under the name since then, whichever of the
    three methods recorded them, and the metric keeps the kind of the
    first of these recordings: later calls of another method add values
    and never change the kind.  The value that [print] shows for a gauge
    is the latest of these values.  As long as their absolute values add
    up to 2^53 at most, the [sum] of the summary and the total that
    [print] shows for a counter are both their exact sum. *)
Theorem collector_history (cs : list MetricCall) (name : string) :
  let mc := calls cs ∅ in
  let rs := recordings name [] cs in
  let small := magnitude (List.map snd rs) <= 2 ^ 53 in
  (getSummary name mc = None <-> rs = []) /\
  (forall s, getSummary name mc = Some s ->
     s_count s = length rs /\
     (small -> s_sum s = fold_left Z.add (List.map snd rs) 0)) /\
  m_type <$> getMetric name mc = fst <$> head rs /\
  (forall metric, getMetric name mc = Some metric ->
     gauge_latest metric = snd <$> last rs /\
     (small -> counter_total metric = fold_left Z.add (List.map snd rs) 0)).
Proof.
  intros mc rs small. pose proof (calls_lookup name cs) as Hl. fold mc rs in Hl.
  split; [| split; [| split]].
  - unfold getSummary. destruct (mc !! name) as [metric |].
    + destruct Hl as (Hne & Hv & _).
      destruct (m_values metric) as [| v0 vs] eqn:E; [done |].
      split; [done |]. intros ->. done.
    + done.
  - intros s Hs.
    destruct (getSummary_shape name mc s Hs) as (metric & Hm & _ & Hc & Hsum).
    rewrite Hm in Hl. destruct Hl as (_ & Hv & _).
    rewrite Hc, Hsum, Hv. split.
    + by rewrite <- (length_map mv_value), Hv, length_map.
    + exact (sorted_sum_exact _).
  - unfold getMetric. destruct (mc !! name) as [metric |]; simpl.
    + by destruct Hl as (_ & _ & <-).
    + by rewrite Hl.
  - unfold getMetric. intros metric Hm. rewrite Hm in Hl.
    destruct Hl as (_ & Hv & _). split.
    + unfold gauge_latest. by rewrite <- !last_map, Hv.
    + intros Hsmall. rewrite counter_total_sum, Hv.
      apply sum_exact. simpl. exact Hsmall.
Qed.

(** Beyond 2^53 the two sums part ways: the summary adds the values in
    sorted order, [print] in the order they were recorded.  For the
    values 2^53, 1, 1 the first gives 2^53 + 2 and the second 2^53. *)
Lemma sums_round_differently :
  let mc := increment 3 "jobs.done" 1 None
              (increment 2 "jobs.done" 1 None
                 (increment 1 "jobs.done" (2 ^ 53) None ∅)) in
  s_sum <$> getSummary "jobs.done" mc = Some 9007199254740994 /\
  counter_total <$> getMetric "jobs.done" mc = Some 9007199254740992.
Proof. split; vm_compute; reflexivity. Qed.

(** The rounding at work, on numbers whose doubles are known: whole
    numbers beyond 2^53 go to the nearest double, to the even mantissa on
    a tie, and quotients to 53 significant bits (7 / 25 is
    0.28000000000000002664..., 1 / 3 is 0.33333333333333331482...), so
    that the average times the count need not be the sum. *)
Lemma rounding_examples :
  List.map nearest_double
    [12345; 2 ^ 53; 2 ^ 53 + 1; 2 ^ 53 + 3; - (2 ^ 53 + 1); 2 ^ 54 + 2;
     2 ^ 54 + 6; 2 ^ 60 + 2 ^ 7; 2 ^ 60 + 2 ^ 7 + 1] =
    [12345; 2 ^ 53; 2 ^ 53; 2 ^ 53 + 4; - (2 ^ 53); 2 ^ 54;
     2 ^ 54 + 8; 2 ^ 60; 2 ^ 60 + 2 ^ 8] /\
  (divide 7 25 == 1261007895663739 # 4503599627370496)%Q /\
  (divide 1 3 == 6004799503160661 # 18014398509481984)%Q /\
  (divide 10 4 == 5 # 2)%Q /\
  (divide (-7) 3 == - (5254199565265579 # 2251799813685248))%Q /\
  (divide (2 ^ 53 + 2) 3 == 6004799503160663 # 2)%Q /\
  (divide (2 ^ 53 + 2) 7 == 5146971002709139 # 4)%Q /\
  (divide 100 100 == 1)%Q /\
  ~ (divide 7 25 * 25 == 7)%Q.
Proof.
  split; [vm_compute; reflexivity |].
  repeat split; try (vm_compute; reflexivity).
  vm_compute. discriminate.
Qed.

(* ===================================================================== *)
(** * The CRM and the sentiment analyzer *)
(* ===================================================================== *)

Section CollaboratorFacts.

Lemma includes_app_r (needle front back : string) :
  includes needle back = true -> includes needle (front +:+ back) = true.
Proof.
  intros H. induction front as [| c front IH]; simpl; [done |].
  rewrite IH. apply orb_true_r.
Qed.

Lemma Email_inj (i j : nat) :
  Email (salesforceRecord i) = Email (salesforceRecord j) -> i = j.
Proof.
  unfold salesforceRecord. cbn [Email]. intros H.
  apply (inj (String.append "customer")) in H.
  apply (f_equal chars) in H. rewrite !chars_app in H.
  apply app_inv_tail, chars_inj in H. by apply (inj pretty) in H.
Qed.

Lemma Id_inj (i j : nat) :
  Id (salesforceRecord i) = Id (salesforceRecord j) -> i = j.
Proof.
  unfold salesforceRecord. cbn [Id]. intros H.
  apply (inj (String.append "SF")), (inj pretty) in H. lia.
Qed.

End CollaboratorFacts.

(** X10: what [fetchSalesforceData] returns.  With the CRM enabled and a
    draw at or above the error rate the call returns 10 records when the
    lower-cased query contains "limit" and 100 otherwise; the records
    have pairwise distinct ids and pairwise distinct e-mail addresses,
    and every address passes the address check of [sendEmail].  This
    holds whatever [toLowerCase] does to the query. *)
Theorem fetchSalesforceData_records (toLowerCase : string -> string)
    (cfg : ServiceConfig) (rand : Q) (query : string) :
  svc_enabled cfg = true ->
  (svc_errorRate cfg <= rand)%Q ->
  exists records,
    fetchSalesforceData toLowerCase cfg rand query = Returns records /\
    length records =
      (if includes "limit" (toLowerCase query) then 10 else 100)%nat /\
    NoDup (List.map Id records) /\
    NoDup (List.map Email records) /\
    List.Forall (fun r => includes "@" (Email r) = true /\
                          includes "." (Email r) = true) records.
Proof.
  intros Hen Hrand. unfold fetchSalesforceData. rewrite Hen. simpl.
  destruct (Qlt_le_dec rand (svc_errorRate cfg)) as [Hlt | _]; [exfalso; lra |].
  eexists. split; [reflexivity |].
  set (count := if includes "limit" (toLowerCase query) then 10%nat else 100%nat).
  split; [by rewrite length_map, length_seq |].
  split; [| split].
  - rewrite map_map. apply NoDup_fmap_2_strong; [| apply NoDup_seq].
    intros i j _ _. apply Id_inj.
  - rewrite map_map. apply NoDup_fmap_2_strong; [| apply NoDup_seq].
    intros i j _ _. apply Email_inj.
  - apply List.Forall_forall. intros r Hr. apply in_map_iff in Hr as (i & <- & _).
    unfold salesforceRecord. cbn [Email].
    split; apply includes_app_r, includes_app_r; reflexivity.
Qed.

(** The theorem at work: the shipped configuration, a draw of one half, a
    query with a limit, and an identity [toLowerCase] (the query is in
    small letters already). *)
Lemma fetchSalesforceData_records_witness :
  exists records,
    fetchSalesforceData (fun s => s) salesforceConfig (1 # 2)
                        "select id, email from contact limit 10" = Returns records /\
    length records = 10%nat.
Proof.
  destruct (fetchSalesforceData_records (fun s => s) salesforceConfig (1 # 2)
              "select id, email from contact limit 10")
    as (records & Hrun & Hlen & _).
  - reflexivity.
  - vm_compute. discriminate.
  - exists records. split; [exact Hrun | exact Hlen].
Defined.

(** X11: the outcomes of the two other collaborators.  [analyzeSentiment]
    returns one of the three labels "positive", "negative", "neutral" and
    nothing else; its failures are [SentimentAPIError]s and those of
    [fetchSalesforceData] are [SalesforceError]s, which neither
    [isTransientError] nor [isPermanentError] accepts; and each fails
    whenever it is disabled, whatever the draw. *)
Theorem collaborator_outcomes (toLowerCase : string -> string)
    (cfg : ServiceConfig) (rand : Q) (input : string) :
  match analyzeSentiment toLowerCase cfg rand input with
  | Returns label => label = "positive" \/ label = "negative" \/ label = "neutral"
  | Throws e =>
      name e = "SentimentAPIError" /\
      isTransientError e = false /\ isPermanentError e = false
  end /\
  match fetchSalesforceData toLowerCase cfg rand input with
  | Returns records => svc_enabled cfg = true
  | Throws e =>
      name e = "SalesforceError" /\
      isTransientError e = false /\ isPermanentError e = false
  end /\
  (svc_enabled cfg = false ->
   analyzeSentiment toLowerCase cfg rand input =
     Throws (SentimentAPIError "Sentiment API is disabled") /\
   fetchSalesforceData toLowerCase cfg rand input =
     Throws (SalesforceError "Salesforce API is disabled")).
Proof.
  unfold analyzeSentiment, fetchSalesforceData.
  destruct (svc_enabled cfg); simpl; [| done].
  destruct (Qlt_le_dec rand (svc_errorRate cfg)); simpl; [done |].
  split; [| done].
  destruct (_ <? _)%nat; [by left |].
  destruct (_ <? _)%nat; [by right; left | by right; right].
Qed.

(* ===================================================================== *)
(** * lib/orm.ts: field names and column names *)
(* ===================================================================== *)

Section NamingFacts.

Ltac each_char c :=
  destruct c as [[] [] [] [] [] [] [] []]; vm_compute; try done.

Lemma upper_lower (c : ascii) :
  is_upper c = true -> is_lower (to_lower c) = true /\ to_upper (to_lower c) = c.
Proof. each_char c. Qed.

Lemma lower_upper (c : ascii) :
  is_lower c = true -> is_upper (to_upper c) = true /\ to_lower (to_upper c) = c.
Proof. each_char c. Qed.

Lemma upper_not_underscore (c : ascii) :
  is_upper c = true -> Ascii.eqb c "_" = false /\ is_lower c = false.
Proof. each_char c. Qed.

Lemma lower_not_upper (c : ascii) :
  is_lower c = true -> is_upper c = false /\ Ascii.eqb c "_" = false.
Proof. each_char c. Qed.

Lemma underscore_plain (c : ascii) :
  Ascii.eqb c "_" = true -> c = "_"%char.
Proof. by intros ->%Ascii.eqb_eq. Qed.

(** [toCamelCase (toSnakeCase s)], one character at a time. *)
Lemma camel_snake_cons (c : ascii) (rest : string) :
  toCamelCase (toSnakeCase (String c rest)) =
    if Ascii.eqb c "_" then
      match rest with
      | String letter rest' =>
          if is_lower letter
          then String (to_upper letter) (toCamelCase (toSnakeCase rest'))
          else String c (toCamelCase (toSnakeCase rest))
      | EmptyString => String c EmptyString
      end
    else String c (toCamelCase (toSnakeCase rest)).
Proof.
  cbn [toSnakeCase]. destruct (is_upper c) eqn:Hup.
  - destruct (upper_not_underscore c Hup) as [-> _].
    destruct (upper_lower c Hup) as [Hl Hu].
    cbn [toCamelCase]. by rewrite Ascii.eqb_refl, Hl, Hu.
  - destruct (Ascii.eqb c "_") eqn:Hus.
    + apply underscore_plain in Hus as ->.
      destruct rest as [| letter rest']; [done |].
      cbn [toSnakeCase]. destruct (is_upper letter) eqn:Hup'.
      * destruct (upper_not_underscore letter Hup') as [_ ->].
        cbn [toCamelCase]. rewrite !Ascii.eqb_refl.
        change (is_lower "_") with false. cbv iota.
        destruct (upper_lower letter Hup') as [-> ->]. done.
      * cbn [toCamelCase]. rewrite Ascii.eqb_refl.
        destruct (is_lower letter) eqn:Hlow; [done |].
        cbn [toSnakeCase toCamelCase]. done.
    + cbn [toCamelCase]. by rewrite Hus.
Qed.

Lemma count_upper_has_upper (str : string) :
  count_upper str = 0%nat <-> has_upper str = false.
Proof.
  induction str as [| c rest IH]; simpl; [done |].
  destruct (is_upper c); simpl; [split; [lia | done] | exact IH].
Qed.

Lemma snake_length (str : string) :
  String.length (toSnakeCase str) = (String.length str + count_upper str)%nat.
Proof.
  induction str as [| c rest IH]; simpl; [done |].
  destruct (is_upper c); simpl; rewrite IH; lia.
Qed.

(** Two steps of [toCamelCase] at once, for inductions that follow it. *)
Lemma string_pair_ind (P : string -> Prop) :
  P EmptyString ->
  (forall c, P (String c EmptyString)) ->
  (forall c d rest, P rest -> P (String d rest) -> P (String c (String d rest))) ->
  forall str, P str.
Proof.
  intros H0 H1 H2 str.
  assert (P str /\ forall c, P (String c str)) as [H _]; [| exact H].
  induction str as [| d rest [IH1 IH2]].
  - split; [exact H0 | exact H1].
  - split; [apply IH2 |]. intros c. apply H2; [exact IH1 | apply IH2].
Qed.

(** [toCamelCase], one step. *)
Lemma camel_cons (c d : ascii) (rest : string) :
  toCamelCase (String c (String d rest)) =
    if Ascii.eqb c "_" && is_lower d
    then String (to_upper d) (toCamelCase rest)
    else String c (toCamelCase (String d rest)).
Proof.
  cbn [toCamelCase]. destruct (Ascii.eqb c "_"); [| done].
  by destruct (is_lower d).
Qed.

Lemma camel_measure (str : string) :
  (String.length (toCamelCase str) + count_upper (toCamelCase str) =
   String.length str + count_upper str)%nat.
Proof.
  induction str as [| c | c d rest IH1 IH2] using string_pair_ind.
  - done.
  - simpl. destruct (Ascii.eqb c "_"); simpl; lia.
  - rewrite camel_cons. destruct (Ascii.eqb c "_" && is_lower d) eqn:Hpair.
    + apply andb_true_iff in Hpair as [->%underscore_plain Hlow].
      destruct (lower_upper d Hlow) as [Hup _].
      destruct (lower_not_upper d Hlow) as [Hnu _].
      cbn [String.length count_upper]. rewrite Hup, Hnu.
      change (is_upper "_") with false. cbv iota. lia.
    + cbn [String.length count_upper] in IH2 |- *. lia.
Qed.

End NamingFacts.

(** X12: column names survive the round trip through field names exactly
    when they hold no capital letter:
    [toSnakeCase (toCamelCase t) = t] if and only if [t] has no letter in
    A-Z.  Every column name of the schema is such a name. *)
Theorem snake_of_camel (t : string) :
  toSnakeCase (toCamelCase t) = t <-> has_upper t = false.
Proof.
  split.
  - intros H. apply count_upper_has_upper.
    pose proof (snake_length (toCamelCase t)) as Hlen.
    rewrite H, camel_measure in Hlen. lia.
  - induction t as [| c | c d rest IH1 IH2] using string_pair_ind.
    + done.
    + simpl. rewrite orb_false_r. intros Hc.
      destruct (Ascii.eqb c "_"); simpl; by rewrite Hc.
    + intros Hup. cbn [has_upper] in Hup.
      apply orb_false_iff in Hup as [Hc Hrest].
      pose proof Hrest as Hrest'. cbn [has_upper] in Hrest'.
      apply orb_false_iff in Hrest' as [Hd Hr].
      rewrite camel_cons. destruct (Ascii.eqb c "_" && is_lower d) eqn:Hpair.
      * apply andb_true_iff in Hpair as [->%underscore_plain Hlow].
        destruct (lower_upper d Hlow) as [Hu Hl].
        cbn [toSnakeCase]. rewrite Hu, Hl. by rewrite (IH1 Hr).
      * cbn [toSnakeCase]. rewrite Hc. by rewrite (IH2 Hrest).
Qed.

(** X13: field names survive the round trip through column names exactly
    when they hold no underscore followed by a small letter:
    [toCamelCase (toSnakeCase s) = s] if and only if [s] has no such
    pair.  A field named "job_id" is written to column "job_id" and read
    back as "jobId". *)
Theorem camel_of_snake (s : string) :
  toCamelCase (toSnakeCase s) = s <-> has_snake_pair s = false.
Proof.
  induction s as [| c rest IH]; [done |].
  rewrite camel_snake_cons. cbn [has_snake_pair].
  destruct (Ascii.eqb c "_") eqn:Hus.
  - apply underscore_plain in Hus as ->.
    destruct rest as [| letter rest']; [done |].
    destruct (is_lower letter) eqn:Hlow.
    + destruct (lower_upper letter Hlow) as [Hu _].
      destruct (upper_not_underscore _ Hu) as [Hne _].
      simpl. split; [| done]. intros [= Heq _].
      rewrite Heq in Hne. done.
    + simpl orb. destruct IH as [IH1 IH2].
      split; [intros [= Heq]; by apply IH1 | intros H; f_equal; by apply IH2].
  - assert (match rest with
            | String letter _ => false && is_lower letter
            | EmptyString => false
            end = false) as -> by (by destruct rest).
    simpl orb. destruct IH as [IH1 IH2].
      split; [intros [= Heq]; by apply IH1 | intros H; f_equal; by apply IH2].
Qed.

Lemma set_property_fresh {A} key (value : A) result :
  ~ In key (List.map fst result) ->
  set_property key value result = (result ++ [(key, value)])%list.
Proof.
  induction result as [| [k v] rest IH]; simpl; [done |].
  intros Hnot. destruct (String.eqb_spec k key) as [-> | _]; [tauto |].
  rewrite IH; [done | tauto].
Qed.

Section RowFacts.

Variable parses : string -> bool.

Lemma deserialize_fold row result :
  List.NoDup (List.map fst result ++ List.map (fun kv => toCamelCase kv.1) row) ->
  fold_left
    (fun result kv =>
       set_property (toCamelCase kv.1) (deserializeCell parses kv.1 kv.2) result)
    row result =
  (result ++
   List.map (fun kv => (toCamelCase kv.1, deserializeCell parses kv.1 kv.2)) row)%list.
Proof.
  revert result. induction row as [| [k v] row IH]; intros result Hnd; simpl.
  - by rewrite app_nil_r.
  - simpl in Hnd. rewrite set_property_fresh.
    + rewrite IH.
      * by rewrite <- app_assoc.
      * rewrite map_app. simpl. rewrite <- app_assoc. simpl.
        apply NoDup_remove_1 in Hnd as Hrest. apply NoDup_remove_2 in Hnd.
        apply List.NoDup_app_remove_l in Hrest as Hrow.
        clear IH. 
        assert (forall (a : string) l1 l2,
                  List.NoDup (l1 ++ l2) -> ~ In a (l1 ++ l2) ->
                  List.NoDup (l1 ++ a :: l2)) as Hins.
        { intros a l1. induction l1 as [| x l1 IHl]; intros l2 H1 H2; simpl in *.
          - by constructor.
          - inversion H1 as [| ? ? Hx Hl]; subst. constructor.
            + rewrite in_app_iff in *. simpl. intros [? | [-> | ?]]; tauto.
            + apply IHl; [done | tauto]. }
        by apply Hins.
    + apply NoDup_remove_2 in Hnd. rewrite in_app_iff in Hnd. tauto.
Qed.

(** A row whose columns get distinct field names is converted column by
    column. *)
Lemma deserializeRow_distinct row :
  List.NoDup (List.map (fun kv => toCamelCase kv.1) row) ->
  deserializeRow parses row =
    List.map (fun kv => (toCamelCase kv.1, deserializeCell parses kv.1 kv.2)) row.
Proof. intros Hnd. unfold deserializeRow. by rewrite deserialize_fold. Qed.

End RowFacts.

(** X14: what [deserializeRow] makes of a row of [jobs].  The object has
    the thirteen fields of the [Job] interface, in the order of the
    columns.  The columns [created_at], [started_at], [completed_at] and
    [scheduled_for] become a [Date] when the stored value is truthy and
    null otherwise; every other column keeps the stored value as it is.
    This includes [last_heartbeat], which the interface declares as a
    [Date]: it is handed out as the stored text. *)
Theorem deserializeRow_jobs (parses : string -> bool)
    (row : list (string * SqlValue)) :
  List.map fst row = jobs_columns ->
  List.map fst (deserializeRow parses row) = job_fields /\
  List.map snd (deserializeRow parses row) =
    List.map
      (fun kv =>
         if bool_decide (kv.1 ∈ ["created_at"; "started_at"; "completed_at";
                                 "scheduled_for"])
         then (if truthy_value kv.2 then JsDate kv.2 else JsNull)
         else plain kv.2) row /\
  (forall text, In ("last_heartbeat", SqlText text) row ->
     In ("lastHeartbeat", JsString text) (deserializeRow parses row)).
Proof.
  intros Hcols.
  assert (List.map (fun kv : string * SqlValue => toCamelCase kv.1) row = job_fields)
    as Hfields.
  { change (fun kv : string * SqlValue => toCamelCase kv.1)
      with (fun kv : string * SqlValue => toCamelCase (fst kv)).
    by rewrite <- (map_map fst toCamelCase), Hcols. }
  rewrite deserializeRow_distinct.
  2: { rewrite Hfields. apply NoDup_ListNoDup, (bool_decide_unpack _).
       vm_compute. reflexivity. }
  assert (forall key value, In (key, value) row ->
            deserializeCell parses key value =
              if bool_decide (key ∈ ["created_at"; "started_at"; "completed_at";
                                     "scheduled_for"])
              then (if truthy_value value then JsDate value else JsNull)
              else plain value) as Hcell.
  { intros key value Hin.
    assert (In key jobs_columns) as Hkey
      by (rewrite <- Hcols; apply (in_map fst _ _ Hin)).
    unfold jobs_columns in Hkey. simpl in Hkey.
    do 13 (destruct Hkey as [<- | Hkey];
           [cbv -[truthy_value plain]; by destruct value |]).
    destruct Hkey. }
  split; [| split].
  - rewrite map_map. exact Hfields.
  - rewrite map_map. apply map_ext_in. intros [key value] Hin. simpl.
    by apply Hcell.
  - intros text Hin.
    apply in_map_iff. exists ("last_heartbeat", SqlText text). split; [| done].
    reflexivity.
Qed.

(** The theorem at work on the row of a job that worker-1 is running. *)
Lemma deserializeRow_jobs_witness :
  let row := [("id", SqlInteger 1); ("campaign_id", SqlInteger 1);
              ("customer_email", SqlText "test1@example.com");
              ("current_step", SqlInteger 0); ("status", SqlInteger 1);
              ("worker_id", SqlText "worker-1"); ("retry_count", SqlInteger 0);
              ("created_at", SqlText "2024-01-01 10:00:00");
              ("started_at", SqlText "2024-01-01 10:00:05");
              ("completed_at", SqlNull); ("error_message", SqlNull);
              ("scheduled_for", SqlNull);
              ("last_heartbeat", SqlText "2024-01-01 10:00:30")] in
  In ("lastHeartbeat", JsString "2024-01-01 10:00:30")
     (deserializeRow (fun _ => true) row).
Proof.
  intros row.
  refine (proj2 (proj2 (deserializeRow_jobs (fun _ => true) row _)) _ _).
  - reflexivity.
  - do 12 right. left. reflexivity.
Defined.

(* ===================================================================== *)
(** * lib/database.ts: the depth counter after a failed commit *)
(* ===================================================================== *)

(** X15: a callback that ends the SQL transaction itself poisons the
    wrapper.  The wrapper's own [COMMIT] then fails inside the [try], the
    [catch] block decrements the counter a second time, and the error is
    re-raised with [transactionDepth] left at -1.  From then on a
    [transaction] around a callback that keeps the counter where it found
    it issues no [BEGIN], [COMMIT] or [ROLLBACK]: it is the callback
    alone, so what a throwing callback wrote stays. *)
Theorem transaction_after_failed_commit {T U} (ender : M T) (callback : M U)
    (w w1 : World) (r : T) :
  idle w ->
  ender (entered w) = (Returns r, w1) ->
  open (db w1) = None ->
  transactionDepth w1 = 1 ->
  transaction ender w = (Throws commit_refused, with_depth (-1) w1) /\
  (transactionDepth (callback (with_depth 0 w1)).2 = 0 ->
   transaction callback (with_depth (-1) w1) =
     ((callback (with_depth 0 w1)).1,
      with_depth (-1) (callback (with_depth 0 w1)).2)).
Proof.
  intros [Hd Ho] Hend Hopen Hdepth. split.
  - destruct w as [[cm op] d]. simpl in Hd, Ho. subst d op.
    unfold transaction, bind, try_catch, get_depth, set_depth, when, BEGIN, ret,
      throw. simpl.
    unfold entered in Hend. simpl in Hend.
    change (with_depth (0 + 1) (with_db {| committed := cm; open := Some cm |}
                                  {| db := {| committed := cm; open := None |};
                                     transactionDepth := 0 |}))
      with {| db := {| committed := cm; open := Some cm |}; transactionDepth := 1 |}.
    rewrite Hend. simpl. rewrite Hdepth. simpl.
    unfold COMMIT. simpl. rewrite Hopen. simpl. done.
  - intros Hkeep.
    unfold transaction, bind, try_catch, get_depth, set_depth, when, ret, throw.
    simpl.
    change (with_depth (-1 + 1) (with_depth (-1) w1)) with (with_depth 0 w1).
    destruct (callback (with_depth 0 w1)) as [[result | error] [db2 d2]];
      simpl in Hkeep; subst d2; reflexivity.
Qed.

(** The theorem at work.  The first callback rolls the transaction back
    by hand; the wrapper fails and leaves the counter at -1.  The second
    callback records the ledger row of job 1 and then throws: the row is
    committed all the same. *)
Lemma transaction_after_failed_commit_witness :
  let w := world_of (store_with [job1] []) in
  let bad := (run! JobStepModel_create 0 (step_record 1 JobStepName.SendEmail);
              throw (PlainError "Database error")) : M unit in
  exists w1,
    transaction ROLLBACK w = (Throws commit_refused, w1) /\
    transactionDepth w1 = -1 /\
    (transaction bad w1).1 = Throws (PlainError "Database error") /\
    length (job_steps (committed (db (transaction bad w1).2))) = 1%nat.
Proof.
  intros w bad.
  destruct (transaction_after_failed_commit ROLLBACK bad w
              {| db := db w; transactionDepth := 1 |} tt)
    as [Hfirst Hnext].
  - split; reflexivity.
  - reflexivity.
  - reflexivity.
  - reflexivity.
  - eexists. split; [exact Hfirst |]. split; [reflexivity |].
    rewrite Hnext by reflexivity. split; reflexivity.
Defined.

(* ===================================================================== *)
(** * lib/orm.ts: saving and deleting ledger rows *)
(* ===================================================================== *)

Section SaveFacts.

Lemma put_visible (w : World) : with_db (put (visible (db w)) (db w)) w = w.
Proof. destruct w as [[cm [s |]] d]; reflexivity. Qed.

Lemma with_job_steps_same (s : Store) :
  with_job_steps (job_steps s) (job_steps_seq s) s = s.
Proof. by destruct s. Qed.

(** An [UPDATE] whose condition no row meets changes no row. *)
Lemma update_rows_none cond a todo :
  forallb (fun r => negb (cond r)) todo = true ->
  forall done, update_rows cond a done todo = inr ((done ++ todo)%list, 0).
Proof.
  induction todo as [| r rest IH]; intros Hnone done; simpl.
  - by rewrite app_nil_r.
  - simpl in Hnone. apply andb_true_iff in Hnone as [Hr Hrest].
    apply negb_true_iff in Hr. rewrite Hr, (IH Hrest).
    by rewrite <- app_assoc.
Qed.

Lemma id_taken_forallb i rows :
  id_taken i rows = false ->
  forallb (fun r => negb (js_id r =? i)) rows = true.
Proof.
  unfold id_taken. induction rows as [| r rows IH]; simpl; [done |].
  intros [-> Hrest]%orb_false_iff. simpl. by apply IH.
Qed.

Lemma max_id_bound (rows : list JobStepRow) :
  0 <= fold_right Z.max 0 (List.map js_id rows) /\
  forall r, In r rows -> js_id r <= fold_right Z.max 0 (List.map js_id rows).
Proof.
  induction rows as [| r0 rows [IH0 IH]]; simpl; [split; [lia | tauto] |].
  split; [lia |]. intros r [-> | Hin]; [lia |]. specialize (IH r Hin). lia.
Qed.

Lemma next_rowid_fresh (s : Store) :
  1 <= next_rowid s /\ job_steps_seq s < next_rowid s /\
  id_taken (next_rowid s) (job_steps s) = false.
Proof.
  unfold next_rowid. destruct (max_id_bound (job_steps s)) as [H0 Hall].
  split; [lia |]. split; [lia |].
  unfold id_taken. apply not_true_is_false. intros Hex.
  apply existsb_exists in Hex as (r & Hin & Heq). apply Z.eqb_eq in Heq.
  specialize (Hall r Hin). lia.
Qed.

Lemma filter_other_ids i rows :
  id_taken i rows = false ->
  List.filter (fun r => negb (js_id r =? i)) rows = rows.
Proof.
  unfold id_taken. induction rows as [| r rows IH]; simpl; [done |].
  intros [-> Hrest]%orb_false_iff. simpl. by rewrite IH.
Qed.

End SaveFacts.

(** X16: [save] never inserts when the data carries a truthy id.  If no
    row of [job_steps] has that id, the call returns the data as if it
    had been stored and the database is exactly as before, whatever the
    other fields hold: a null status or a job that does not exist goes
    unnoticed. *)
Theorem save_unknown_id (now : Z) (data : JobStepData) (i : Z) (w : World) :
  d_id data = Val i ->
  i <> 0 ->
  id_taken i (job_steps (visible (db w))) = false ->
  save now data w = (Returns data, w).
Proof.
  intros Hid Hnz Hfree. unfold save. rewrite Hid.
  destruct (Z.eqb_spec i 0) as [| _]; [done |].
  destruct (no_assignment data); [done |].
  unfold bind.
  rewrite (executeSql_success _ w {| changes := 0; lastInsertRowid := None |}
             (visible (db w))).
  - by rewrite put_visible.
  - unfold update_job_steps.
    rewrite (update_rows_none _ _ _ (id_taken_forallb _ _ Hfree)). simpl.
    rewrite with_job_steps_same.
    by destruct (d_jobId data).
Qed.

(** The theorem at work: a record with id 999, a null status and a job
    that does not exist, saved to a database that holds one ledger row. *)
Lemma save_unknown_id_witness :
  let data := {| d_id := Val 999; d_jobId := Val 42;
                 d_stepName := Val JobStepName.Analyze; d_status := Null;
                 d_outputData := Omitted; d_startedAt := Omitted;
                 d_completedAt := Omitted |} in
  let w := world_of (store_with [job1] [ledger1]) in
  save 0 data w = (Returns data, w).
Proof.
  intros data w. apply (save_unknown_id 0 data 999 w); [reflexivity | lia |].
  reflexivity.
Defined.

(** X17: create, then delete.  When [JobStepModel.create] succeeds for
    data without an id, the id it returns is the next row id of the table
    as the connection sees it: above the id of every row there and above
    the table's [AUTOINCREMENT] counter, so no row has it.  Deleting the
    returned record then succeeds and leaves the rows of [job_steps]
    exactly as they were before the create, but the counter has moved:
    the next row id is the one after the id returned.  The counter is
    data of the database like the rows: when the same create runs inside
    an outermost [transaction] whose callback then throws, the rollback
    leaves the module exactly as it was, counter included, so the next
    create is handed the same id again. *)
Theorem create_then_delete (now : Z) (data created : JobStepData) (w w1 : World) :
  d_id data = Omitted ->
  JobStepModel_create now data w = (Returns created, w1) ->
  let before := visible (db w) in
  (exists i,
     d_id created = Val i /\
     i = next_rowid before /\
     (forall row, In row (job_steps before) -> js_id row < i) /\
     id_taken i (job_steps before) = false /\ job_steps_seq before < i /\
     exists w2,
       BaseModel_delete created w1 = (Returns tt, w2) /\
       job_steps (visible (db w2)) = job_steps before /\
       next_rowid (visible (db w2)) = i + 1) /\
  (forall error,
     idle w ->
     transaction (run! JobStepModel_create now data; throw error) w =
       (@Throws unit error, w)).
Proof.
  intros Hid Hrun before. unfold JobStepModel_create, save in Hrun.
  rewrite Hid in Hrun. simpl in Hrun.
  destruct (no_assignment data) eqn:Hsome; [discriminate |].
  unfold bind in Hrun.
  destruct (insert_job_step now (columns data) (visible (db w)))
    as [e | [info s1]] eqn:Hins.
  { rewrite (executeSql_failure _ _ _ Hins) in Hrun. discriminate. }
  split.
  - rewrite (executeSql_success _ _ _ _ Hins) in Hrun.
    unfold ret in Hrun. simpl in Hrun.
    destruct (next_rowid_fresh before) as (Hpos & Hseq & Hfree).
    unfold insert_job_step in Hins. fold before in Hins.
    assert (c_id (columns data) = Omitted) as Hcid by (simpl; exact Hid).
    rewrite Hcid in Hins.
    destruct (c_job_id (columns data)) as [| | j]; try discriminate.
    destruct (c_step_name (columns data)) as [| | n]; try discriminate.
    destruct (c_status (columns data)) as [| | st]; try discriminate.
    rewrite Hfree in Hins.
    destruct (key_taken j n (job_steps before)); [discriminate |].
    destruct (negb (job_exists j before)); [discriminate |].
    apply (inj inr) in Hins. apply pair_equal_spec in Hins as [<- <-].
    simpl in Hrun. apply pair_equal_spec in Hrun as [Hc <-].
    assert (with_id (Val (next_rowid before)) data = created) as <-
      by congruence.
    clear Hc.
    exists (next_rowid before). simpl.
    split; [done |]. split; [done |].
    split.
    { intros row Hrow. unfold next_rowid.
      destruct (max_id_bound (job_steps before)) as [_ Hall].
      specialize (Hall row Hrow). lia. }
    split; [exact Hfree |]. split; [exact Hseq |].
    unfold BaseModel_delete. simpl.
    destruct (Z.eqb_spec (next_rowid before) 0) as [Hz | _]; [lia |].
    unfold bind. erewrite executeSql_success by reflexivity.
    eexists. split; [reflexivity |].
    assert (forall c s, visible (put s c) = s) as Hvis
      by (intros [cm [o |]] s; reflexivity).
    simpl. rewrite !Hvis. simpl.
    rewrite List.filter_app. simpl. rewrite Z.eqb_refl. simpl.
    rewrite app_nil_r, (filter_other_ids _ _ Hfree).
    split; [done |].
    unfold next_rowid. simpl.
    destruct (max_id_bound (job_steps before)) as [H0 _]. lia.
  - intros error Hidle.
    assert (scoped (run! JobStepModel_create now data; @throw unit error)%js)
      as Hscoped
      by (apply scoped_bind; [apply scoped_save | intros; apply scoped_throw]).
    rewrite (transaction_outermost _ w Hscoped Hidle).
    destruct Hidle as [_ Hopen].
    unfold bind, JobStepModel_create, save. rewrite Hid. simpl. rewrite Hsome.
    unfold bind.
    assert (visible (db (entered w)) = visible (db w)) as Hsame
      by (unfold visible, entered; simpl; by rewrite Hopen).
    rewrite <- Hsame in Hins.
    by rewrite (executeSql_success _ _ _ _ Hins).
Qed.

(** The theorem at work: the ledger row of job 1, created in an empty
    ledger and deleted again; the next id is 2.  Created inside a
    transaction that throws, the row leaves no trace, and the create that
    follows is handed id 1 once more. *)
Lemma create_then_delete_witness :
  let w := world_of (store_with [job1] []) in
  let data := step_record 1 JobStepName.SendEmail in
  (exists created w1 w2,
     JobStepModel_create 0 data w = (Returns created, w1) /\
     d_id created = Val 1 /\
     BaseModel_delete created w1 = (Returns tt, w2) /\
     job_steps (visible (db w2)) = [] /\
     next_rowid (visible (db w2)) = 2) /\
  (let rolled :=
     transaction (run! JobStepModel_create 0 data; throw (PlainError "boom")) w in
   rolled = (@Throws unit (PlainError "boom"), w) /\
   d_id <$> match (JobStepModel_create 0 data rolled.2).1 with
            | Returns again => Some again
            | Throws _ => None
            end = Some (Val 1)).
Proof.
  intros w data.
  destruct (JobStepModel_create 0 data w) as [[created | e] w1] eqn:Hrun;
    [| vm_compute in Hrun; discriminate].
  destruct (create_then_delete 0 data created w w1 eq_refl Hrun)
    as [(i & Hi & Hnext & _ & _ & _ & w2 & Hdel & Hrows & Hseq) Hroll].
  split.
  - exists created, w1, w2.
    assert (i = 1) as -> by (rewrite Hnext; reflexivity).
    repeat split; [exact Hi | exact Hdel | exact Hrows | exact Hseq].
  - rewrite (Hroll (PlainError "boom")) by (split; reflexivity).
    split; [reflexivity |]. vm_compute. reflexivity.
Defined.

(* ===================================================================== *)
(** * lib/orm.ts: the queries the builder hands to the database *)
(* ===================================================================== *)

Section QueryFacts.

Import Query.

Lemma count_char_app c (s t : string) :
  count_char c (s +:+ t) = (count_char c s + count_char c t)%nat.
Proof. induction s as [| d s IH]; simpl; [done | rewrite IH; lia]. Qed.

Lemma count_char_snake (str : string) :
  count_char "?" (toSnakeCase str) = count_char "?" str.
Proof.
  induction str as [| c rest IH]; simpl; [done |].
  destruct (is_upper c) eqn:Hup; simpl; rewrite IH; [| done].
  destruct c as [[] [] [] [] [] [] [] []]; vm_compute in Hup |- *;
    (done || discriminate).
Qed.

Lemma count_char_digits (cs : string) :
  Forall (fun c => is_digit c = true \/ c = "-"%char) (chars cs) ->
  count_char "?" cs = 0%nat.
Proof.
  induction cs as [| c rest IH]; simpl; [done |].
  intros [Hc Hrest]%Forall_cons. rewrite (IH Hrest).
  destruct Hc as [Hd | ->]; [| done].
  destruct c as [[] [] [] [] [] [] [] []]; vm_compute in Hd |- *;
    (done || discriminate).
Qed.

Lemma count_char_pretty (n : Z) : count_char "?" (pretty n) = 0%nat.
Proof.
  apply count_char_digits.
  destruct (pretty_Z_shape n) as (sign & d & -> & Hsign & Hd & _).
  apply Forall_app. split.
  - destruct Hsign as [-> | ->]; [constructor |].
    constructor; [by right | constructor].
  - eapply Forall_impl; [exact Hd |]. by left.
Qed.

Lemma count_char_join (parts : list string) (separator : string) :
  count_char "?" separator = 0%nat ->
  Forall (fun part => count_char "?" part = 1%nat) parts ->
  count_char "?" (join separator parts) = length parts.
Proof.
  intros Hsep. induction 1 as [| part rest Hpart Hrest IH]; [done |].
  destruct rest as [| next rest]; [simpl in *; lia |].
  change (join separator (part :: next :: rest))
    with (part +:+ separator +:+ join separator (next :: rest)).
  rewrite !count_char_app, Hsep, Hpart, IH. simpl. lia.
Qed.

Lemma placeholders_count (entries : list (string * Value)) :
  Forall (fun kv => count_char "?" kv.1 = 0%nat) entries ->
  Forall (fun part => count_char "?" part = 1%nat) (placeholders entries).
Proof.
  intros H. unfold placeholders. apply Forall_fmap.
  eapply Forall_impl; [exact H |]. intros [k v] Hk. simpl in *.
  by rewrite count_char_app, count_char_snake, Hk.
Qed.

Lemma placeholders_length (entries : list (string * Value)) :
  length (placeholders entries) = length entries.
Proof. unfold placeholders. apply length_map. Qed.

Lemma parameters_length toISOString (entries : list (string * Value)) :
  length (parameters toISOString entries) = length entries.
Proof. unfold parameters. apply length_map. Qed.

Lemma buildWhere_count toISOString (q : QuerySet) :
  Forall (fun kv => count_char "?" kv.1 = 0%nat) (qs_conditions q) ->
  count_char "?" (buildWhere toISOString q).1 =
    length (buildWhere toISOString q).2.
Proof.
  intros Hkeys. unfold buildWhere. cbn [fst snd].
  rewrite parameters_length, placeholders_length.
  destruct (qs_conditions q) as [| kv rest] eqn:E; [done |]. rewrite <- E in *.
  replace (0 <? length (qs_conditions q))%nat with true
    by (rewrite E; reflexivity).
  rewrite count_char_app, count_char_join; [| done | by apply placeholders_count].
  by rewrite placeholders_length.
Qed.

Lemma placeholders_values (f : Value -> Value) (entries : list (string * Value)) :
  placeholders (List.map (fun kv => (kv.1, f kv.2)) entries) = placeholders entries.
Proof. unfold placeholders. rewrite map_map. done. Qed.

Lemma set_property_keys {A} key (value : A) result :
  List.NoDup (List.map fst result) ->
  List.NoDup (List.map fst (set_property key value result)) /\
  (forall k, In k (List.map fst (set_property key value result)) <->
             k = key \/ In k (List.map fst result)).
Proof.
  induction result as [| [k0 v0] rest IH]; simpl.
  - intros _. split; [repeat constructor; tauto |]. intros k. intuition.
  - intros Hnd. inversion Hnd as [| ? ? Hnot Hrest]; subst.
    destruct (String.eqb_spec k0 key) as [-> | Hne]; simpl.
    + split; [done |]. intros k. intuition.
    + destruct (IH Hrest) as [IHnd IHin]. split.
      * constructor; [| exact IHnd]. rewrite IHin. intros [-> | ?]; tauto.
      * intros k. rewrite IHin. intuition.
Qed.

Lemma get_set_property {A} key (value : A) result k :
  get_property k (set_property key value result) =
    if String.eqb key k then Some value else get_property k result.
Proof.
  induction result as [| [k0 v0] rest IH]; simpl.
  - done.
  - destruct (String.eqb_spec k0 key) as [-> | Hne]; simpl.
    + by destruct (String.eqb_spec key k).
    + rewrite IH. destruct (String.eqb_spec k0 k) as [-> | _]; [| done].
      by destruct (String.eqb_spec key k) as [-> | _].
Qed.

Lemma get_property_None {A} k (object : list (string * A)) :
  get_property k object = None <-> ~ In k (List.map fst object).
Proof.
  induction object as [| [k0 v0] rest IH]; simpl; [tauto |].
  destruct (String.eqb_spec k0 k) as [-> | Hne]; [split; [done | tauto] |].
  rewrite IH. tauto.
Qed.

(** Copying the properties of a list with distinct names, one by one,
    onto an object. *)
Lemma fold_set_property {A} (entries result : list (string * A)) :
  List.NoDup (List.map fst result) ->
  List.NoDup (List.map fst entries) ->
  let copied :=
    fold_left (fun result kv => set_property kv.1 kv.2 result) entries result in
  List.NoDup (List.map fst copied) /\
  forall k, get_property k copied =
              match get_property k entries with
              | Some v => Some v
              | None => get_property k result
              end.
Proof.
  revert result. induction entries as [| [k0 v0] entries IH]; intros result Hr He.
  - simpl. by split.
  - simpl. inversion He as [| ? ? Hnot Hrest]; subst.
    destruct (set_property_keys k0 v0 result Hr) as [Hnd _].
    destruct (IH _ Hnd Hrest) as [IHnd IHget].
    split; [exact IHnd |]. intros k. rewrite IHget, get_set_property.
    simpl. destruct (String.eqb_spec k0 k) as [-> | _]; [| done].
    apply get_property_None in Hnot. by rewrite Hnot.
Qed.

Lemma fold_set_property_same {A} (object : list (string * A)) :
  List.NoDup (List.map fst object) ->
  forall result,
    (forall k, In k (List.map fst object) -> ~ In k (List.map fst result)) ->
    fold_left (fun result kv => set_property kv.1 kv.2 result) object result =
      (result ++ object)%list.
Proof.
  induction object as [| [k0 v0] object IH]; intros Hnd result Hfresh; simpl.
  - by rewrite app_nil_r.
  - inversion Hnd as [| ? ? Hnot Hrest]; subst.
    rewrite set_property_fresh by exact (Hfresh k0 (or_introl eq_refl)).
    rewrite IH; [by rewrite <- app_assoc | exact Hrest |].
    intros k Hk. rewrite map_app, in_app_iff. simpl.
    intros [Hin | [<- | []]]; [| done].
    apply (Hfresh k); [by right | exact Hin].
Qed.

End QueryFacts.

(** X18: values never become SQL text.  The text of the query that
    [all], [first], [count] and [update] hand to [executeSql] is the same
    whatever values the conditions and the new fields carry: it is built
    from the table name, the property names, the order and the limit
    alone.  The values travel as parameters, serialised, the new fields
    of an [update] first and the conditions after them. *)
Theorem values_stay_out_of_sql (toISOString : Z -> string)
    (f g : Query.Value -> Query.Value) (q : Query.QuerySet)
    (values : list (string * Query.Value)) :
  let q' := Query.with_values f q in
  let values' := List.map (fun kv => (kv.1, g kv.2)) values in
  (Query.all_query toISOString q').1 = (Query.all_query toISOString q).1 /\
  (Query.first_query toISOString q').1.1 = (Query.first_query toISOString q).1.1 /\
  (Query.count_query toISOString q').1 = (Query.count_query toISOString q).1 /\
  fst <$> Query.update_query toISOString values' q' =
    fst <$> Query.update_query toISOString values q /\
  (Query.all_query toISOString q).2 =
    List.map (fun kv => Query.serializeValue toISOString kv.2) (Query.qs_conditions q) /\
  snd <$> Query.update_query toISOString values q =
    (if (length values =? 0)%nat then None
     else Some (List.map (fun kv => Query.serializeValue toISOString kv.2)
                         (values ++ Query.qs_conditions q))).
Proof.
  intros q' values'.
  assert ((Query.buildWhere toISOString q').1 = (Query.buildWhere toISOString q).1)
    as Hwhere.
  { unfold Query.buildWhere, q', Query.with_values. cbn [fst Query.qs_conditions].
    by rewrite placeholders_values. }
  assert (forall q0, (Query.buildWhere toISOString (Query.limit 1 q0)).1 =
                     (Query.buildWhere toISOString q0).1) as Hlimit by done.
  split; [| split; [| split; [| split; [| split]]]].
  - unfold Query.all_query. cbn [fst]. by rewrite Hwhere.
  - unfold Query.first_query, Query.all_query. cbn [fst].
    rewrite !Hlimit. by rewrite Hwhere.
  - unfold Query.count_query. cbn [fst]. by rewrite Hwhere.
  - unfold Query.update_query, values'.
    rewrite placeholders_values, Hwhere, !placeholders_length.
    by destruct (length values =? 0)%nat.
  - done.
  - unfold Query.update_query. rewrite placeholders_length.
    destruct (length values =? 0)%nat; [done |]. simpl.
    unfold Query.parameters. by rewrite map_app.
Qed.

(** X19: placeholders and parameters agree.  When neither the table name
    nor a property name nor the order field holds a question mark, every
    query the builder hands to [executeSql] holds exactly as many
    question marks as it has parameters. *)
Theorem placeholders_match_parameters (toISOString : Z -> string)
    (q : Query.QuerySet) (values : list (string * Query.Value)) :
  Query.count_char "?" (Query.qs_table q) = 0%nat ->
  Forall (fun kv => Query.count_char "?" kv.1 = 0%nat) (Query.qs_conditions q) ->
  Forall (fun kv => Query.count_char "?" kv.1 = 0%nat) values ->
  (forall field, Query.orderByField q = Some field ->
                 Query.count_char "?" field = 0%nat) ->
  let balanced (query : string * list Query.Value) :=
    Query.count_char "?" query.1 = length query.2 in
  balanced (Query.all_query toISOString q) /\
  balanced (Query.first_query toISOString q).1 /\
  balanced (Query.count_query toISOString q) /\
  (forall query, Query.update_query toISOString values q = Some query ->
                 balanced query).
Proof.
  intros Htable Hconds Hvalues Horder balanced.
  pose proof (buildWhere_count toISOString q Hconds) as Hwhere.
  assert (forall q0,
            Query.qs_table q0 = Query.qs_table q ->
            Query.qs_conditions q0 = Query.qs_conditions q ->
            Query.orderByField q0 = Query.orderByField q ->
            balanced (Query.all_query toISOString q0)) as Hall.
  { intros q0 Ht Hc Ho. unfold balanced, Query.all_query. cbn [fst snd].
    assert (Query.buildWhere toISOString q0 = Query.buildWhere toISOString q) as ->
      by (unfold Query.buildWhere; by rewrite Hc).
    rewrite Ht, Ho.
    assert (Query.count_char "?"
              ("SELECT * FROM " +:+ Query.qs_table q +:+ " " +:+
               (Query.buildWhere toISOString q).1) =
            length (Query.buildWhere toISOString q).2) as Hbase
      by (rewrite !count_char_app, Htable, Hwhere; reflexivity).
    assert (Query.count_char "?"
              match Query.orderByField q with
              | Some field =>
                  ("SELECT * FROM " +:+ Query.qs_table q +:+ " " +:+
                   (Query.buildWhere toISOString q).1) +:+ " ORDER BY " +:+
                  toSnakeCase field +:+ " " +:+
                  Query.direction_text (Query.orderDirection q0)
              | None =>
                  "SELECT * FROM " +:+ Query.qs_table q +:+ " " +:+
                  (Query.buildWhere toISOString q).1
              end = length (Query.buildWhere toISOString q).2) as Hordered.
    { destruct (Query.orderByField q) as [field |]; [| exact Hbase].
      rewrite count_char_app, Hbase, !count_char_app, count_char_snake.
      rewrite (Horder field eq_refl).
      destruct (Query.orderDirection q0); simpl; lia. }
    destruct (Query.limitCount q0) as [n |]; [| exact Hordered].
    destruct (n =? 0); [exact Hordered |].
    rewrite count_char_app, Hordered, count_char_app, count_char_pretty.
    simpl. lia. }
  split; [by apply Hall |]. split; [by apply Hall |]. split.
  - unfold balanced, Query.count_query. cbn [fst snd].
    rewrite !count_char_app, Htable. exact Hwhere.
  - intros query. unfold Query.update_query.
    rewrite placeholders_length.
    destruct (length values =? 0)%nat eqn:Hlen; [done |].
    intros Hq. apply (inj Some) in Hq. subst query. unfold balanced. cbn [fst snd].
    rewrite !count_char_app, Htable, Hwhere.
    rewrite count_char_join; [| done | by apply placeholders_count].
    rewrite length_app, placeholders_length, parameters_length.
    simpl. lia.
Qed.

(** The theorem at work on the query that [claimJob] of example 11
    issues. *)
Lemma placeholders_match_parameters_witness :
  let q := Query.orderBy "createdAt" Query.ASC
             (Query.filter [("status", Query.VNumber 0)] (Query.new_QuerySet "jobs")) in
  (Query.first_query (fun _ => "") q).1 =
    ("SELECT * FROM jobs WHERE status = ? ORDER BY created_at ASC LIMIT 1",
     [Query.VNumber 0]) /\
  Query.count_char "?" (Query.first_query (fun _ => "") q).1.1 = 1%nat.
Proof.
  intros q. split; [reflexivity |].
  refine (proj1 (proj2 (placeholders_match_parameters (fun _ => "") q []
                          _ _ _ _))).
  - reflexivity.
  - repeat constructor.
  - constructor.
  - intros field [= <-]. reflexivity.
Defined.

(** X20: a later [filter] replaces, it does not add.  After
    [filter(conditions)] the query set holds one condition for each
    property name, and the value for a name is the one of the latest
    [filter] call that gave it; names the call does not give keep their
    earlier value.  So [filter({status: a}).filter({status: b})] asks for
    status b alone. *)
Theorem filter_overrides (conditions : list (string * Query.Value))
    (q : Query.QuerySet) :
  List.NoDup (List.map fst (Query.qs_conditions q)) ->
  List.NoDup (List.map fst conditions) ->
  let q' := Query.filter conditions q in
  List.NoDup (List.map fst (Query.qs_conditions q')) /\
  forall key,
    get_property key (Query.qs_conditions q') =
      match get_property key conditions with
      | Some value => Some value
      | None => get_property key (Query.qs_conditions q)
      end.
Proof.
  intros Hq Hc q'. unfold q', Query.filter, Query.spread. cbn [Query.qs_conditions].
  rewrite fold_left_app.
  rewrite (fold_set_property_same _ Hq []) by (intros k _ []).
  simpl app.
  exact (fold_set_property conditions (Query.qs_conditions q) Hq Hc).
Qed.

(** The theorem at work: two filters on the status, and one on the
    worker. *)
Lemma filter_overrides_witness :
  let q := Query.filter [("status", Query.VNumber 0); ("workerId", Query.VNull)]
             (Query.new_QuerySet "jobs") in
  let q' := Query.filter [("status", Query.VNumber 1)] q in
  get_property "status" (Query.qs_conditions q') = Some (Query.VNumber 1) /\
  get_property "workerId" (Query.qs_conditions q') = Some Query.VNull.
Proof.
  intros q q'.
  destruct (filter_overrides [("status", Query.VNumber 1)] q) as [_ Hget].
  - apply NoDup_ListNoDup, (bool_decide_unpack _). vm_compute. reflexivity.
  - repeat constructor. simpl. tauto.
  - split; [exact (Hget "status") | exact (Hget "workerId")].
Defined.

(* ===================================================================== *)
(** * examples.ts, example 11: callers that claim together *)
(* ===================================================================== *)

Section ClaimSteps.

Lemma claim_twice (w w' : string) (jobId : Z) (s : Store) :
  claimed_by w' jobId (claimed_by w jobId s) = claimed_by w' jobId s.
Proof.
  unfold claimed_by, with_jobs. simpl. f_equal. rewrite map_map.
  apply map_ext. intros j. destruct (id j =? jobId) eqn:E; simpl; by rewrite E.
Qed.

Lemma update_claim_claimed (jobId : Z) (worker : string) (s : Store) :
  exists info, update_claim jobId worker s = inr (info, claimed_by worker jobId s).
Proof. by eexists. Qed.

(** The update of the job found, on a connection with a transaction
    open. *)
Lemma claim_found_open (worker : string) (job : option Job) cm s d :
  claim_found worker job
    {| db := {| committed := cm; open := Some s |}; transactionDepth := d |} =
  (Returns job,
   {| db := {| committed := cm;
               open := Some (match job with
                             | Some j => claimed_by worker (id j) s
                             | None => s
                             end) |};
      transactionDepth := d |}).
Proof. by destruct job. Qed.

(** Replacing the progress of a call that is under way. *)
Lemma filter_set_property {A} (P : A -> bool) key (old new : A) calls :
  get_property key calls = Some old ->
  (length (List.filter (fun kv => P kv.2) (set_property key new calls)) +
   (if P old then 1 else 0) =
   length (List.filter (fun kv => P kv.2) calls) + (if P new then 1 else 0))%nat.
Proof.
  induction calls as [| [k v] rest IH]; simpl; [done |].
  destruct (String.eqb_spec k key) as [-> | Hne]; simpl.
  - intros [= ->]. destruct (P old), (P new); simpl; lia.
  - intros H. specialize (IH H). destruct (P v); simpl; lia.
Qed.

Lemma settle_open {T} (result : T) cm s d :
  settle (Returns result)
    {| db := {| committed := cm; open := Some s |}; transactionDepth := d |} =
  (Returns result,
   if d - 1 =? 0
   then {| db := {| committed := s; open := None |}; transactionDepth := d - 1 |}
   else {| db := {| committed := cm; open := Some s |}; transactionDepth := d - 1 |}).
Proof.
  unfold settle, try_catch, leave, bind, get_depth, set_depth, when, COMMIT, ret.
  simpl. by destruct (d - 1 =? 0).
Qed.

Lemma in_flight_positive worker p calls :
  get_property worker calls = Some p -> is_settled p = false ->
  (0 < in_flight calls)%nat.
Proof.
  unfold in_flight. induction calls as [| [k v] rest IH]; simpl; [done |].
  destruct (String.eqb_spec k worker) as [-> | _].
  - intros [= ->] ->. simpl. lia.
  - intros H1 H2. specialize (IH H1 H2). destruct (negb (is_settled v)); simpl; lia.
Qed.

Lemma set_property_same_keys {A} key (old new : A) calls :
  get_property key calls = Some old ->
  List.map fst (set_property key new calls) = List.map fst calls.
Proof.
  induction calls as [| [k v] rest IH]; simpl; [done |].
  destruct (String.eqb_spec k key) as [-> | _]; simpl; [done |].
  intros H. by rewrite (IH H).
Qed.

End ClaimSteps.

(** ** The order of the engine on stored values *)

Lemma string_compare_refl (s : string) : String.compare s s = Eq.
Proof.
  induction s as [| c s IH]; simpl; [done |].
  unfold Ascii.compare. by rewrite N.compare_refl.
Qed.

Lemma string_compare_trans (s t u : string) :
  String.compare s t = Lt -> String.compare t u = Lt -> String.compare s u = Lt.
Proof.
  revert t u. induction s as [| a s IH]; intros [| b t] [| c u]; simpl; try done.
  unfold Ascii.compare.
  destruct (N.compare_spec (N_of_ascii a) (N_of_ascii b)) as [Hab | Hab | Hab];
    destruct (N.compare_spec (N_of_ascii b) (N_of_ascii c)) as [Hbc | Hbc | Hbc];
    try done; intros H1 H2.
  - rewrite Hab, Hbc, N.compare_refl. by apply (IH t u).
  - rewrite Hab. by apply N.compare_lt_iff in Hbc as ->.
  - rewrite <- Hbc. by apply N.compare_lt_iff in Hab as ->.
  - assert (N_of_ascii a < N_of_ascii c)%N as Hac by lia.
    by apply N.compare_lt_iff in Hac as ->.
Qed.

Lemma string_ltb_irrefl (s : string) : String.ltb s s = false.
Proof. unfold String.ltb. by rewrite string_compare_refl. Qed.

Lemma string_ltb_asym (s t : string) :
  String.ltb s t = true -> String.ltb t s = false.
Proof.
  unfold String.ltb. rewrite (String.compare_antisym s t).
  by destruct (String.compare t s).
Qed.

(** Not before, twice over, is not before. *)
Lemma string_ltb_negtrans (s t u : string) :
  String.ltb s t = false -> String.ltb t u = false -> String.ltb s u = false.
Proof.
  unfold String.ltb. intros Hst Htu.
  destruct (String.compare s u) eqn:Hsu; try done. exfalso.
  destruct (String.compare s t) eqn:Est; try done.
  - apply String.compare_eq_iff in Est as ->. by rewrite Hsu in Htu.
  - destruct (String.compare t u) eqn:Etu; try done.
    + apply String.compare_eq_iff in Etu as ->. by rewrite Hsu in Est.
    + rewrite String.compare_antisym in Est, Etu.
      destruct (String.compare t s) eqn:Ets; try done.
      destruct (String.compare u t) eqn:Eut; try done.
      pose proof (string_compare_trans _ _ _ Eut Ets) as Hus.
      rewrite String.compare_antisym, Hus in Hsu. done.
Qed.

Ltac by_rank :=
  unfold sql_before; cbn [sql_rank sql_number];
  repeat match goal with
         | |- context [Z.ltb ?a ?b] =>
             let v := eval vm_compute in (Z.ltb a b) in
             change (Z.ltb a b) with v
         end;
  cbv iota.

Lemma sql_before_irrefl (v : SqlValue) : sql_before v v = false.
Proof.
  destruct v; by_rank; try done; try apply string_ltb_irrefl.
  all: apply negb_false_iff, Qle_bool_iff, Qle_refl.
Qed.

Lemma number_before_negtrans (x y z : Q) :
  negb (Qle_bool y x) = false -> negb (Qle_bool z y) = false ->
  negb (Qle_bool z x) = false.
Proof.
  rewrite !negb_false_iff, !Qle_bool_iff. intros. by apply (Qle_trans _ y).
Qed.

Lemma number_before_asym (x y : Q) :
  negb (Qle_bool y x) = true -> negb (Qle_bool x y) = false.
Proof.
  rewrite negb_true_iff, negb_false_iff, Qle_bool_iff. intros H.
  destruct (Qlt_le_dec y x) as [Hlt | Hle]; [| done].
  apply Qlt_le_weak, Qle_bool_iff in Hlt. congruence.
Qed.

Lemma sql_before_asym (a b : SqlValue) :
  sql_before a b = true -> sql_before b a = false.
Proof.
  destruct a, b; by_rank; try done;
    try apply string_ltb_asym; apply number_before_asym.
Qed.

Lemma sql_before_negtrans (a b c : SqlValue) :
  sql_before a b = false -> sql_before b c = false -> sql_before a c = false.
Proof.
  destruct a, b, c; by_rank; try done;
    try apply string_ltb_negtrans; apply number_before_negtrans.
Qed.

Section ClaimFacts.

Variable col : Job -> SqlValue.

Local Abbreviation earliest := (Claiming.earliest col).
Local Abbreviation first_pending := (Claiming.first_pending col).
Local Abbreviation claimJob := (Claiming.claimJob col).
Local Abbreviation race_step := (Claiming.race_step col).
Local Abbreviation race := (Claiming.race col).
Local Abbreviation found_in := (Claiming.found_in col).
Local Abbreviation touched := (Claiming.touched col).
Local Abbreviation agreeing := (Claiming.agreeing col).
Local Abbreviation race_inv := (Claiming.race_inv col).
Local Abbreviation started := (Claiming.started col).
Local Abbreviation earlier := (Claiming.earlier col).

Lemma earliest_In (rows : list Job) :
  forall best found,
    earliest best rows = Some found ->
    best = Some found \/ In found rows.
Proof.
  induction rows as [| row rest IH]; intros best found; simpl.
  - intros ->. by left.
  - intros H. apply IH in H as [H | H]; [| by right; right].
    destruct best as [b |].
    + destruct (earlier row b); injection H as <-; [right; by left | by left].
    + injection H as <-. right. by left.
Qed.

Lemma earliest_None (rows : list Job) :
  forall best, earliest best rows = None -> best = None /\ rows = [].
Proof.
  induction rows as [| row rest IH]; intros best; simpl; [done |].
  intros H. apply IH in H as [H _]. by destruct best as [b |]; [destruct (earlier row b) |].
Qed.

Lemma earlier_irrefl (a : Job) : earlier a a = false.
Proof.
  unfold Claiming.earlier. by rewrite sql_before_irrefl, Z.ltb_irrefl.
Qed.

Lemma earlier_asym (a b : Job) : earlier a b = true -> earlier b a = false.
Proof.
  unfold Claiming.earlier. intros H.
  destruct (sql_before (col a) (col b)) eqn:Hab; simpl in *.
  - by rewrite (sql_before_asym _ _ Hab).
  - apply andb_true_iff in H as [Hba Hid]. apply negb_true_iff in Hba.
    rewrite Hba. simpl. apply Z.ltb_lt in Hid. apply Z.ltb_ge. lia.
Qed.

(** Not earlier, twice over, is not earlier. *)
Lemma earlier_negtrans (a b c : Job) :
  earlier a b = false -> earlier b c = false -> earlier a c = false.
Proof.
  unfold Claiming.earlier. intros Hab Hbc.
  apply orb_false_iff in Hab as [Hab Hab'], Hbc as [Hbc Hbc'].
  rewrite (sql_before_negtrans _ _ _ Hab Hbc). simpl.
  destruct (sql_before (col c) (col a)) eqn:Hca; [done |]. simpl.
  destruct (sql_before (col b) (col a)) eqn:Hba.
  { by rewrite (sql_before_negtrans _ _ _ Hbc Hca) in Hba. }
  destruct (sql_before (col c) (col b)) eqn:Hcb.
  { by rewrite (sql_before_negtrans _ _ _ Hca Hab) in Hcb. }
  simpl in *. apply Z.ltb_ge in Hab', Hbc'. apply Z.ltb_ge. lia.
Qed.

(** What [earliest] finds has nothing before it. *)
Lemma earliest_least (rows : list Job) :
  forall best found,
    earliest best rows = Some found ->
    (forall b, best = Some b -> earlier b found = false) /\
    (forall row, In row rows -> earlier row found = false).
Proof.
  induction rows as [| row rest IH]; intros best found; simpl.
  - intros ->. split; [| done]. intros b [= ->]. apply earlier_irrefl.
  - intros H. apply IH in H as [Hbest Hrest].
    destruct best as [b |].
    + destruct (earlier row b) eqn:Hrb.
      * pose proof (Hbest row eq_refl) as Hrow. split.
        -- intros b' [= <-].
           destruct (earlier b found) eqn:Hbf; [| done].
           apply earlier_asym in Hbf.
           by rewrite (earlier_negtrans _ _ _ Hrow Hbf) in Hrb.
        -- intros r [<- | Hin]; [done | by apply Hrest].
      * pose proof (Hbest b eq_refl) as Hb. split.
        -- by intros b' [= <-].
        -- intros r [<- | Hin]; [| by apply Hrest].
           by apply (earlier_negtrans _ b).
    + split; [done |]. intros r [<- | Hin]; [| by apply Hrest].
      by apply Hbest.
Qed.

(** [claimJob] called on its own: the three steps in a row. *)
Lemma claimJob_steps (worker : string) (w : World) :
  claimJob worker w =
    match (run! enter; first_pending) w with
    | (Returns job, w1) =>
        let '(r, w2) := claim_found worker job w1 in settle r w2
    | (Throws error, w1) => (Throws error, w1)
    end.
Proof.
  unfold claimJob. rewrite transaction_phases.
  unfold settle, try_catch, bind, first_pending.
  destruct (enter w) as [[[] | error] w1]; [| reflexivity].
  by destruct (claim_found worker _ w1) as [[job | error] w2].
Qed.

Lemma claimJob_alone (worker : string) (s : Store) :
  claimJob worker (world_of s) =
    (Returns (found_in s),
     world_of (match found_in s with
               | Some j => claimed_by worker (id j) s
               | None => s
               end)).
Proof.
  rewrite claimJob_steps.
  change ((run! enter; first_pending)%js (world_of s))
    with (Returns (found_in s), entered (world_of s)).
  unfold entered. simpl. rewrite claim_found_open.
  by destruct (found_in s).
Qed.

Lemma touched_claimed s0 s worker j :
  found_in s0 = Some j -> touched s0 s -> touched s0 (claimed_by worker (id j) s).
Proof.
  intros Hj [-> | (w' & j' & Hj' & ->)]; right; exists worker, j.
  - done.
  - split; [done |]. rewrite Hj' in Hj. injection Hj as ->. apply claim_twice.
Qed.

Lemma started_inv (s0 : Store) (workers : list string) :
  race_inv s0 workers (started s0 workers).
Proof.
  assert (in_flight (race_calls (started s0 workers)) = length workers) as Hn.
  { unfold in_flight, started. simpl.
    induction workers as [| w ws IH]; simpl; [done | by rewrite IH]. }
  unfold race_inv. rewrite Hn. split; [| split; [| split]].
  - unfold started. simpl. rewrite map_map. simpl. apply map_id.
  - intros worker p. unfold started. simpl. clear Hn.
    induction workers as [| w ws IH]; simpl; [done |].
    destruct (String.eqb w worker); [| exact IH].
    intros [= <-]. by left.
  - by destruct workers.
  - destruct workers as [| w ws]; simpl.
    + split; [done | by left].
    + split; [done |]. exists s0. split; [done | by left].
Qed.

(** The callers start one after the other, and each finds the same
    row. *)
Lemma race_starts (s0 : Store) (workers : list string) :
  forall before,
    List.NoDup (before ++ workers) ->
    race (List.map Start workers) (started s0 before) =
      started s0 (before ++ workers).
Proof.
  induction workers as [| w ws IH]; intros before Hnd.
  - simpl. by rewrite app_nil_r.
  - change (race (List.map Start (w :: ws)) (started s0 before))
      with (race (List.map Start ws) (race_step (Start w) (started s0 before))).
    assert (race_step (Start w) (started s0 before) = started s0 (before ++ [w]))
      as ->.
    { apply NoDup_remove_2 in Hnd.
      assert (~ In w before) as Hfresh by (rewrite in_app_iff in Hnd; tauto).
      assert (get_property w (race_calls (started s0 before)) = None) as Hget.
      { apply get_property_None. unfold started. simpl. rewrite map_map. simpl.
        by rewrite map_id. }
      assert ((run! enter; first_pending)%js (race_world (started s0 before)) =
              (Returns (found_in s0), race_world (started s0 (before ++ [w]))))
        as Henter.
      { destruct before as [| b before]; [reflexivity |].
        unfold bind, enter, get_depth, set_depth, when, Claiming.first_pending, bind, ret.
        simpl. rewrite length_app. simpl. unfold with_depth, found_in. simpl.
        replace (Z.of_nat (S (length before)) + 1)
          with (Z.of_nat (S (length before + 1))) by lia.
        reflexivity. }
      unfold race_step. rewrite Hget, Henter.
      unfold started. simpl. f_equal.
      rewrite set_property_fresh
        by (rewrite map_map; simpl; by rewrite map_id).
      by rewrite map_app. }
    rewrite IH by (by rewrite <- app_assoc).
    by rewrite <- app_assoc.
Qed.

Lemma race_step_inv (s0 : Store) (workers : list string) (e : RaceEvent) (st : Race) :
  is_start e = false ->
  race_inv s0 workers st -> race_inv s0 workers (race_step e st).
Proof.
  intros Hns (Hkeys & Hagree & Hdepth & Hstore).
  destruct e as [w | w | w]; [done | |]; simpl.
  - (* the update of the job found *)
    destruct (get_property w (race_calls st)) as [[job | r | r] |] eqn:Hget;
      try (by repeat split).
    destruct (Hagree w _ Hget) as [[= ->] | [[=] | [=]]].
    pose proof (in_flight_positive w _ _ Hget eq_refl) as Hpos.
    pose proof (filter_set_property (fun p => negb (is_settled p)) w
                  (Found (found_in s0)) (Updated (Returns (found_in s0)))
                  (race_calls st) Hget) as Hcount.
    assert (in_flight (set_property w (Updated (Returns (found_in s0)))
                         (race_calls st)) = in_flight (race_calls st)) as Hsame
      by (unfold in_flight; simpl in Hcount; lia).
    clear Hcount.
    destruct (in_flight (race_calls st) =? 0)%nat eqn:Hz;
      [apply Nat.eqb_eq in Hz; lia |].
    destruct Hstore as (Hcm & s & Hopen & Htouched).
    destruct st as [[[cm op] d] calls]. simpl in *. subst cm op.
    rewrite claim_found_open. unfold race_inv. simpl.
    rewrite Hsame, Hz. split; [by rewrite (set_property_same_keys _ _ _ _ Hget) |].
    split; [| split; [done |]].
    + intros worker p. rewrite get_set_property.
      destruct (String.eqb w worker); [| apply Hagree].
      intros [= <-]. right. by left.
    + split; [done |]. eexists. split; [reflexivity |].
      destruct (found_in s0) as [j |] eqn:Hj; [| exact Htouched].
      by apply touched_claimed.
  - (* the exit of the wrapper *)
    destruct (get_property w (race_calls st)) as [[job | r | r] |] eqn:Hget;
      try (by repeat split).
    destruct (Hagree w _ Hget) as [[=] | [[= ->] | [=]]].
    pose proof (in_flight_positive w _ _ Hget eq_refl) as Hpos.
    pose proof (filter_set_property (fun p => negb (is_settled p)) w
                  (Updated (Returns (found_in s0))) (Settled (Returns (found_in s0)))
                  (race_calls st) Hget) as Hcount.
    assert (in_flight (set_property w (Settled (Returns (found_in s0)))
                         (race_calls st)) = (in_flight (race_calls st) - 1)%nat)
      as Hless by (unfold in_flight in *; simpl in Hcount; lia).
    clear Hcount.
    destruct (in_flight (race_calls st) =? 0)%nat eqn:Hz;
      [apply Nat.eqb_eq in Hz; lia |].
    destruct Hstore as (Hcm & s & Hopen & Htouched).
    destruct st as [[[cm op] d] calls]. simpl in *. subst cm op d.
    rewrite settle_open. unfold race_inv.
    split; [simpl; by rewrite (set_property_same_keys _ _ _ _ Hget) |].
    split; [| split].
    + intros worker p. simpl. rewrite get_set_property.
      destruct (String.eqb w worker); [| apply Hagree].
      intros [= <-]. right. by right.
    + simpl race_calls. rewrite Hless.
      destruct (Z.of_nat (in_flight calls) - 1 =? 0); simpl; lia.
    + simpl race_calls. rewrite Hless.
      destruct (Z.eqb_spec (Z.of_nat (in_flight calls) - 1) 0) as [Hlast | Hmore].
      * replace (in_flight calls - 1 =? 0)%nat with true
          by (symmetry; apply Nat.eqb_eq; lia).
        simpl. by split.
      * replace (in_flight calls - 1 =? 0)%nat with false
          by (symmetry; apply Nat.eqb_neq; lia).
        simpl. split; [done |]. by exists s.
Qed.

End ClaimFacts.

(** X21: [claimJob] of example 11 does not keep simultaneous callers
    apart.  When any number of callers start together on an idle
    connection, as [Promise.all] starts them, every one of them reads the
    same first pending job before any of them updates it, and so every
    call that returns, returns that same job (or null when no job is
    pending), in whatever order the updates and the exits of
    [transaction] are then run.  The database ends as it was or with
    that one job claimed by one of the callers, and once every call has
    returned no transaction is left open.  This holds whatever the
    [created_at] column holds for each row. *)
Theorem claimJob_race (column : Job -> SqlValue) (s0 : Store)
    (workers : list string) (rest : list RaceEvent) :
  List.NoDup workers ->
  forallb (fun e => negb (is_start e)) rest = true ->
  let final :=
    race column (List.map Start workers ++ rest) (race_from (world_of s0)) in
  List.map fst (race_calls final) = workers /\
  (forall worker r,
     get_property worker (race_calls final) = Some (Settled r) ->
     r = Returns (found_in column s0)) /\
  touched column s0 (visible (db (race_world final))) /\
  (in_flight (race_calls final) = 0%nat -> idle (race_world final)).
Proof.
  intros Hnd Hrest final.
  assert (race_inv column s0 workers final) as (Hkeys & Hagree & Hdepth & Hstore).
  { unfold final, race. rewrite fold_left_app.
    fold (race column (List.map Start workers) (race_from (world_of s0))).
    change (race_from (world_of s0)) with (started column s0 []).
    rewrite (race_starts column s0 workers [] Hnd). simpl app.
    pose proof (started_inv column s0 workers) as Hinv.
    revert Hinv. generalize (started column s0 workers).
    induction rest as [| e rest IH]; intros st Hinv; [exact Hinv |].
    simpl in Hrest. apply andb_true_iff in Hrest as [He Hrest].
    apply negb_true_iff in He. simpl.
    apply (IH Hrest). by apply race_step_inv. }
  split; [exact Hkeys |]. split; [| split].
  - intros worker r Hget.
    by destruct (Hagree worker _ Hget) as [[=] | [[=] | [= ->]]].
  - unfold visible. destruct (in_flight (race_calls final) =? 0)%nat.
    + destruct Hstore as [-> Ht]. exact Ht.
    + destruct Hstore as (_ & s & -> & Ht). exact Ht.
  - intros Hz. rewrite Hz in Hstore, Hdepth. simpl in Hstore.
    split; [exact Hdepth | exact (proj1 Hstore)].
Qed.

(** The theorem at work on the three callers of example 11, over a table
    with two pending jobs stamped by the database in the same second: the
    calls go on in step, as they do when each awaits the same promises,
    and all three come back with job 1. *)
Lemma claimJob_race_witness :
  let column := fun _ : Job => SqlText "2024-01-01 10:00:00" in
  let s0 := store_with [pending_job 1 "claim1@example.com";
                        pending_job 2 "claim2@example.com"] [] in
  let workers := ["worker-1"; "worker-2"; "worker-3"] in
  let final := race column
                    (List.map Start workers ++
                     List.map Update workers ++ List.map Finish workers)
                    (race_from (world_of s0)) in
  Forall (fun worker =>
            get_property worker (race_calls final) =
              Some (Settled (Returns (Some (pending_job 1 "claim1@example.com")))))
         workers /\
  List.map workerId (jobs (committed (db (race_world final)))) =
    [Some "worker-3"; None].
Proof.
  intros column s0 workers final.
  destruct (claimJob_race column s0 workers
              (List.map Update workers ++ List.map Finish workers))
    as (_ & Hsame & _ & _).
  - apply NoDup_ListNoDup, (bool_decide_unpack _). vm_compute. reflexivity.
  - reflexivity.
  - fold final in Hsame. split; [| vm_compute; reflexivity].
    assert (forall worker, In worker workers ->
              exists r, get_property worker (race_calls final) = Some (Settled r))
      as Hdone.
    { intros worker Hin. simpl in Hin.
      destruct Hin as [<- | [<- | [<- | []]]]; eexists; vm_compute; reflexivity. }
    apply List.Forall_forall. intros worker Hin.
    destruct (Hdone worker Hin) as [r Hr]. by rewrite Hr, (Hsame worker r Hr).
Defined.

(** The order in which [claimJob] finds the pending jobs is the order of
    the stored values, not of the times they stand for: a job stamped by
    the database late in the evening is found before a job whose time
    the ORM wrote in the morning of the same day. *)
Lemma claim_order_is_textual :
  let evening := pending_job 1 "claim1@example.com" in
  let morning := pending_job 2 "claim2@example.com" in
  let column := fun j : Job =>
    if id j =? 1 then SqlText "2024-01-01 23:59:59"
    else SqlText "2024-01-01T08:00:00.000Z" in
  found_in column (store_with [morning; evening] []) = Some evening /\
  found_in column (store_with [evening; morning] []) = Some evening.
Proof. split; vm_compute; reflexivity. Qed.

(** X22: called one after the other, [claimJob] hands out different jobs.
    On an idle connection the first call returns the pending job that
    comes first in the engine's order on what the [created_at] column
    holds, or null when no job is pending: the job returned is a pending
    job of the table, no pending job holds a value that the engine sorts
    before its value, and among the pending jobs whose value sorts equal
    to its own it has the lowest id.  The call commits it as claimed by
    its caller.  A second call made after the first has returned never
    returns a job with the same id: it returns another job of the table,
    or null; and the connection is idle again afterwards. *)
Theorem claimJob_one_after_another (column : Job -> SqlValue) (s : Store)
    (w1 w2 : string) :
  let first := claimJob column w1 (world_of s) in
  let second := claimJob column w2 first.2 in
  first.1 = Returns (found_in column s) /\
  (forall a, found_in column s = Some a ->
     In a (jobs s) /\ is_pending a = true /\
     forall other, In other (jobs s) -> is_pending other = true ->
       sql_before (column other) (column a) = false /\
       (sql_before (column a) (column other) = false -> id a <= id other)) /\
  (found_in column s = None ->
     (forall j, In j (jobs s) -> is_pending j = false) /\
     second.1 = Returns None) /\
  (forall a, found_in column s = Some a ->
     first.2 = world_of (claimed_by w1 (id a) s) /\
     exists next, second.1 = Returns next /\
       forall b, next = Some b -> id b <> id a /\ In b (jobs s)) /\
  idle second.2.
Proof.
  intros first second. unfold second, first.
  rewrite (claimJob_alone column w1 s). cbn [fst snd].
  rewrite claimJob_alone. cbn [fst snd].
  split; [done |]. split; [| split; [| split]].
  - intros a Ha. unfold found_in in Ha.
    destruct (earliest_In column _ _ _ Ha) as [[=] | Hin].
    apply filter_In in Hin as [Hin Hpending].
    split; [exact Hin |]. split; [exact Hpending |].
    intros other Hother Hp.
    destruct (earliest_least column _ _ _ Ha) as [_ Hleast].
    specialize (Hleast other). rewrite filter_In in Hleast.
    specialize (Hleast (conj Hother Hp)).
    unfold earlier in Hleast. apply orb_false_iff in Hleast as [Hb Hid].
    split; [exact Hb |]. intros Hsame. rewrite Hsame in Hid. simpl in Hid.
    apply Z.ltb_ge in Hid. exact Hid.
  - intros Hnone. split; [| by rewrite Hnone, Hnone].
    unfold found_in in Hnone. apply earliest_None in Hnone as [_ Hempty].
    intros j Hj. destruct (is_pending j) eqn:Hp; [| done].
    assert (In j (List.filter is_pending (jobs s))) as Hin
      by (apply filter_In; by split).
    by rewrite Hempty in Hin.
  - intros a Ha. rewrite Ha. split; [done |]. eexists. split; [reflexivity |].
    intros b Hb. unfold found_in in Hb.
    apply earliest_In in Hb as [[=] | Hin].
    apply filter_In in Hin as [Hin Hpending].
    unfold claimed_by, with_jobs in Hin. simpl in Hin.
    apply in_map_iff in Hin as (row & Hrow & Hin).
    destruct (Z.eqb_spec (id row) (id a)) as [Heq | Hne]; subst b.
    + discriminate.
    + by split.
  - split; reflexivity.
Qed.
